(** * SingleThreadedAgentRuntime

    A shallow embedding of
    [autogen_core/_single_threaded_agent_runtime.py]: the message
    envelopes, the queue with its outstanding-task counter, the
    intervention pipeline of [_process_next], the three delivery
    handlers, the lazy agent cache and the lifecycle controller.

    The runtime object and the Python objects it shares with its
    callers (futures, cancellation tokens) live in one explicit store,
    [Runtime]; every method is a state transformer in the error monad
    [M].  User code (agent handlers, intervention handlers, factories)
    is a parameter: a function giving the outcome of one call, which
    does not call the runtime itself.  In [create_task] and
    [_get_agent] a call into user code runs to completion before the
    next step of the runtime: a background delivery task is executed
    in one go at the point where the dispatcher yields to it.  A
    delivery whose handler is still awaited when other callers run is
    described by the two halves of [_process_send], further down. *)

From stdpp Require Import gmap strings list fin_maps.

Open Scope string_scope.
Open Scope list_scope.

(** ** Identifiers *)

Record AgentId := mkAgentId { aid_type : string; aid_key : string }.

#[global] Instance AgentId_eq_dec : EqDecision AgentId.
Proof. solve_decision. Defined.

#[global] Instance AgentId_countable : Countable AgentId.
Proof.
  refine (inj_countable' (fun a => (aid_type a, aid_key a))
                         (fun p => mkAgentId p.1 p.2) _).
  by intros [].
Defined.

(** [str(agent_id)] *)
Definition AgentId_str (a : AgentId) : string :=
  aid_type a +:+ "/" +:+ aid_key a.

Record AgentType := mkAgentType { at_type : string }.

(** [repr] of a [str] of code points below 256.  The quote is the
    single one, or the double one when the string has a single quote
    and no double one; the quote and the backslash are escaped; tab,
    newline and return are written with their letter; the other
    characters that are not printable (the controls, the no-break
    space and the soft hyphen) are written [\xhh]. *)
Definition hex_digit (n : nat) : Ascii.ascii :=
  Ascii.ascii_of_nat (if Nat.ltb n 10 then 48 + n else 87 + n).

Definition single_quote : Ascii.ascii := Ascii.ascii_of_nat 39.

Definition double_quote : Ascii.ascii := Ascii.ascii_of_nat 34.

Definition backslash : Ascii.ascii := Ascii.ascii_of_nat 92.

Fixpoint has_char (c : Ascii.ascii) (s : string) : bool :=
  match s with
  | EmptyString => false
  | String c' s' => Ascii.eqb c c' || has_char c s'
  end.

Definition repr_char (quote c : Ascii.ascii) : string :=
  let n := Ascii.nat_of_ascii c in
  if Ascii.eqb c quote || Ascii.eqb c backslash then
    String backslash (String c EmptyString)
  else if Nat.eqb n 9 then "\t"
  else if Nat.eqb n 10 then "\n"
  else if Nat.eqb n 13 then "\r"
  else if Nat.ltb n 32 || Nat.eqb n 127 || (Nat.leb 128 n && Nat.leb n 160)
          || Nat.eqb n 173 then
    "\x" +:+ String (hex_digit (Nat.div n 16))
               (String (hex_digit (Nat.modulo n 16)) EmptyString)
  else String c EmptyString.

Fixpoint repr_chars (quote : Ascii.ascii) (s : string) : string :=
  match s with
  | EmptyString => EmptyString
  | String c s' => repr_char quote c +:+ repr_chars quote s'
  end.

Definition repr (s : string) : string :=
  let quote :=
    if has_char single_quote s && negb (has_char double_quote s)
    then double_quote else single_quote in
  String quote (repr_chars quote s +:+ String quote EmptyString).

(** Modelled from the spec: [AgentType] ([_agent_type.py] is not part
    of the sources at hand).  "A wrapper around a type string; used as
    a registration handle."  It is a dataclass with the one field
    [type], so [str] of it is the text a dataclass gives: the class
    name and the field with the [repr] of its value. *)
Definition AgentType_str (type : AgentType) : string :=
  "AgentType(type=" +:+ repr (at_type type) +:+ ")".

(** A topic is an opaque identifier compared by value. *)
Inductive TopicId := Topic (name : string).

#[global] Instance TopicId_eq_dec : EqDecision TopicId.
Proof. solve_decision. Defined.

(** ** Python values and exceptions *)

(** Messages are [Any]; the values the runtime itself distinguishes are
    [None] and the [DropMessage] sentinel (the class object itself, or
    an instance of it). *)
Inductive PyVal :=
| VNone
| VStr (s : string)
| VInt (n : Z)
| DropMessage
| DropMessage_instance.

#[global] Instance PyVal_eq_dec : EqDecision PyVal.
Proof. solve_decision. Defined.

Inductive Exn :=
| Exception (msg : string)
| LookupError (msg : string)
| ValueError (msg : string)
| RuntimeError (msg : string)
| TypeError (msg : string)
| MessageDroppedException
| CancelledError
| InvalidStateError
| QueueShutDown.

#[global] Instance Exn_eq_dec : EqDecision Exn.
Proof. solve_decision. Defined.

(** The outcome of one awaited call into user code. *)
Inductive Outcome :=
| Returns (v : PyVal)
| Raises (e : Exn).

Inductive Result (A : Type) :=
| Ok (a : A)
| Err (e : Exn).
Arguments Ok {A} a.
Arguments Err {A} e.

(** ** User-supplied collaborators *)

Record MessageContext := mkMessageContext {
  ctx_sender : option AgentId;
  ctx_topic_id : option TopicId;
  ctx_is_rpc : bool;
  ctx_cancellation_token : nat;
  ctx_message_id : string
}.

Record Agent := mkAgent {
  agent_class : string;
  on_message : PyVal -> MessageContext -> Outcome
}.

(** An instantiated agent: the object a factory call created ([uid]
    numbers the objects in creation order, standing for Python object
    identity). *)
Record AgentInstance := mkAgentInstance {
  instance_uid : nat;
  instance_agent : Agent
}.

Inductive FactoryResult :=
| Produces (a : Agent)
| Fails (e : Exn).

(** A registered factory is a user callable with the number of
    parameters of its signature, or the closure [factory_wrapper]
    that [register_factory] builds around one. *)
Inductive AgentFactory :=
| Callable (arity : nat) (body : AgentId -> FactoryResult)
| factory_wrapper (agent_factory : AgentFactory) (expected_class : string).

Record InterventionHandler := mkInterventionHandler {
  handler_class : string;
  on_send : PyVal -> option AgentId -> AgentId -> Outcome;
  on_publish : PyVal -> option AgentId -> Outcome;
  on_response : PyVal -> AgentId -> option AgentId -> Outcome
}.

Record Subscription := mkSubscription {
  sub_id : string;
  is_match : TopicId -> bool;
  map_to_agent : TopicId -> AgentId
}.

(** ** Envelopes *)

Record PublishMessageEnvelope := mkPublish {
  p_message : PyVal;
  p_cancellation_token : nat;
  p_sender : option AgentId;
  p_topic_id : TopicId;
  p_message_id : string
}.

Record SendMessageEnvelope := mkSend {
  s_message : PyVal;
  s_sender : option AgentId;
  s_recipient : AgentId;
  s_future : nat;
  s_cancellation_token : nat
}.

Record ResponseMessageEnvelope := mkResponse {
  r_message : PyVal;
  r_future : nat;
  r_sender : AgentId;
  r_recipient : option AgentId
}.

Inductive Envelope :=
| ESend (e : SendMessageEnvelope)
| EPublish (e : PublishMessageEnvelope)
| EResponse (e : ResponseMessageEnvelope).

(** [message_envelope.message = temp_message] *)
Definition s_set_message (m : PyVal) (e : SendMessageEnvelope) :=
  mkSend m (s_sender e) (s_recipient e) (s_future e) (s_cancellation_token e).

Definition p_set_message (m : PyVal) (e : PublishMessageEnvelope) :=
  mkPublish m (p_cancellation_token e) (p_sender e) (p_topic_id e)
            (p_message_id e).

Definition r_set_message (m : PyVal) (e : ResponseMessageEnvelope) :=
  mkResponse m (r_future e) (r_sender e) (r_recipient e).

(** ** asyncio objects *)

(** [asyncio.Future]: pending, or done in one of three ways. *)
Inductive FutureState :=
| FPending
| FResult (v : PyVal)
| FException (e : Exn)
| FCancelled.

#[global] Instance FutureState_eq_dec : EqDecision FutureState.
Proof. solve_decision. Defined.

(** [asyncio.Queue] (3.13, with [shutdown]): the items, the count of
    items put and not yet marked done, and the shutdown flag. *)
Record Queue := mkQueue {
  q_items : list Envelope;
  _unfinished_tasks : nat;
  _is_shutdown : bool
}.

Definition Queue_new : Queue := mkQueue [] 0 false.

Definition qsize (q : Queue) : nat := length (q_items q).

(** Modelled from the spec: [CancellationToken] ([_cancellation_token.py]
    is not part of the sources at hand).  "A mutable signal object with
    operations cancel(), is_cancelled(), and link_future(f) which
    arranges that cancelling the token also cancels f.  Cancellation is
    idempotent and monotonic."  The token keeps the futures linked to
    it; a future linked to a token that is already cancelled is
    cancelled at once. *)
Record CancellationToken := mkToken {
  tok_cancelled : bool;
  tok_linked : list nat
}.

Inductive TaskState :=
| TaskPending
| TaskFinished
| TaskFailed (e : Exn).

(** [RunContext]: the [_stopped] event and the state of [_run_task],
    the task running the dispatcher loop [_run]. *)
Record RunContext := mkRunContext {
  _stopped : bool;
  _run_task : TaskState
}.

(** ** Observable events

    What the runtime does to its surroundings, in order: calls into
    user code, queue accounting, warnings and error logs.
    [EvLogErrorWith msg e] is [logger.error] of the f-string made of
    [msg], a colon, a space and [str(e)]. *)
Inductive Event :=
| EvPut (e : Envelope)
| EvTaskDone
| EvFactoryCall (a : AgentId)
| EvAgentCreated (uid : nat) (a : AgentId)
| EvOnSend (handler : string) (m : PyVal)
| EvOnPublish (handler : string) (m : PyVal)
| EvOnResponse (handler : string) (m : PyVal)
| EvOnMessage (a : AgentId) (m : PyVal) (ctx : MessageContext)
| EvWarn (msg : string)
| EvLogError (msg : string)
| EvLogErrorWith (msg : string) (e : Exn)
| EvTaskException (e : Exn).

(** ** The runtime *)

Record Runtime := mkRuntime {
  _message_queue : Queue;
  _agent_factories : gmap string AgentFactory;
  _instantiated_agents : gmap AgentId AgentInstance;
  _intervention_handlers : option (list InterventionHandler);
  _subscription_manager : list Subscription;
  _run_context : option RunContext;
  futures : list FutureState;
  tokens : list CancellationToken;
  next_uid : nat;
  trace : list Event
}.

(** [SingleThreadedAgentRuntime.__init__] *)
Definition Runtime_init (intervention_handlers : option (list InterventionHandler))
  : Runtime :=
  mkRuntime Queue_new ∅ ∅ intervention_handlers [] None [] [] 0 [].

Definition set_message_queue (q : Queue) (st : Runtime) : Runtime :=
  mkRuntime q (_agent_factories st) (_instantiated_agents st)
    (_intervention_handlers st) (_subscription_manager st) (_run_context st)
    (futures st) (tokens st) (next_uid st) (trace st).

Definition set_agent_factories (fs : gmap string AgentFactory) (st : Runtime)
  : Runtime :=
  mkRuntime (_message_queue st) fs (_instantiated_agents st)
    (_intervention_handlers st) (_subscription_manager st) (_run_context st)
    (futures st) (tokens st) (next_uid st) (trace st).

Definition set_instantiated_agents (ia : gmap AgentId AgentInstance)
  (st : Runtime) : Runtime :=
  mkRuntime (_message_queue st) (_agent_factories st) ia
    (_intervention_handlers st) (_subscription_manager st) (_run_context st)
    (futures st) (tokens st) (next_uid st) (trace st).

Definition set_subscription_manager (sm : list Subscription) (st : Runtime)
  : Runtime :=
  mkRuntime (_message_queue st) (_agent_factories st) (_instantiated_agents st)
    (_intervention_handlers st) sm (_run_context st)
    (futures st) (tokens st) (next_uid st) (trace st).

Definition set_run_context (rc : option RunContext) (st : Runtime) : Runtime :=
  mkRuntime (_message_queue st) (_agent_factories st) (_instantiated_agents st)
    (_intervention_handlers st) (_subscription_manager st) rc
    (futures st) (tokens st) (next_uid st) (trace st).

Definition set_futures (fs : list FutureState) (st : Runtime) : Runtime :=
  mkRuntime (_message_queue st) (_agent_factories st) (_instantiated_agents st)
    (_intervention_handlers st) (_subscription_manager st) (_run_context st)
    fs (tokens st) (next_uid st) (trace st).

Definition set_tokens (ts : list CancellationToken) (st : Runtime) : Runtime :=
  mkRuntime (_message_queue st) (_agent_factories st) (_instantiated_agents st)
    (_intervention_handlers st) (_subscription_manager st) (_run_context st)
    (futures st) ts (next_uid st) (trace st).

Definition set_next_uid (n : nat) (st : Runtime) : Runtime :=
  mkRuntime (_message_queue st) (_agent_factories st) (_instantiated_agents st)
    (_intervention_handlers st) (_subscription_manager st) (_run_context st)
    (futures st) (tokens st) n (trace st).

Definition set_trace (tr : list Event) (st : Runtime) : Runtime :=
  mkRuntime (_message_queue st) (_agent_factories st) (_instantiated_agents st)
    (_intervention_handlers st) (_subscription_manager st) (_run_context st)
    (futures st) (tokens st) (next_uid st) tr.

(** ** The state-and-exception monad of the runtime's methods

    A raised exception keeps the state reached so far, as a Python
    exception keeps every mutation done before it. *)
Definition M (A : Type) : Type := Runtime -> Result A * Runtime.

Definition pure {A} (a : A) : M A := fun st => (Ok a, st).

Definition throw {A} (e : Exn) : M A := fun st => (Err e, st).

Definition bind {A B} (c : M A) (k : A -> M B) : M B :=
  fun st =>
    match c st with
    | (Ok a, st') => k a st'
    | (Err e, st') => (Err e, st')
    end.

(** [try: c  except BaseException as e: h e] *)
Definition try_except {A} (c : M A) (h : Exn -> M A) : M A :=
  fun st =>
    match c st with
    | (Ok a, st') => (Ok a, st')
    | (Err e, st') => h e st'
    end.

(** [try: c  finally: f]: [f] runs on both exits; an exception of [f]
    replaces the outcome of [c]. *)
Definition try_finally {A} (c : M A) (f : M unit) : M A :=
  fun st =>
    match c st with
    | (r, st') =>
        match f st' with
        | (Ok _, st'') => (r, st'')
        | (Err e, st'') => (Err e, st'')
        end
    end.

Definition get_state : M Runtime := fun st => (Ok st, st).

Definition modify (f : Runtime -> Runtime) : M unit := fun st => (Ok tt, f st).

Definition emit (ev : Event) : M unit :=
  modify (fun st => set_trace (trace st ++ [ev]) st).

Declare Scope rt_scope.
Delimit Scope rt_scope with rt.
Notation "'let*' x ':=' c 'in' k" := (bind c (fun x => k))
  (at level 10, x name, c at level 200, k at level 200) : rt_scope.
Notation "c ;; k" := (bind c (fun _ => k))
  (at level 100, k at level 200, right associativity) : rt_scope.
Open Scope rt_scope.

(** ** Queue operations on [self._message_queue] *)

(** [Queue.put] (the queue is unbounded, so it never waits). *)
Definition Queue_put (e : Envelope) : M unit :=
  fun st =>
    let q := _message_queue st in
    if _is_shutdown q then (Err QueueShutDown, st)
    else
      (Ok tt,
       set_trace (trace st ++ [EvPut e])
         (set_message_queue
            (mkQueue (q_items q ++ [e]) (S (_unfinished_tasks q)) false) st)).

(** [Queue.task_done] *)
Definition Queue_task_done : M unit :=
  fun st =>
    let q := _message_queue st in
    match _unfinished_tasks q with
    | 0 => (Err (ValueError "task_done() called too many times"), st)
    | S n =>
        (Ok tt,
         set_trace (trace st ++ [EvTaskDone])
           (set_message_queue (mkQueue (q_items q) n (_is_shutdown q)) st))
    end.

(** [Queue.get]: an item, or [QueueShutDown], or the caller stays
    suspended until something is put. *)
Inductive GetResult :=
| GetItem (e : Envelope) (st : Runtime)
| GetShutDown
| GetWaits.

Definition Queue_get (st : Runtime) : GetResult :=
  let q := _message_queue st in
  match q_items q with
  | [] => if _is_shutdown q then GetShutDown else GetWaits
  | e :: rest =>
      GetItem e
        (set_message_queue (mkQueue rest (_unfinished_tasks q) (_is_shutdown q))
           st)
  end.

(** [Queue.shutdown(immediate=True)]: every remaining item is
    discarded and counted as done. *)
Definition Queue_shutdown_immediate : M unit :=
  modify (fun st =>
    let q := _message_queue st in
    set_message_queue
      (mkQueue [] (_unfinished_tasks q - length (q_items q)) true) st).

(** ** Futures *)

Definition create_future : M nat :=
  fun st => (Ok (length (futures st)), set_futures (futures st ++ [FPending]) st).

Definition Future_set_result (f : nat) (v : PyVal) : M unit :=
  fun st =>
    match futures st !! f with
    | Some FPending => (Ok tt, set_futures (<[f := FResult v]> (futures st)) st)
    | _ => (Err InvalidStateError, st)
    end.

Definition Future_set_exception (f : nat) (e : Exn) : M unit :=
  fun st =>
    match futures st !! f with
    | Some FPending => (Ok tt, set_futures (<[f := FException e]> (futures st)) st)
    | _ => (Err InvalidStateError, st)
    end.

(** [Future.cancel] on the store of futures: a done future is left
    as it is. *)
Definition cancel_future (f : nat) (fs : list FutureState) : list FutureState :=
  match fs !! f with
  | Some FPending => <[f := FCancelled]> fs
  | _ => fs
  end.

Definition Future_cancelled (f : nat) : M bool :=
  fun st => (Ok (bool_decide (futures st !! f = Some FCancelled)), st).

(** What [await future] gives its caller once the future is done. *)
Definition await_future (f : nat) (st : Runtime) : option (Result PyVal) :=
  match futures st !! f with
  | Some (FResult v) => Some (Ok v)
  | Some (FException e) => Some (Err e)
  | Some FCancelled => Some (Err CancelledError)
  | _ => None
  end.

(** ** Cancellation tokens *)

Definition CancellationToken_new : M nat :=
  fun st => (Ok (length (tokens st)), set_tokens (tokens st ++ [mkToken false []]) st).

Definition is_cancelled (tok : nat) (st : Runtime) : bool :=
  match tokens st !! tok with
  | Some t => tok_cancelled t
  | None => false
  end.

Definition cancel (tok : nat) : M unit :=
  modify (fun st =>
    match tokens st !! tok with
    | Some t =>
        if tok_cancelled t then st
        else
          set_futures (foldr cancel_future (futures st) (tok_linked t))
            (set_tokens (<[tok := mkToken true (tok_linked t)]> (tokens st)) st)
    | None => st
    end).

Definition link_future (tok : nat) (f : nat) : M unit :=
  modify (fun st =>
    match tokens st !! tok with
    | Some t =>
        if tok_cancelled t then set_futures (cancel_future f (futures st)) st
        else set_tokens (<[tok := mkToken false (tok_linked t ++ [f])]> (tokens st)) st
    | None => st
    end).

(** ** Subscription manager *)

(** Modelled from the spec: [SubscriptionManager]
    ([_runtime_impl_helpers.py] is not part of the sources at hand).
    "add(sub) -- append; duplicates by sub.id are rejected with an
    error.  remove(id) -- remove by id; missing id is an error.
    recipients(topic_id) -- concatenate sub.map_to_agent(topic_id) for
    every sub.matches(topic_id), preserving subscription order,
    deduplicating on AgentId equality." *)
Definition add_subscription (subscription : Subscription) : M unit :=
  fun st =>
    if bool_decide (sub_id subscription ∈ sub_id <$> _subscription_manager st)
    then (Err (ValueError "Subscription already exists"), st)
    else (Ok tt,
          set_subscription_manager (_subscription_manager st ++ [subscription]) st).

Definition remove_subscription (id : string) : M unit :=
  fun st =>
    if bool_decide (id ∈ sub_id <$> _subscription_manager st)
    then (Ok tt,
          set_subscription_manager
            (filter (fun s => sub_id s ≠ id) (_subscription_manager st)) st)
    else (Err (ValueError "Subscription does not exist"), st).

Definition get_subscribed_recipients (topic_id : TopicId) : M (list AgentId) :=
  fun st =>
    (Ok (remove_dups
           ((fun s => map_to_agent s topic_id) <$>
            filter (fun s => is_match s topic_id = true) (_subscription_manager st))),
     st).

(** ** Agent factories and the instance cache *)

Definition signature_parameters (fac : AgentFactory) : nat :=
  match fac with
  | Callable arity _ => arity
  | factory_wrapper _ _ => 0
  end.

Definition fresh_uid : M nat :=
  fun st => (Ok (next_uid st), set_next_uid (S (next_uid st)) st).

(** Calling a factory object with [nargs] positional arguments, inside
    the instantiation context of [agent_id].  The body of
    [factory_wrapper] is the one written in [register_factory]. *)
Fixpoint call_factory (fac : AgentFactory) (nargs : nat) (agent_id : AgentId)
  : M AgentInstance :=
  match fac with
  | Callable arity body =>
      if decide (arity = nargs) then
        match body agent_id with
        | Produces a =>
            let* uid := fresh_uid in
            emit (EvAgentCreated uid agent_id) ;;
            pure (mkAgentInstance uid a)
        | Fails e => throw e
        end
      else throw (TypeError "wrong number of positional arguments")
  | factory_wrapper agent_factory expected_class =>
      if decide (nargs = 0) then
        let* agent_instance := call_factory agent_factory 0 agent_id in
        if decide (agent_class (instance_agent agent_instance) ≠ expected_class)
        then throw (ValueError "Factory registered using the wrong type.")
        else pure agent_instance
      else throw (TypeError "wrong number of positional arguments")
  end.

Definition _invoke_agent_factory (agent_factory : AgentFactory)
  (agent_id : AgentId) : M AgentInstance :=
  if decide (signature_parameters agent_factory = 0) then
    emit (EvFactoryCall agent_id) ;;
    call_factory agent_factory 0 agent_id
  else if decide (signature_parameters agent_factory = 2) then
    emit (EvWarn "Agent factories that take two arguments are deprecated. Use AgentInstantiationContext instead. Two arg factories will be removed in a future version.") ;;
    emit (EvFactoryCall agent_id) ;;
    call_factory agent_factory 2 agent_id
  else throw (ValueError "Agent factory must take 0 or 2 arguments.").

(** [_get_agent], with a factory whose call is not suspended: the
    test of the cache, the factory call and the store are one step. *)
Definition _get_agent (agent_id : AgentId) : M AgentInstance :=
  let* st := get_state in
  match _instantiated_agents st !! agent_id with
  | Some agent => pure agent
  | None =>
      match _agent_factories st !! aid_type agent_id with
      | None =>
          throw (LookupError
                   ("Agent with name " +:+ aid_type agent_id +:+ " not found."))
      | Some agent_factory =>
          let* agent := _invoke_agent_factory agent_factory agent_id in
          modify (fun st =>
            set_instantiated_agents
              (<[agent_id := agent]> (_instantiated_agents st)) st) ;;
          pure agent
      end
  end.

(** [register] with a subscription list already evaluated. *)
Definition register (type : string) (agent_factory : AgentFactory)
  (subscriptions : option (list Subscription)) : M AgentType :=
  let* st := get_state in
  if decide (is_Some (_agent_factories st !! type)) then
    throw (ValueError ("Agent with type " +:+ type +:+ " already exists."))
  else
    match subscriptions with
    | Some subscriptions_list =>
        foldr (fun subscription k => add_subscription subscription ;; k)
              (pure tt) subscriptions_list
    | None => pure tt
    end ;;
    modify (fun st =>
      set_agent_factories (<[type := agent_factory]> (_agent_factories st)) st) ;;
    pure (mkAgentType type).

Definition register_factory (type : AgentType) (agent_factory : AgentFactory)
  (expected_class : string) : M AgentType :=
  let* st := get_state in
  if decide (is_Some (_agent_factories st !! at_type type)) then
    throw (ValueError
             ("Agent with type " +:+ AgentType_str type +:+ " already exists."))
  else
    modify (fun st =>
      set_agent_factories
        (<[at_type type := factory_wrapper agent_factory expected_class]>
           (_agent_factories st)) st) ;;
    pure type.

(** ** Sending and publishing *)

(** [send_message] up to its last line: the future it creates is
    returned, and [await_future] of it is what the caller's
    [return await future] gives. *)
Definition send_message (message : PyVal) (recipient : AgentId)
  (sender : option AgentId) (cancellation_token : option nat) : M nat :=
  let* cancellation_token :=
    match cancellation_token with
    | None => CancellationToken_new
    | Some tok => pure tok
    end in
  let* future := create_future in
  let* st := get_state in
  (if decide (is_Some (_agent_factories st !! aid_type recipient)) then pure tt
   else Future_set_exception future (Exception "Recipient not found")) ;;
  Queue_put (ESend (mkSend message sender recipient future cancellation_token)) ;;
  link_future cancellation_token future ;;
  pure future.

(** [publish_message]; [uuid4] is the string [str(uuid.uuid4())] would
    give, used when no message id is passed. *)
Definition publish_message (message : PyVal) (topic_id : TopicId)
  (sender : option AgentId) (cancellation_token : option nat)
  (message_id : option string) (uuid4 : string) : M unit :=
  let* cancellation_token :=
    match cancellation_token with
    | None => CancellationToken_new
    | Some tok => pure tok
    end in
  let message_id := default uuid4 message_id in
  Queue_put (EPublish (mkPublish message cancellation_token sender topic_id
                                 message_id)).

(** ** Delivery handlers *)

Definition _process_send (message_envelope : SendMessageEnvelope) : M unit :=
  let recipient := s_recipient message_envelope in
  let* response :=
    try_except
      (let* recipient_agent := _get_agent recipient in
       let message_context :=
         mkMessageContext (s_sender message_envelope) None true
           (s_cancellation_token message_envelope) "NOT_DEFINED_TODO_FIX" in
       emit (EvOnMessage recipient (s_message message_envelope) message_context) ;;
       match on_message (instance_agent recipient_agent)
               (s_message message_envelope) message_context with
       | Returns response => pure (Some response)
       | Raises e => throw e
       end)
      (fun e =>
         if decide (e = CancelledError) then
           let* cancelled := Future_cancelled (s_future message_envelope) in
           (if cancelled then pure tt
            else Future_set_exception (s_future message_envelope) e) ;;
           Queue_task_done ;;
           pure None
         else
           Future_set_exception (s_future message_envelope) e ;;
           Queue_task_done ;;
           pure None) in
  match response with
  | None => pure tt
  | Some response =>
      Queue_put (EResponse (mkResponse response (s_future message_envelope)
                              (s_recipient message_envelope)
                              (s_sender message_envelope))) ;;
      Queue_task_done
  end.

(** The coroutine object [_on_message(agent, message_context)], created
    in the loop of [_process_publish] and started by [gather]. *)
Record OnMessageCoroutine := mkCoroutine {
  co_agent_id : AgentId;
  co_agent : AgentInstance;
  co_message_context : MessageContext
}.

(** The [for agent_id in recipients] loop of [_process_publish]. *)
Fixpoint publish_loop (recipients : list AgentId)
  (message_envelope : PublishMessageEnvelope)
  (responses : list OnMessageCoroutine) : M (list OnMessageCoroutine) :=
  match recipients with
  | [] => pure responses
  | agent_id :: rest =>
      if decide (p_sender message_envelope = Some agent_id) then
        publish_loop rest message_envelope responses
      else
        match p_sender message_envelope with
        | Some sender => let* sender_agent := _get_agent sender in pure tt
        | None => pure tt
        end ;;
        let message_context :=
          mkMessageContext (p_sender message_envelope)
            (Some (p_topic_id message_envelope)) false
            (p_cancellation_token message_envelope)
            (p_message_id message_envelope) in
        let* agent := _get_agent agent_id in
        publish_loop rest message_envelope
          (responses ++ [mkCoroutine agent_id agent message_context])
  end.

(** Every coroutine handed to [asyncio.gather] is started, in order;
    each handler returns or raises without calling the runtime. *)
Fixpoint run_coroutines (message : PyVal) (responses : list OnMessageCoroutine)
  : M (list Outcome) :=
  match responses with
  | [] => pure []
  | c :: rest =>
      emit (EvOnMessage (co_agent_id c) message (co_message_context c)) ;;
      let o := on_message (instance_agent (co_agent c)) message
                 (co_message_context c) in
      let* os := run_coroutines message rest in
      pure (o :: os)
  end.

Fixpoint first_exception (os : list Outcome) : option Exn :=
  match os with
  | [] => None
  | Raises e :: _ => Some e
  | Returns _ :: rest => first_exception rest
  end.

(** [await asyncio.gather] over [responses]: the first exception, if
    any, reaches the awaiting task once all coroutines have run. *)
Definition gather (message : PyVal) (responses : list OnMessageCoroutine)
  : M unit :=
  let* os := run_coroutines message responses in
  match first_exception os with
  | Some e => throw e
  | None => pure tt
  end.

Definition _process_publish (message_envelope : PublishMessageEnvelope)
  : M unit :=
  try_finally
    (try_except
       (let* recipients :=
          get_subscribed_recipients (p_topic_id message_envelope) in
        let* responses := publish_loop recipients message_envelope [] in
        gather (p_message message_envelope) responses)
       (fun e =>
          if decide (e = CancelledError) then pure tt
          else emit (EvLogError "Error processing publish message")))
    Queue_task_done.

Definition _process_response (message_envelope : ResponseMessageEnvelope)
  : M unit :=
  Queue_task_done ;;
  let* cancelled := Future_cancelled (r_future message_envelope) in
  if cancelled then pure tt
  else Future_set_result (r_future message_envelope) (r_message message_envelope).

(** ** The dispatcher *)

Definition none_warning (handler_name : string) : string :=
  "Intervention handler " +:+ handler_name +:+
  " returned None. This might be unintentional. Consider returning the original message or DropMessage explicitly.".

Definition _warn_if_none (value : PyVal) (handler_name : string) : M unit :=
  if decide (value = VNone) then emit (EvWarn (none_warning handler_name))
  else pure tt.

(** [temp_message is DropMessage or isinstance(temp_message, DropMessage)] *)
Definition is_DropMessage (temp_message : PyVal) : bool :=
  match temp_message with
  | DropMessage | DropMessage_instance => true
  | _ => false
  end.

(** How a block of [_process_next] ends: it falls through to the code
    after it, or executes [return]. *)
Inductive Flow (A : Type) :=
| Continue (a : A)
| Return_.
Arguments Continue {A} a.
Arguments Return_ {A}.

(** The three [for handler in self._intervention_handlers] loops.
    [message], [sender], [recipient] and [future] are the names bound
    by the [case] pattern; [message_envelope] is the envelope object
    the loop assigns to. *)
Fixpoint intercept_send (handlers : list InterventionHandler)
  (message : PyVal) (sender : option AgentId) (recipient : AgentId)
  (future : nat) (message_envelope : SendMessageEnvelope)
  : M (Flow SendMessageEnvelope) :=
  match handlers with
  | [] => pure (Continue message_envelope)
  | handler :: rest =>
      emit (EvOnSend (handler_class handler) message) ;;
      match on_send handler message sender recipient with
      | Raises e => Future_set_exception future e ;; pure Return_
      | Returns temp_message =>
          _warn_if_none temp_message "on_send" ;;
          if is_DropMessage temp_message then
            Future_set_exception future MessageDroppedException ;;
            pure Return_
          else
            intercept_send rest message sender recipient future
              (s_set_message temp_message message_envelope)
      end
  end.

Fixpoint intercept_publish (handlers : list InterventionHandler)
  (message : PyVal) (sender : option AgentId)
  (message_envelope : PublishMessageEnvelope)
  : M (Flow PublishMessageEnvelope) :=
  match handlers with
  | [] => pure (Continue message_envelope)
  | handler :: rest =>
      emit (EvOnPublish (handler_class handler) message) ;;
      match on_publish handler message sender with
      | Raises e =>
          emit (EvLogErrorWith "Exception raised in in intervention handler"
                  e) ;;
          pure Return_
      | Returns temp_message =>
          _warn_if_none temp_message "on_publish" ;;
          if is_DropMessage temp_message then pure Return_
          else
            intercept_publish rest message sender
              (p_set_message temp_message message_envelope)
      end
  end.

Fixpoint intercept_response (handlers : list InterventionHandler)
  (message : PyVal) (sender : AgentId) (recipient : option AgentId)
  (future : nat) (message_envelope : ResponseMessageEnvelope)
  : M (Flow ResponseMessageEnvelope) :=
  match handlers with
  | [] => pure (Continue message_envelope)
  | handler :: rest =>
      emit (EvOnResponse (handler_class handler) message) ;;
      match on_response handler message sender recipient with
      | Raises e => Future_set_exception future e ;; pure Return_
      | Returns temp_message =>
          _warn_if_none temp_message "on_response" ;;
          if is_DropMessage temp_message then
            Future_set_exception future MessageDroppedException ;;
            pure Return_
          else
            intercept_response rest message sender recipient future
              (r_set_message temp_message message_envelope)
      end
  end.

(** [asyncio.create_task(c)] and the [await asyncio.sleep(0)] at the
    end of [_process_next], which lets the task run: the body is
    executed in one go, as it is when none of its awaits suspends; an
    exception escaping it ends the task and is reported by the event
    loop, the dispatcher goes on. *)
Definition create_task (c : M unit) : M unit :=
  try_except c (fun e => emit (EvTaskException e)).

(** The [match message_envelope] statement of [_process_next]. *)
Definition dispatch (message_envelope : Envelope) : M unit :=
  let* st := get_state in
  match message_envelope with
  | ESend env =>
      let* flow :=
        match _intervention_handlers st with
        | Some handlers =>
            intercept_send handlers (s_message env) (s_sender env)
              (s_recipient env) (s_future env) env
        | None => pure (Continue env)
        end in
      match flow with
      | Return_ => pure tt
      | Continue env' => create_task (_process_send env')
      end
  | EPublish env =>
      let* flow :=
        match _intervention_handlers st with
        | Some handlers =>
            intercept_publish handlers (p_message env) (p_sender env) env
        | None => pure (Continue env)
        end in
      match flow with
      | Return_ => pure tt
      | Continue env' => create_task (_process_publish env')
      end
  | EResponse env =>
      let* flow :=
        match _intervention_handlers st with
        | Some handlers =>
            intercept_response handlers (r_message env) (r_sender env)
              (r_recipient env) (r_future env) env
        | None => pure (Continue env)
        end in
      match flow with
      | Return_ => pure tt
      | Continue env' => create_task (_process_response env')
      end
  end.

(** [_process_next]; [None] when the call stays suspended in
    [queue.get()]. *)
Definition _process_next (st : Runtime) : option (Result unit * Runtime) :=
  match Queue_get st with
  | GetWaits => None
  | GetShutDown => Some (Ok tt, st)
  | GetItem message_envelope st' => Some (dispatch message_envelope st')
  end.

(** ** Run context and lifecycle *)

(** One turn of the loop of [RunContext._run]; [None] when the loop
    makes no step: the runtime is not started, the task has ended, or
    it stays suspended in [queue.get()]. *)
Definition _run_iteration (st : Runtime) : option Runtime :=
  match _run_context st with
  | Some (mkRunContext stopped TaskPending) =>
      if stopped then
        Some (set_run_context (Some (mkRunContext stopped TaskFinished)) st)
      else
        match _process_next st with
        | None => None
        | Some (Ok _, st') => Some st'
        | Some (Err e, st') =>
            Some (set_run_context (Some (mkRunContext stopped (TaskFailed e))) st')
        end
  | _ => None
  end.

(** The dispatcher task is given [n] turns. *)
Fixpoint run_dispatcher (n : nat) (st : Runtime) : Runtime :=
  match n with
  | 0 => st
  | S n' =>
      match _run_iteration st with
      | Some st' => run_dispatcher n' st'
      | None => st
      end
  end.

(** [await queue.join()]: the caller sleeps while the dispatcher runs,
    until the outstanding-task counter is zero.  [None]: the counter
    is not zero after [fuel] turns, or the dispatcher can make no
    further step while it is not zero. *)
Fixpoint Queue_join (fuel : nat) (st : Runtime) : option Runtime :=
  if decide (_unfinished_tasks (_message_queue st) = 0) then Some st
  else
    match fuel with
    | 0 => None
    | S fuel' =>
        match _run_iteration st with
        | Some st' => Queue_join fuel' st'
        | None => None
        end
    end.

(** [await self._run_task] *)
Definition await_run_task : M unit :=
  fun st =>
    let st' := default st (_run_iteration st) in
    match _run_context st' with
    | Some (mkRunContext _ (TaskFailed e)) => (Err e, st')
    | _ => (Ok tt, st')
    end.

Definition RunContext_stop : M unit :=
  modify (fun st =>
    match _run_context st with
    | Some rc => set_run_context (Some (mkRunContext true (_run_task rc))) st
    | None => st
    end) ;;
  Queue_shutdown_immediate ;;
  await_run_task.

Definition start : M unit :=
  let* st := get_state in
  match _run_context st with
  | Some _ => throw (RuntimeError "Runtime is already started")
  | None => modify (set_run_context (Some (mkRunContext false TaskPending)))
  end.

Definition stop : M unit :=
  let* st := get_state in
  match _run_context st with
  | None => throw (RuntimeError "Runtime is not started")
  | Some _ =>
      RunContext_stop ;;
      modify (set_run_context None) ;;
      modify (set_message_queue Queue_new)
  end.

(** [stop_when_idle]; [None] when [join] never returns. *)
Definition stop_when_idle (fuel : nat) (st : Runtime)
  : option (Result unit * Runtime) :=
  match _run_context st with
  | None => Some (Err (RuntimeError "Runtime is not started"), st)
  | Some _ =>
      match Queue_join fuel st with
      | None => None
      | Some st' =>
          Some ((RunContext_stop ;;
                 modify (set_run_context None) ;;
                 modify (set_message_queue Queue_new)) st')
      end
  end.

(** [RunContext.stop_when]: [check_condition] runs in a task of its
    own, which polls [condition].  Before each poll the dispatcher has
    had the number of turns the head of [polls] says: those it was
    ready for when the task was created, then those of one
    [check_period].  [None]: the condition is false at every poll. *)
Fixpoint check_condition (condition : Runtime -> bool) (polls : list nat)
  (st : Runtime) : option (Result unit * Runtime) :=
  match polls with
  | [] => None
  | k :: polls' =>
      let st' := run_dispatcher k st in
      if condition st' then Some (RunContext_stop st')
      else check_condition condition polls' st'
  end.

Definition stop_when (condition : Runtime -> bool) (polls : list nat)
  (st : Runtime) : option (Result unit * Runtime) :=
  match _run_context st with
  | None => Some (Err (RuntimeError "Runtime is not started"), st)
  | Some _ =>
      match check_condition condition polls st with
      | None => None
      | Some (Ok _, st') =>
          Some ((modify (set_run_context None) ;;
                 modify (set_message_queue Queue_new)) st')
      | Some (Err e, st') => Some (Err e, st')
      end
  end.

(** ** Observations on traces *)

Definition is_put (ev : Event) : bool :=
  match ev with EvPut _ => true | _ => false end.

Definition is_task_done (ev : Event) : bool :=
  match ev with EvTaskDone => true | _ => false end.

Definition is_on_message (ev : Event) : bool :=
  match ev with EvOnMessage _ _ _ => true | _ => false end.

Definition is_factory_call (ev : Event) : bool :=
  match ev with EvFactoryCall _ => true | _ => false end.

(** The number of successful [put()] calls and of [task_done()] calls
    recorded in a trace. *)
Definition count_put (tr : list Event) : nat := length (filter is_put tr).

Definition count_task_done (tr : list Event) : nat :=
  length (filter is_task_done tr).

(** [on_message] of agent [a] was invoked. *)
Definition invoked (a : AgentId) (tr : list Event) : Prop :=
  ∃ m ctx, EvOnMessage a m ctx ∈ tr.

(** The state after an [M] computation, whatever its outcome. *)
Definition exec {A} (c : M A) (st : Runtime) : Runtime := (c st).2.

(** ** Scenarios *)

Definition echo_agent : Agent := mkAgent "Echo" (fun m _ => Returns m).

Definition echo_factory : AgentFactory :=
  Callable 0 (fun _ => Produces echo_agent).

Definition echo_id : AgentId := mkAgentId "echo" "default".

(** A started runtime with the type ["echo"] registered. *)
Definition echo_runtime (handlers : option (list InterventionHandler))
  : Runtime :=
  exec start (exec (register "echo" echo_factory None) (Runtime_init handlers)).

Definition append_suffix (suffix : string) (m : PyVal) : Outcome :=
  match m with
  | VStr s => Returns (VStr (s +:+ suffix))
  | _ => Returns m
  end.

(** A handler that appends [suffix] to every string message. *)
Definition suffix_handler (name suffix : string) : InterventionHandler :=
  mkInterventionHandler name
    (fun m _ _ => append_suffix suffix m)
    (fun m _ => append_suffix suffix m)
    (fun m _ _ => append_suffix suffix m).

(** A handler whose [on_send] returns [DropMessage]. *)
Definition drop_handler : InterventionHandler :=
  mkInterventionHandler "H"
    (fun _ _ _ => Returns DropMessage)
    (fun m _ => Returns m)
    (fun m _ _ => Returns m).

Definition chain_runtime : Runtime :=
  echo_runtime (Some [suffix_handler "H1" "1"; suffix_handler "H2" "2"]).

Definition chain_sent : Runtime :=
  exec (send_message (VStr "m") echo_id None None) chain_runtime.

Definition drop_runtime : Runtime := echo_runtime (Some [drop_handler]).

Definition drop_sent : Runtime :=
  exec (send_message (VStr "hi") echo_id None None) drop_runtime.

(** The message context [_process_send] builds. *)
Definition send_context (sender : option AgentId) (cancellation_token : nat)
  : MessageContext :=
  mkMessageContext sender None true cancellation_token "NOT_DEFINED_TODO_FIX".

(** The message context [_process_publish] builds. *)
Definition publish_context (e : PublishMessageEnvelope) : MessageContext :=
  mkMessageContext (p_sender e) (Some (p_topic_id e)) false
    (p_cancellation_token e) (p_message_id e).

(** ** The intervention pipeline seen from outside *)

(** The hook of [h] that [_process_next] calls for an envelope, on the
    message the envelope carries when it is taken from the queue. *)
Definition intervene (h : InterventionHandler) (e : Envelope) : Outcome :=
  match e with
  | ESend env => on_send h (s_message env) (s_sender env) (s_recipient env)
  | EPublish env => on_publish h (p_message env) (p_sender env)
  | EResponse env =>
      on_response h (r_message env) (r_sender env) (r_recipient env)
  end.

Definition hook_name (e : Envelope) : string :=
  match e with
  | ESend _ => "on_send"
  | EPublish _ => "on_publish"
  | EResponse _ => "on_response"
  end.

(** The event of calling the hook of [h] with message [m]. *)
Definition hook_event (h : InterventionHandler) (e : Envelope) (m : PyVal)
  : Event :=
  match e with
  | ESend _ => EvOnSend (handler_class h) m
  | EPublish _ => EvOnPublish (handler_class h) m
  | EResponse _ => EvOnResponse (handler_class h) m
  end.

Definition envelope_message (e : Envelope) : PyVal :=
  match e with
  | ESend env => s_message env
  | EPublish env => p_message env
  | EResponse env => r_message env
  end.

Definition set_envelope_message (m : PyVal) (e : Envelope) : Envelope :=
  match e with
  | ESend env => ESend (s_set_message m env)
  | EPublish env => EPublish (p_set_message m env)
  | EResponse env => EResponse (r_set_message m env)
  end.

(** The result handle an envelope carries, if any. *)
Definition envelope_future (e : Envelope) : option nat :=
  match e with
  | ESend env => Some (s_future env)
  | EPublish _ => None
  | EResponse env => Some (r_future env)
  end.

(** A hook outcome that lets the pipeline go on, and one that drops. *)
Definition passes (o : Outcome) : Prop :=
  ∃ v, o = Returns v ∧ is_DropMessage v = false.

Definition drops (o : Outcome) : Prop :=
  ∃ v, o = Returns v ∧ is_DropMessage v = true.

Definition warn_events (handler_name : string) (o : Outcome) : list Event :=
  match o with
  | Returns VNone => [EvWarn (none_warning handler_name)]
  | _ => []
  end.

(** What the pipeline does to its surroundings while the handlers
    [hs] are applied to envelope [e] and none of them raises. *)
Definition intervention_events (hs : list InterventionHandler) (e : Envelope)
  : list Event :=
  flat_map
    (fun h =>
       hook_event h e (envelope_message e)
         :: warn_events (hook_name e) (intervene h e))
    hs.

(** The message an envelope carries after the handlers [hs] passed it. *)
Definition intervened_message (hs : list InterventionHandler) (e : Envelope)
  : PyVal :=
  match last hs with
  | Some h =>
      match intervene h e with
      | Returns v => v
      | Raises _ => envelope_message e
      end
  | None => envelope_message e
  end.

(** The delivery task [_process_next] spawns for an envelope. *)
Definition deliver (e : Envelope) : M unit :=
  match e with
  | ESend env => _process_send env
  | EPublish env => _process_publish env
  | EResponse env => _process_response env
  end.

(** The envelope object after the handlers [pre] passed it: each
    assignment [message_envelope.message = temp_message] overwrites
    the one before. *)
Definition s_after (pre : list InterventionHandler)
  (env0 env : SendMessageEnvelope) : SendMessageEnvelope :=
  match pre with
  | [] => env
  | _ => s_set_message (intervened_message pre (ESend env0)) env
  end.

Definition p_after (pre : list InterventionHandler)
  (env0 env : PublishMessageEnvelope) : PublishMessageEnvelope :=
  match pre with
  | [] => env
  | _ => p_set_message (intervened_message pre (EPublish env0)) env
  end.

Definition r_after (pre : list InterventionHandler)
  (env0 env : ResponseMessageEnvelope) : ResponseMessageEnvelope :=
  match pre with
  | [] => env
  | _ => r_set_message (intervened_message pre (EResponse env0)) env
  end.

Definition after_handlers (hs : list InterventionHandler) (e : Envelope)
  : Envelope :=
  match e with
  | ESend env => ESend (s_after hs env env)
  | EPublish env => EPublish (p_after hs env env)
  | EResponse env => EResponse (r_after hs env env)
  end.

(** What [_process_next] does with the result handle of a dropped
    envelope. *)
Definition settle_dropped (e : Envelope) : M unit :=
  match envelope_future e with
  | Some f => Future_set_exception f MessageDroppedException
  | None => pure tt
  end.

Definition is_hook (ev : Event) : bool :=
  match ev with
  | EvOnSend _ _ | EvOnPublish _ _ | EvOnResponse _ _ => true
  | _ => false
  end.

(** The queue once its head has been taken by [get]. *)
Definition dequeued (rest : list Envelope) (st : Runtime) : Runtime :=
  set_message_queue
    (mkQueue rest (_unfinished_tasks (_message_queue st))
       (_is_shutdown (_message_queue st))) st.

(** ** The agent cache seen from outside *)

(** The agent a factory call produces, or the exception it ends with,
    leaving aside the identity given to the new object. *)
Fixpoint factory_product (fac : AgentFactory) (nargs : nat) (a : AgentId)
  : Result Agent :=
  match fac with
  | Callable arity body =>
      if decide (arity = nargs) then
        match body a with
        | Produces ag => Ok ag
        | Fails e => Err e
        end
      else Err (TypeError "wrong number of positional arguments")
  | factory_wrapper agent_factory expected_class =>
      if decide (nargs = 0) then
        match factory_product agent_factory 0 a with
        | Ok ag =>
            if decide (agent_class ag ≠ expected_class)
            then Err (ValueError "Factory registered using the wrong type.")
            else Ok ag
        | Err e => Err e
        end
      else Err (TypeError "wrong number of positional arguments")
  end.

(** Whether the user callable at the core of a factory is reached and
    produces an object when the factory is called with [nargs]
    arguments (the object may still be rejected by a wrapper). *)
Fixpoint factory_creates (fac : AgentFactory) (nargs : nat) (a : AgentId)
  : bool :=
  match fac with
  | Callable arity body =>
      if decide (arity = nargs) then
        match body a with Produces _ => true | Fails _ => false end
      else false
  | factory_wrapper agent_factory _ =>
      if decide (nargs = 0) then factory_creates agent_factory 0 a else false
  end.

Definition deprecation_warning : string :=
  "Agent factories that take two arguments are deprecated. Use AgentInstantiationContext instead. Two arg factories will be removed in a future version.".

(** The outcome of [_invoke_agent_factory]. *)
Definition invoke_product (fac : AgentFactory) (a : AgentId) : Result Agent :=
  if decide (signature_parameters fac = 0) then factory_product fac 0 a
  else if decide (signature_parameters fac = 2) then factory_product fac 2 a
  else Err (ValueError "Agent factory must take 0 or 2 arguments.").

(** The events of a successful [_invoke_agent_factory] that creates
    the object numbered [uid]. *)
Definition invoke_events (fac : AgentFactory) (a : AgentId) (uid : nat)
  : list Event :=
  (if decide (signature_parameters fac = 2)
   then [EvWarn deprecation_warning] else [])
  ++ [EvFactoryCall a; EvAgentCreated uid a].

(** The agent [_get_agent a] gives in state [st]: the cached one, or
    the product of the factory bound to the type of [a]. *)
Definition resolve (st : Runtime) (a : AgentId) : Result Agent :=
  match _instantiated_agents st !! a with
  | Some i => Ok (instance_agent i)
  | None =>
      match _agent_factories st !! aid_type a with
      | None =>
          Err (LookupError
                 ("Agent with name " +:+ aid_type a +:+ " not found."))
      | Some fac => invoke_product fac a
      end
  end.

(** The state after [_get_agent a] created and cached instance [i]. *)
Definition cached (a : AgentId) (i : AgentInstance) (evs : list Event)
  (st : Runtime) : Runtime :=
  set_instantiated_agents (<[a := i]> (_instantiated_agents st))
    (set_trace (trace st ++ evs) (set_next_uid (S (next_uid st)) st)).

(** ** The life of a runtime

    What can happen to a runtime object between its construction and
    its end: calls of its public methods by user code, and turns of
    the dispatcher task granted by the event loop. *)
Inductive Op :=
| OpRegister (type : string) (agent_factory : AgentFactory)
    (subscriptions : option (list Subscription))
| OpRegisterFactory (type : AgentType) (agent_factory : AgentFactory)
    (expected_class : string)
| OpAddSubscription (subscription : Subscription)
| OpRemoveSubscription (id : string)
| OpNewToken
| OpCancel (tok : nat)
| OpSendMessage (message : PyVal) (recipient : AgentId)
    (sender : option AgentId) (cancellation_token : option nat)
| OpPublishMessage (message : PyVal) (topic_id : TopicId)
    (sender : option AgentId) (cancellation_token : option nat)
    (message_id : option string) (uuid4 : string)
| OpGetAgent (a : AgentId)
| OpProcessNext
| OpDispatcher (turns : nat)
| OpStart
| OpStop
| OpStopWhenIdle (fuel : nat)
| OpStopWhen (condition : Runtime -> bool) (polls : list nat).

(** [OpGetAgent] stands for every public method that reaches the cache
    through [_get_agent] ([agent_metadata], [agent_save_state],
    [agent_load_state], [get] with [lazy=False], [load_state],
    [try_get_underlying_agent_instance]); [OpProcessNext] is the
    deprecated [process_next].  A call that never returns leaves the
    state the dispatcher reached meanwhile. *)
Definition step (op : Op) (st : Runtime) : Runtime :=
  match op with
  | OpRegister type agent_factory subscriptions =>
      exec (register type agent_factory subscriptions) st
  | OpRegisterFactory type agent_factory expected_class =>
      exec (register_factory type agent_factory expected_class) st
  | OpAddSubscription subscription => exec (add_subscription subscription) st
  | OpRemoveSubscription id => exec (remove_subscription id) st
  | OpNewToken => exec CancellationToken_new st
  | OpCancel tok => exec (cancel tok) st
  | OpSendMessage message recipient sender cancellation_token =>
      exec (send_message message recipient sender cancellation_token) st
  | OpPublishMessage message topic_id sender cancellation_token message_id
      uuid4 =>
      exec (publish_message message topic_id sender cancellation_token
              message_id uuid4) st
  | OpGetAgent a => exec (_get_agent a) st
  | OpProcessNext =>
      match _process_next st with
      | Some (_, st') => st'
      | None => st
      end
  | OpDispatcher turns => run_dispatcher turns st
  | OpStart => exec start st
  | OpStop => exec stop st
  | OpStopWhenIdle fuel =>
      match stop_when_idle fuel st with
      | Some (_, st') => st'
      | None => run_dispatcher fuel st
      end
  | OpStopWhen condition polls =>
      match stop_when condition polls st with
      | Some (_, st') => st'
      | None => run_dispatcher (sum_list polls) st
      end
  end.

Definition run (ops : list Op) (st : Runtime) : Runtime :=
  foldl (fun st op => step op st) st ops.

(** Cached instances stay as they are. *)
Definition cache_kept (st st' : Runtime) : Prop :=
  ∀ a i, _instantiated_agents st !! a = Some i ->
         _instantiated_agents st' !! a = Some i.

(** A future that is done stays as it is. *)
Definition settled_kept (st st' : Runtime) : Prop :=
  ∀ f s, futures st !! f = Some s -> s ≠ FPending ->
         futures st' !! f = Some s.

(** An agent id that resolves goes on resolving to the same agent. *)
Definition resolve_kept (st st' : Runtime) : Prop :=
  ∀ a ag, resolve st a = Ok ag -> resolve st' a = Ok ag.

(** A relation on states that the elementary updates of the runtime
    respect: appending events, replacing the queue, numbering a new
    object, settling a pending future, binding a free type name,
    caching the agent an id resolves to. *)
Record respected (R : relation Runtime) : Prop := mkRespected {
  respects_trace : ∀ st evs, R st (set_trace (trace st ++ evs) st);
  respects_queue : ∀ st q, R st (set_message_queue q st);
  respects_uid : ∀ st n, R st (set_next_uid n st);
  respects_tokens : ∀ st ts, R st (set_tokens ts st);
  respects_subscriptions : ∀ st sm, R st (set_subscription_manager sm st);
  respects_run_context : ∀ st rc, R st (set_run_context rc st);
  respects_settle : ∀ st f s,
    futures st !! f = Some FPending ->
    R st (set_futures (<[f := s]> (futures st)) st);
  respects_create_future :
    ∀ st, R st (set_futures (futures st ++ [FPending]) st);
  respects_register : ∀ st ty fac,
    _agent_factories st !! ty = None ->
    R st (set_agent_factories (<[ty := fac]> (_agent_factories st)) st);
  respects_cache : ∀ st a i,
    _instantiated_agents st !! a = None ->
    resolve st a = Ok (instance_agent i) ->
    R st (set_instantiated_agents (<[a := i]> (_instantiated_agents st)) st)
}.



(** ** Publish delivery seen from outside *)

(** The recipients the subscription manager gives for a topic. *)
Definition subscribed_recipients (st : Runtime) (topic_id : TopicId)
  : list AgentId :=
  remove_dups
    ((fun s => map_to_agent s topic_id) <$>
     filter (fun s => is_match s topic_id = true) (_subscription_manager st)).

(** What resolving agents can change in a runtime: the cache, the
    object counter, and the trace. *)
Definition cache_update (ia : gmap AgentId AgentInstance) (n : nat)
  (evs : list Event) (st : Runtime) : Runtime :=
  set_instantiated_agents ia (set_trace (trace st ++ evs) (set_next_uid n st)).

(** Events that are neither a handler invocation nor queue accounting. *)
Definition quiet (ev : Event) : Prop :=
  is_on_message ev = false ∧ is_put ev = false ∧ is_task_done ev = false.

(** The invocations [gather] starts. *)
Definition on_message_events (message : PyVal)
  (responses : list OnMessageCoroutine) : list Event :=
  (fun c => EvOnMessage (co_agent_id c) message (co_message_context c))
  <$> responses.

(** The recipients of a publish that are not its sender. *)
Definition other_recipients (e : PublishMessageEnvelope)
  (recipients : list AgentId) : list AgentId :=
  filter (fun a => p_sender e ≠ Some a) recipients.

Definition publish_error_log : list Event :=
  [EvLogError "Error processing publish message"].

(** What [_process_publish] logs for an exception. *)
Definition publish_log (e : Exn) : list Event :=
  if decide (e = CancelledError) then [] else publish_error_log.

Definition coroutine_outcomes (message : PyVal)
  (responses : list OnMessageCoroutine) : list Outcome :=
  (fun c => on_message (instance_agent (co_agent c)) message
              (co_message_context c)) <$> responses.

(** The events of [_process_publish] between its loop and its
    [finally] clause. *)
Definition after_publish_loop (message : PyVal)
  (r : Result (list OnMessageCoroutine)) : list Event :=
  match r with
  | Ok responses =>
      on_message_events message responses ++
      match first_exception (coroutine_outcomes message responses) with
      | Some e => publish_log e
      | None => []
      end
  | Err e => publish_log e
  end.

(** A runtime with one registered type, ["b"], subscribed to every
    topic. *)
Definition subscriber_id : AgentId := mkAgentId "b" "default".

Definition subscriber_runtime : Runtime :=
  exec start
    (exec (register "b" echo_factory
             (Some [mkSubscription "sub-b" (fun _ => true)
                      (fun _ => subscriber_id)]))
       (Runtime_init None)).

(** A publish whose sender is an id of a type nobody registered. *)
Definition stranger_id : AgentId := mkAgentId "user" "default".

Definition stranger_published : Runtime :=
  exec (publish_message (VStr "x") (Topic "T") (Some stranger_id) None None
          "uuid")
    subscriber_runtime.

(** Two registered types, ["a"] and ["b"], both subscribed to every
    topic; a publish by the agent of type ["a"]. *)
Definition publisher_id : AgentId := mkAgentId "a" "default".

Definition fanout_runtime : Runtime :=
  exec start
    (exec (register "b" echo_factory
             (Some [mkSubscription "sub-b" (fun _ => true)
                      (fun _ => subscriber_id)]))
       (exec (register "a" echo_factory
                (Some [mkSubscription "sub-a" (fun _ => true)
                         (fun _ => publisher_id)]))
          (Runtime_init None))).

Definition fanout_envelope : PublishMessageEnvelope :=
  mkPublish (VStr "x") 0 (Some publisher_id) (Topic "T") "uuid".

Definition fanout_published : Runtime :=
  exec (publish_message (VStr "x") (Topic "T") (Some publisher_id) None None
          "uuid")
    fanout_runtime.

(** A send whose token is cancelled before the dispatcher runs. *)
Definition cancelled_sent : Runtime :=
  exec (cancel 0)
    (exec (send_message (VStr "hi") echo_id None (Some 0))
       (exec CancellationToken_new (echo_runtime None))).

(** The state after the [put] of [send_message]. *)
Definition send_enqueued (e : SendMessageEnvelope) (st : Runtime) : Runtime :=
  set_trace (trace st ++ [EvPut (ESend e)])
    (set_message_queue
       (mkQueue (q_items (_message_queue st) ++ [ESend e])
          (S (_unfinished_tasks (_message_queue st))) false)
       (set_futures (futures st ++ [FPending]) st)).

(** The trace only grows. *)
Definition trace_extends (st st' : Runtime) : Prop :=
  ∃ evs, trace st' = trace st ++ evs.

(** ** Send delivery seen from outside *)

(** What the delivery task of envelope [e] may change, besides the
    cache and the trace: it settles no future but the one of [e], it
    puts at most envelopes that carry the handle of [e], and it marks
    at most one item done. *)
Definition delivered (e : Envelope) (st st' : Runtime) : Prop :=
  _intervention_handlers st' = _intervention_handlers st ∧
  _run_context st' = _run_context st ∧
  _is_shutdown (_message_queue st') = _is_shutdown (_message_queue st) ∧
  (∀ f, envelope_future e ≠ Some f -> futures st' !! f = futures st !! f) ∧
  ∃ new d,
    q_items (_message_queue st') = q_items (_message_queue st) ++ new ∧
    _unfinished_tasks (_message_queue st') + d
    = _unfinished_tasks (_message_queue st) + length new ∧
    (d ≤ 1)%nat ∧
    Forall (fun e' => envelope_future e' = envelope_future e) new.

(** The queue of a runtime whose accounting is sound: no more items
    than outstanding tasks, and every handle in it is allocated. *)
Definition queue_wf (st : Runtime) : Prop :=
  (length (q_items (_message_queue st))
   ≤ _unfinished_tasks (_message_queue st))%nat ∧
  Forall (fun e => ∀ f, envelope_future e = Some f -> (f < length (futures st))%nat)
    (q_items (_message_queue st)).


(** The envelopes that do not carry the handle [f]. *)
Definition foreign (f : nat) (es : list Envelope) : Prop :=
  Forall (fun e => envelope_future e ≠ Some f) es.

(** S1: the echo send. *)
Definition echo_sent : Runtime :=
  exec (send_message (VStr "hi") echo_id None None) (echo_runtime None).

(** ** Further members of the module *)

(** The property [unprocessed_messages_count]. *)
Definition unprocessed_messages_count (st : Runtime) : nat :=
  qsize (_message_queue st).

(** The property [_known_agent_names]: [set(self._agent_factories.keys())]. *)
Definition _known_agent_names (st : Runtime) : gset string :=
  dom (_agent_factories st).

(** [process_next], the deprecated public name of [_process_next]. *)
Definition process_next (st : Runtime) : option (Result unit * Runtime) :=
  _process_next st.

(** A class object as [try_get_underlying_agent_instance] uses one:
    its [__name__], and the objects [isinstance] accepts for it. *)
Record PyClass := mkClass {
  cls_name : string;
  isinstance : Agent -> bool
}.

Definition try_get_underlying_agent_instance (id : AgentId) (type : PyClass)
  : M AgentInstance :=
  let* st := get_state in
  if decide (_agent_factories st !! aid_type id = None) then
    throw (LookupError ("Agent with name " +:+ aid_type id +:+ " not found."))
  else
    let* agent_instance := _get_agent id in
    if isinstance type (instance_agent agent_instance) then pure agent_instance
    else
      throw (TypeError
               ("Agent with name " +:+ aid_type id +:+ " is not of type " +:+
                cls_name type +:+ ". It is of type " +:+
                agent_class (instance_agent agent_instance))).

(** ** The class [Counter]

    [threadLock] is a [threading.Lock]: [acquire] on a lock that is
    held never returns (the caller is the only thread there is). *)
Module Counter.

Record t := mk {
  _count : Z;
  threadLock : bool
}.

(** [Counter.__init__] *)
Definition __init__ : t := mk 0 false.

Definition acquire (c : t) : option t :=
  if threadLock c then None else Some (mk (_count c) true).

Definition release (c : t) : t := mk (_count c) false.

Definition increment (c : t) : option t :=
  c1 ← acquire c;
  Some (release (mk (_count c1 + 1) (threadLock c1))).

Definition get (c : t) : Z := _count c.

Definition decrement (c : t) : option t :=
  c1 ← acquire c;
  Some (release (mk (_count c1 - 1) (threadLock c1))).

Inductive Call := Increment | Decrement.

#[global] Instance Call_eq_dec : EqDecision Call.
Proof. solve_decision. Defined.

Definition call (op : Call) (c : t) : option t :=
  match op with
  | Increment => increment c
  | Decrement => decrement c
  end.

(** A sequence of calls on one counter, in order. *)
Definition calls (ops : list Call) (c : t) : option t :=
  foldl (fun oc op => oc ≫= call op) (Some c) ops.

Definition count (op : Call) (ops : list Call) : nat :=
  length (filter (fun o => o = op) ops).

End Counter.

(** ** Observations used in the statements below *)

(** What the delivery of a Send ends with in state [st]: the value the
    recipient's handler returns, the exception it raises, or the
    exception of the recipient's instantiation. *)
Definition send_outcome (st : Runtime) (env : SendMessageEnvelope)
  : Result PyVal :=
  match resolve st (s_recipient env) with
  | Ok ag =>
      match on_message ag (s_message env)
              (send_context (s_sender env) (s_cancellation_token env)) with
      | Returns r => Ok r
      | Raises e => Err e
      end
  | Err e => Err e
  end.

(** A registered type stays bound to the factory it was registered
    with. *)
Definition factories_kept (st st' : Runtime) : Prop :=
  ∀ ty fac, _agent_factories st !! ty = Some fac ->
            _agent_factories st' !! ty = Some fac.

(** Every cached instance is what the factory registered for its type
    produces for its id. *)
Definition cache_from_factories (st : Runtime) : Prop :=
  ∀ a i, _instantiated_agents st !! a = Some i ->
         ∃ fac, _agent_factories st !! aid_type a = Some fac ∧
                invoke_product fac a = Ok (instance_agent i).

(** Resolution gives the same answer for every id. *)
Definition resolve_same (st st' : Runtime) : Prop :=
  ∀ a, resolve st' a = resolve st a.

(** The queue is the same object in the same state. *)
Definition queue_same (st st' : Runtime) : Prop :=
  _message_queue st' = _message_queue st.

(** No future is removed from the store. *)
Definition futures_grow (st st' : Runtime) : Prop :=
  (length (futures st) ≤ length (futures st'))%nat.

(** What one call or one dispatcher turn may do to the queue whose
    head [e] it has taken: append envelopes that carry the handle of
    [e], and mark at most one item done. *)
Definition queue_step (e : Envelope) (st st' : Runtime) : Prop :=
  _is_shutdown (_message_queue st') = _is_shutdown (_message_queue st) ∧
  ∃ new d,
    q_items (_message_queue st') = q_items (_message_queue st) ++ new ∧
    _unfinished_tasks (_message_queue st') + d
    = _unfinished_tasks (_message_queue st) + length new ∧
    (d ≤ 1)%nat ∧
    Forall (fun e' => envelope_future e' = envelope_future e) new.

(** The turns the dispatcher needs for a queue: two for a Send (the
    send, then its reply), one for every other envelope. *)
Definition turns (es : list Envelope) : nat :=
  sum_list ((fun e => match e with ESend _ => 2 | _ => 1 end) <$> es).

(** A started runtime without intervention handlers, with a live
    dispatcher, nothing in flight, and whose queued Sends all reach a
    handler that returns. *)
Definition settles (st : Runtime) : Prop :=
  _intervention_handlers st = None ∧
  _run_context st = Some (mkRunContext false TaskPending) ∧
  _is_shutdown (_message_queue st) = false ∧
  _unfinished_tasks (_message_queue st)
  = length (q_items (_message_queue st)) ∧
  Forall (fun e => match e with
                   | ESend env => ∃ r, send_outcome st env = Ok r
                   | _ => True
                   end)
    (q_items (_message_queue st)).

(** What [_process_next] does when the hook of a handler raises [ex]
    for envelope [e]. *)
Definition settle_raised (e : Envelope) (ex : Exn) : M unit :=
  match e with
  | ESend env => Future_set_exception (s_future env) ex
  | EPublish _ =>
      emit (EvLogErrorWith "Exception raised in in intervention handler" ex)
  | EResponse env => Future_set_exception (r_future env) ex
  end.

(** The state a runtime is left in by [stop]: no run context, and a
    new queue. *)
Definition stopped (st : Runtime) : Runtime :=
  set_message_queue Queue_new (set_run_context None st).

(** Events that are not queue accounting. *)
Definition unaccounted (ev : Event) : Prop :=
  is_put ev = false ∧ is_task_done ev = false.

(** The balance of the queue's accounting between two states: what
    was outstanding or put since is outstanding still or was marked
    done. *)
Definition balanced (st st' : Runtime) : Prop :=
  _unfinished_tasks (_message_queue st') + count_task_done (trace st')
  + count_put (trace st)
  = _unfinished_tasks (_message_queue st) + count_task_done (trace st)
    + count_put (trace st').

Definition not_a_send (e : Envelope) : Prop :=
  match e with ESend _ => False | _ => True end.

(** A started runtime without intervention handlers, with a live
    dispatcher, in which the handle [f] is pending. *)
Definition pending (f : nat) (st : Runtime) : Prop :=
  _intervention_handlers st = None ∧
  _run_context st = Some (mkRunContext false TaskPending) ∧
  _is_shutdown (_message_queue st) = false ∧
  (length (q_items (_message_queue st))
   ≤ _unfinished_tasks (_message_queue st))%nat ∧
  futures st !! f = Some FPending.

(** "If every cached instance comes from its factory before, it does
    so afterwards." *)
Definition keeps_cache_from_factories (st st' : Runtime) : Prop :=
  cache_from_factories st -> cache_from_factories st'.

(** A started runtime without intervention handlers whose dispatcher
    is alive and in which [a] resolves to [ag]. *)
Definition serving (a : AgentId) (ag : Agent) (st : Runtime) : Prop :=
  _intervention_handlers st = None ∧
  _run_context st = Some (mkRunContext false TaskPending) ∧
  _is_shutdown (_message_queue st) = false ∧
  (length (q_items (_message_queue st))
   ≤ _unfinished_tasks (_message_queue st))%nat ∧
  resolve st a = Ok ag.


(** ** Further scenarios *)

(** A send to an id of a type nobody registered. *)
Definition unknown_sent : Runtime :=
  exec (send_message (VStr "hi") stranger_id None None) (echo_runtime None).

Definition unknown_envelope : SendMessageEnvelope :=
  mkSend (VStr "hi") None stranger_id 0 0.

(** The same with a handler that drops every Send. *)
Definition drop_unknown_sent : Runtime :=
  exec (send_message (VStr "hi") stranger_id None None) drop_runtime.

(** A handler whose [on_send] returns [None]. *)
Definition none_handler : InterventionHandler :=
  mkInterventionHandler "N"
    (fun _ _ _ => Returns VNone)
    (fun m _ => Returns m)
    (fun m _ _ => Returns m).

Definition none_sent : Runtime :=
  exec (send_message (VStr "hi") echo_id None None)
    (echo_runtime (Some [none_handler])).

(** A handler whose hooks raise. *)
Definition raising_handler : InterventionHandler :=
  mkInterventionHandler "R"
    (fun _ _ _ => Raises (Exception "boom"))
    (fun _ _ => Raises (Exception "boom"))
    (fun _ _ _ => Raises (Exception "boom")).

Definition raising_sent : Runtime :=
  exec (send_message (VStr "hi") echo_id None None)
    (echo_runtime (Some [raising_handler])).

Definition echo_envelope : SendMessageEnvelope :=
  mkSend (VStr "hi") None echo_id 0 0.

(** An agent whose handler raises, registered as ["failing"]. *)
Definition failing_agent : Agent :=
  mkAgent "Failing" (fun _ _ => Raises (Exception "boom")).

Definition failing_id : AgentId := mkAgentId "failing" "default".

Definition failing_factory : AgentFactory :=
  Callable 0 (fun _ => Produces failing_agent).

Definition failing_runtime : Runtime :=
  exec start
    (exec (register "failing" (Callable 0 (fun _ => Produces failing_agent))
             None)
       (Runtime_init None)).

(** A class no agent is an instance of. *)
Definition Other : PyClass := mkClass "Other" (fun _ => false).


(** A publish by the only subscriber, and a publish by an id of an
    unregistered type on a runtime without subscriptions. *)
Definition self_published : Runtime :=
  exec (publish_message (VStr "x") (Topic "T") (Some subscriber_id) None None
          "uuid")
    subscriber_runtime.

Definition unheard_published : Runtime :=
  exec (publish_message (VStr "x") (Topic "T") (Some stranger_id) None None
          "uuid")
    (echo_runtime None).

(** ** A delivery in flight

    [asyncio.create_task] schedules [_process_send]; the task starts
    when the dispatcher yields, and while the handler of the recipient
    is awaited it stays suspended inside [_process_send]: other
    callers of the runtime run meanwhile.  The definitions below are
    the two halves of [_process_send], before and after that point. *)

(** The [except] clauses of [_process_send]. *)
Definition _process_send_except (message_envelope : SendMessageEnvelope)
  (e : Exn) : M unit :=
  if decide (e = CancelledError) then
    let* cancelled := Future_cancelled (s_future message_envelope) in
    (if cancelled then pure tt
     else Future_set_exception (s_future message_envelope) e) ;;
    Queue_task_done
  else
    Future_set_exception (s_future message_envelope) e ;;
    Queue_task_done.

(** [_process_send] from its start to the call of the handler.
    [Some o]: the recipient is resolved and its handler has been
    called, [o] being what the call gives when it returns; [None]:
    [_get_agent] raised and the task has ended in the [except]
    clause. *)
Definition _process_send_call (message_envelope : SendMessageEnvelope)
  : M (option Outcome) :=
  let recipient := s_recipient message_envelope in
  let* recipient_agent :=
    try_except
      (let* recipient_agent := _get_agent recipient in
       pure (Some recipient_agent))
      (fun e => _process_send_except message_envelope e ;; pure None) in
  match recipient_agent with
  | None => pure None
  | Some recipient_agent =>
      let message_context :=
        mkMessageContext (s_sender message_envelope) None true
          (s_cancellation_token message_envelope) "NOT_DEFINED_TODO_FIX" in
      emit (EvOnMessage recipient (s_message message_envelope) message_context) ;;
      pure (Some (on_message (instance_agent recipient_agent)
                    (s_message message_envelope) message_context))
  end.

(** [_process_send] from the return of the handler to its end: the
    reply goes to [self._message_queue], the queue the runtime has at
    that moment. *)
Definition _process_send_return (message_envelope : SendMessageEnvelope)
  (o : Outcome) : M unit :=
  match o with
  | Raises e => _process_send_except message_envelope e
  | Returns response =>
      Queue_put (EResponse (mkResponse response (s_future message_envelope)
                              (s_recipient message_envelope)
                              (s_sender message_envelope))) ;;
      Queue_task_done
  end.




(** ** Two lookups of one id that overlap

    [_get_agent] awaits the factory between the test of the cache and
    the store: while the factory of one call is awaited, a second call
    for the same id can test the cache.  The definitions below are the
    two halves of [_get_agent], before and after the [await]. *)

(** [_get_agent] up to its [await]: the test of the cache and the
    lookup of the factory.  [inl agent]: the id is cached; [inr
    agent_factory]: the factory whose call is awaited next. *)
Definition _get_agent_lookup (agent_id : AgentId)
  : M (AgentInstance + AgentFactory) :=
  let* st := get_state in
  match _instantiated_agents st !! agent_id with
  | Some agent => pure (inl agent)
  | None =>
      match _agent_factories st !! aid_type agent_id with
      | None =>
          throw (LookupError
                   ("Agent with name " +:+ aid_type agent_id +:+ " not found."))
      | Some agent_factory => pure (inr agent_factory)
      end
  end.

(** [_get_agent] from the return of the factory: the store. *)
Definition _get_agent_store (agent_id : AgentId) (agent : AgentInstance)
  : M AgentInstance :=
  modify (fun st =>
    set_instantiated_agents
      (<[agent_id := agent]> (_instantiated_agents st)) st) ;;
  pure agent.

(** * LLM speaker selection

    A shallow embedding of
    [autogen/experimental/speaker_selections/llm_speaker_selection.py]:
    the count of agent mentions in a model response, and the selection
    of the next speaker from a text or a JSON response.

    A string is the sequence of its code points, all below 256.  The
    one regular expression of the module is matched by a function
    written for its shape; [json.loads], the conversion of the chat
    history and the model client are parameters.  A formatted string
    is given by its template and the values formatted into it. *)
Module SpeakerSelection.

(** ** Strings *)

Definition between (lo hi n : nat) : bool := Nat.leb lo n && Nat.leb n hi.

(** [str.isalnum] on one code point below 256: the ASCII digits and
    letters, and the letters and numbers of Latin-1. *)
Definition isalnum (c : Ascii.ascii) : bool :=
  let n := Ascii.nat_of_ascii c in
  between 48 57 n || between 65 90 n || between 97 122 n
  || Nat.eqb n 170 || between 178 179 n || Nat.eqb n 181
  || between 185 186 n || between 188 190 n
  || between 192 214 n || between 216 246 n || between 248 255 n.

(** The class [\w] of [re] for a [str] pattern; [\W] is its complement. *)
Definition underscore : Ascii.ascii := Ascii.ascii_of_nat 95.

Definition is_word (c : Ascii.ascii) : bool :=
  isalnum c || Ascii.eqb c underscore.

(** [s.startswith(prefix)], with what follows the prefix in [s]. *)
Fixpoint startswith (prefix s : string) : option string :=
  match prefix with
  | EmptyString => Some s
  | String a prefix' =>
      match s with
      | String b s' => if Ascii.eqb a b then startswith prefix' s' else None
      | EmptyString => None
      end
  end.

(** [old in s] for strings. *)
Fixpoint contains (old s : string) : bool :=
  match startswith old s with
  | Some _ => true
  | None =>
      match s with
      | String _ s' => contains old s'
      | EmptyString => false
      end
  end.

(** [s.replace(old, new)] for a one-character [old]. *)
Fixpoint replace (old : Ascii.ascii) (new s : string) : string :=
  match s with
  | EmptyString => EmptyString
  | String c s' =>
      if Ascii.eqb c old then new +:+ replace old new s'
      else String c (replace old new s')
  end.

Definition newline : string := String (Ascii.ascii_of_nat 10) EmptyString.

(** [sep.join(l)] *)
Fixpoint join (sep : string) (l : list string) : string :=
  match l with
  | [] => EmptyString
  | [s] => s
  | s :: rest => s +:+ sep +:+ join sep rest
  end.

(** ** The regular expression

    [(?<=\W)(A|B|C)(?=\W)], where [A], [B] and [C] are escaped
    literals: at a position preceded by a non-word character, the
    first alternative that is followed by a non-word character
    matches. *)

(** [(?<=\W)] at a position whose preceding character is [prev]
    ([None] at the start of the text). *)
Definition lookbehind (prev : option Ascii.ascii) : bool :=
  match prev with
  | Some c => negb (is_word c)
  | None => false
  end.

(** [(?=\W)] at the position where [s] starts. *)
Definition lookahead (s : string) : bool :=
  match s with
  | String c _ => negb (is_word c)
  | EmptyString => false
  end.

(** The group and the lookahead at the position where [s] starts: the
    length of the match. *)
Fixpoint match_group (alternatives : list string) (s : string) : option nat :=
  match alternatives with
  | [] => None
  | literal :: rest =>
      match startswith literal s with
      | Some s' =>
          if lookahead s' then Some (String.length literal)
          else match_group rest s
      | None => match_group rest s
      end
  end.

(** [len(re.findall(regex, text))]: the scan goes from left to right;
    [skip] is what is left of the match in progress, whose characters
    start no other match.  (The alternatives of one pattern are all
    empty or all non-empty, so an empty match is followed by no other
    match at its position.) *)
Fixpoint findall (alternatives : list string) (prev : option Ascii.ascii)
  (skip : nat) (s : string) : nat :=
  match s with
  | EmptyString => 0
  | String c s' =>
      match skip with
      | S skip' => findall alternatives (Some c) skip' s'
      | 0 =>
          if lookbehind prev then
            match match_group alternatives s with
            | Some n => S (findall alternatives (Some c) (pred n) s')
            | None => findall alternatives (Some c) 0 s'
            end
          else findall alternatives (Some c) 0 s'
      end
  end.

(** [literal] stands in [text] between two non-word characters. *)
Definition delimited (literal text : string) : Prop :=
  ∃ pre b a post,
    text = pre +:+ String b (literal +:+ String a post) ∧
    is_word b = false ∧ is_word a = false.

(** The pattern matches somewhere in [s], not before [skip]
    characters; [prev] is the character before [s]. *)
Inductive match_at (alternatives : list string)
  : option Ascii.ascii -> nat -> string -> Prop :=
| match_here prev s :
    lookbehind prev = true ->
    is_Some (match_group alternatives s) ->
    match_at alternatives prev 0 s
| match_later prev skip c s :
    match_at alternatives (Some c) (pred skip) s ->
    match_at alternatives prev skip (String c s).

(** ** Agents and mentions *)

Record Agent := mkAgent {
  name : string;
  description : string
}.

(** The three literals of the pattern for an agent name: the name, the
    name with underscores as spaces, the name with underscores
    escaped. *)
Definition alternatives (agent_name : string) : list string :=
  [agent_name; replace underscore " " agent_name;
   replace underscore "\_" agent_name].

(** [mentions[key] = value] on a [dict], kept in insertion order. *)
Fixpoint dict_set (key : string) (value : nat) (d : list (string * nat))
  : list (string * nat) :=
  match d with
  | [] => [(key, value)]
  | (k, v) :: rest =>
      if decide (k = key) then (k, value) :: rest
      else (k, v) :: dict_set key value rest
  end.

(** The loop of [_mentioned_agents]. *)
Fixpoint mentions_loop (message_content : string) (agents : list Agent)
  (mentions : list (string * nat)) : list (string * nat) :=
  match agents with
  | [] => mentions
  | agent :: rest =>
      let count :=
        findall (alternatives (name agent)) None 0
          (" " +:+ message_content +:+ " ") in
      mentions_loop message_content rest
        (if decide (0 < count)%nat then dict_set (name agent) count mentions
         else mentions)
  end.

Definition _mentioned_agents (message_content : string) (agents : list Agent)
  : list (string * nat) :=
  mentions_loop message_content agents [].

(** The name of an agent, or the name with its underscores as spaces
    or escaped, stands in the padded message between two non-word
    characters. *)
Definition mentioned (message_content agent_name : string) : Prop :=
  ∃ literal,
    literal ∈ alternatives agent_name ∧
    delimited literal (" " +:+ message_content +:+ " ").

(** ** JSON values, as [json.loads] returns them *)

#[warnings="-register-all"]
Inductive JSON :=
| JNone
| JBool (b : bool)
| JNumber (literal : string)
| JStr (s : string)
| JList (l : list JSON)
| JDict (d : gmap string JSON).

(** ** Exceptions *)

(** The messages the module formats. *)
Inductive Message :=
| ExpectedOneMention (len_mentions : nat)
| AgentNotFound (agent_name : JSON)
| ExpectedNextRole
| NotIterable
| BadIndex.

Inductive Exn :=
| ValueError (msg : Message)
| TypeError (msg : Message)
| AssertionError
| KeyError (key : string)
| RuntimeError (msg : string)
| Other (e : string).

Inductive Outcome (A : Type) :=
| Returns (a : A)
| Raises (e : Exn).
Arguments Returns {A} a.
Arguments Raises {A} e.

(** [key not in json_obj] *)
Definition not_in (key : string) (json_obj : JSON) : Outcome bool :=
  match json_obj with
  | JDict d => Returns (bool_decide (d !! key = None))
  | JList l =>
      Returns (negb (existsb (fun x => match x with
                                       | JStr s => String.eqb s key
                                       | _ => false
                                       end) l))
  | JStr s => Returns (negb (contains key s))
  | JNone | JBool _ | JNumber _ => Raises (TypeError NotIterable)
  end.

(** [json_obj[key]] for a key that passed the test above. *)
Definition getitem (json_obj : JSON) (key : string) : Outcome JSON :=
  match json_obj with
  | JDict d =>
      match d !! key with
      | Some v => Returns v
      | None => Raises (KeyError key)
      end
  | _ => Raises (TypeError BadIndex)
  end.

(** [json_obj.get(key, None)]; only a [dict] comes this far. *)
Definition get (json_obj : JSON) (key : string) : JSON :=
  match json_obj with
  | JDict d => default JNone (d !! key)
  | _ => JNone
  end.

(** ** Prompts *)

Inductive Prompt :=
| select_speaker_message_template (roles : string) (agent_list : list string)
| select_speaker_prompt_template (agent_list : list string)
| select_speaker_json_prompt_template (agent_list : list string).

(** What a model response carries: a [str], or a list of function
    calls. *)
Inductive Content :=
| Text (s : string)
| FunctionCalls.

Section Selection.

(** The chat messages and the messages of the model client, with the
    conversion between them; [json.loads]. *)
Context {ChatMessage LLMMessage : Type}.
Variable SystemMessage : Prompt -> LLMMessage.
Variable convert_messages_to_llm_messages :
  list ChatMessage -> string -> list LLMMessage.
Variable json_loads : string -> Outcome JSON.

(** The model client: its capabilities and the outcome of one call of
    [create]. *)
Record ModelClient := mkModelClient {
  capabilities : gmap string bool;
  create : list LLMMessage -> bool -> Outcome Content
}.

(** [for agent in agents: if agent.name == agent_name: return agent]:
    the first agent of that name; a name is equal to no JSON value
    other than a string. *)
Fixpoint find_agent (agents : list Agent) (agent_name : JSON) : option Agent :=
  match agents with
  | [] => None
  | agent :: rest =>
      match agent_name with
      | JStr s => if decide (name agent = s) then Some agent
                  else find_agent rest agent_name
      | _ => find_agent rest agent_name
      end
  end.

Definition roles (agents : list Agent) : string :=
  join newline ((fun x => name x +:+ ": " +:+ description x) <$> agents).

(** The messages [_select_text] and [_select_json] send. *)
Definition text_messages (agents : list Agent) (chat_history : list ChatMessage)
  : list LLMMessage :=
  [SystemMessage (select_speaker_message_template (roles agents)
                    (name <$> agents))]
  ++ convert_messages_to_llm_messages chat_history "speaker_selection"
  ++ [SystemMessage (select_speaker_prompt_template (name <$> agents))].

Definition json_messages (agents : list Agent) (chat_history : list ChatMessage)
  : list LLMMessage :=
  [SystemMessage (select_speaker_message_template (roles agents)
                    (name <$> agents))]
  ++ convert_messages_to_llm_messages chat_history "speaker_selection"
  ++ [SystemMessage (select_speaker_json_prompt_template (name <$> agents))].

(** [next(iter(mentions))] on an empty [dict] raises [StopIteration],
    which a coroutine turns into [RuntimeError]. *)
Definition _select_text (_model_client : ModelClient) (agents : list Agent)
  (chat_history : list ChatMessage) : Outcome (Agent * option string) :=
  let agent_list := name <$> agents in
  let messages :=
    [SystemMessage (select_speaker_message_template (roles agents) agent_list)]
    ++ convert_messages_to_llm_messages chat_history "speaker_selection"
    ++ [SystemMessage (select_speaker_prompt_template agent_list)] in
  match create _model_client messages false with
  | Raises e => Raises e
  | Returns FunctionCalls => Raises AssertionError
  | Returns (Text content) =>
      let mentions := _mentioned_agents content agents in
      if decide (length mentions ≠ 1) then
        Raises (ValueError (ExpectedOneMention (length mentions)))
      else
        match mentions with
        | (agent_name, _) :: _ =>
            match find_agent agents (JStr agent_name) with
            | Some agent => Returns (agent, None)
            | None => Raises (ValueError (AgentNotFound (JStr agent_name)))
            end
        | [] => Raises (RuntimeError "coroutine raised StopIteration")
        end
  end.

Definition _select_json (_model_client : ModelClient) (agents : list Agent)
  (chat_history : list ChatMessage) : Outcome (Agent * option string) :=
  let agent_list := name <$> agents in
  let messages :=
    [SystemMessage (select_speaker_message_template (roles agents) agent_list)]
    ++ convert_messages_to_llm_messages chat_history "speaker_selection"
    ++ [SystemMessage (select_speaker_json_prompt_template agent_list)] in
  match create _model_client messages true with
  | Raises e => Raises e
  | Returns FunctionCalls => Raises AssertionError
  | Returns (Text content) =>
      match json_loads content with
      | Raises e => Raises e
      | Returns json_obj =>
          match not_in "next_role" json_obj with
          | Raises e => Raises e
          | Returns true => Raises (ValueError ExpectedNextRole)
          | Returns false =>
              match getitem json_obj "next_role" with
              | Raises e => Raises e
              | Returns agent_name =>
                  match get json_obj "reason" with
                  | JStr reason =>
                      match find_agent agents agent_name with
                      | Some agent => Returns (agent, Some reason)
                      | None => Raises (ValueError (AgentNotFound agent_name))
                      end
                  | _ => Raises AssertionError
                  end
              end
          end
      end
  end.

Definition select_speaker (_model_client : ModelClient) (agents : list Agent)
  (chat_history : list ChatMessage) : Outcome (Agent * option string) :=
  match capabilities _model_client !! "json_output" with
  | None => Raises (KeyError "json_output")
  | Some true => _select_json _model_client agents chat_history
  | Some false => _select_text _model_client agents chat_history
  end.

End Selection.

End SpeakerSelection.

(** ** A conversation of two *)

Definition alice : SpeakerSelection.Agent :=
  SpeakerSelection.mkAgent "alice" "the first speaker".

Definition bob_2 : SpeakerSelection.Agent :=
  SpeakerSelection.mkAgent "bob_2" "the second speaker".

(** A client without JSON output that always gives the same answer. *)
Definition text_client (answer : string)
  : SpeakerSelection.ModelClient (LLMMessage := SpeakerSelection.Prompt) :=
  SpeakerSelection.mkModelClient {[ "json_output" := false ]}
    (fun _ _ => SpeakerSelection.Returns (SpeakerSelection.Text answer)).

Definition json_client (answer : string)
  : SpeakerSelection.ModelClient (LLMMessage := SpeakerSelection.Prompt) :=
  SpeakerSelection.mkModelClient {[ "json_output" := true ]}
    (fun _ _ => SpeakerSelection.Returns (SpeakerSelection.Text answer)).

Definition no_history (messages : list unit) (name : string)
  : list SpeakerSelection.Prompt := [].

(** A decoder that knows two documents. *)
Definition loads (s : string)
  : SpeakerSelection.Outcome SpeakerSelection.JSON :=
  if String.eqb s "full" then
    SpeakerSelection.Returns
      (SpeakerSelection.JDict
         {[ "next_role" := SpeakerSelection.JStr "alice";
            "reason" := SpeakerSelection.JStr "her turn" ]})
  else if String.eqb s "short" then
    SpeakerSelection.Returns
      (SpeakerSelection.JDict
         {[ "next_role" := SpeakerSelection.JStr "alice" ]})
  else SpeakerSelection.Raises (SpeakerSelection.Other "JSONDecodeError").

(** * Verification *)

(** ** Lifecycle *)

(** C8: [start] on a runtime whose run context is set raises, and
    [stop], [stop_when_idle], [stop_when] on a runtime whose run
    context is not set raise; the guard is the first statement of each
    method, so the call fails at once and leaves the runtime state as
    it was. *)
Theorem lifecycle_misuse_raises (st : Runtime) :
  match _run_context st with
  | Some _ =>
      start st = (Err (RuntimeError "Runtime is already started"), st)
  | None =>
      stop st = (Err (RuntimeError "Runtime is not started"), st) ∧
      (∀ fuel,
         stop_when_idle fuel st
         = Some (Err (RuntimeError "Runtime is not started"), st)) ∧
      (∀ condition polls,
         stop_when condition polls st
         = Some (Err (RuntimeError "Runtime is not started"), st))
  end.
Proof.
  destruct (_run_context st) as [rc|] eqn:Hrc.
  - unfold start, bind, get_state. by rewrite Hrc.
  - split; [|split].
    + unfold stop, bind, get_state. by rewrite Hrc.
    + intros fuel. unfold stop_when_idle. by rewrite Hrc.
    + intros condition polls. unfold stop_when. by rewrite Hrc.
Qed.

(** A second [start] is rejected and a started runtime can be
    stopped: the guards of C8 are the only thing that tells the two
    states apart. *)
Example double_start_rejected :
  fst (start (exec start (Runtime_init None)))
  = Err (RuntimeError "Runtime is already started").
Proof. reflexivity. Qed.

(** ** Proof tools *)

Ltac munfold :=
  unfold bind, pure, throw, emit, modify, get_state, try_except, try_finally,
    Future_set_exception, Future_set_result, Future_cancelled, _warn_if_none
    in *.

Lemma set_trace_nil st : set_trace (trace st ++ []) st = st.
Proof. destruct st; simpl. by rewrite app_nil_r. Qed.

Lemma set_trace_set_trace t t' st :
  set_trace t (set_trace t' st) = set_trace t st.
Proof. by destruct st. Qed.

Lemma run_dispatcher_waits st n :
  _run_iteration st = None -> run_dispatcher n st = st.
Proof. intros H. destruct n; simpl; [done|]. by rewrite H. Qed.

Lemma bind_inv {A B} (c : M A) (k : A -> M B) st r st' :
  bind c k st = (r, st') ->
  (∃ a st1, c st = (Ok a, st1) ∧ k a st1 = (r, st')) ∨
  (∃ e, c st = (Err e, st') ∧ r = Err e).
Proof.
  unfold bind. destruct (c st) as [[a|e] st1]; intros H.
  - left. by exists a, st1.
  - right. exists e. by simplify_eq.
Qed.

(** ** The intervention pipeline *)

Lemma intervened_message_cons h h' pre e :
  intervened_message (h :: h' :: pre) e = intervened_message (h' :: pre) e.
Proof. reflexivity. Qed.

Lemma s_after_cons h pre env0 env v :
  intervene h (ESend env0) = Returns v ->
  s_after pre env0 (s_set_message v env) = s_after (h :: pre) env0 env.
Proof.
  intros Hv. destruct pre as [|h' pre']; unfold s_after.
  - unfold intervened_message. simpl in *. by rewrite Hv.
  - by rewrite intervened_message_cons.
Qed.

Lemma p_after_cons h pre env0 env v :
  intervene h (EPublish env0) = Returns v ->
  p_after pre env0 (p_set_message v env) = p_after (h :: pre) env0 env.
Proof.
  intros Hv. destruct pre as [|h' pre']; unfold p_after.
  - unfold intervened_message. simpl in *. by rewrite Hv.
  - by rewrite intervened_message_cons.
Qed.

Lemma r_after_cons h pre env0 env v :
  intervene h (EResponse env0) = Returns v ->
  r_after pre env0 (r_set_message v env) = r_after (h :: pre) env0 env.
Proof.
  intros Hv. destruct pre as [|h' pre']; unfold r_after.
  - unfold intervened_message. simpl in *. by rewrite Hv.
  - by rewrite intervened_message_cons.
Qed.

(** One turn of a handler loop whose hook passes the message on. *)
Ltac pipeline_step IH Hv Hd after_cons :=
  let Hv' := fresh in
  pose proof Hv as Hv'; simpl in Hv'; simpl; munfold; simpl;
  rewrite Hv'; simpl; rewrite Hd;
  match goal with
  | |- context [decide (?v = VNone)] =>
      destruct (decide (v = VNone)) as [->|?]; simpl;
      (rewrite IH by done; f_equal;
       [ by apply after_cons
       | simpl; rewrite !set_trace_set_trace; f_equal;
         rewrite <- !app_assoc; simpl; try (destruct v; done); done ])
  end.

(** While the handlers pass the message on, the loop calls each of
    them on the message bound by the [case] pattern and stores what it
    returns in the envelope. *)
Lemma intercept_send_app env0 pre rest : forall env st,
  Forall (fun h => passes (intervene h (ESend env0))) pre ->
  intercept_send (pre ++ rest) (s_message env0) (s_sender env0)
    (s_recipient env0) (s_future env0) env st
  = intercept_send rest (s_message env0) (s_sender env0) (s_recipient env0)
      (s_future env0) (s_after pre env0 env)
      (set_trace (trace st ++ intervention_events pre (ESend env0)) st).
Proof.
  induction pre as [|h pre IH]; intros env st Hp.
  - simpl. by rewrite set_trace_nil.
  - apply Forall_cons in Hp as [(v & Hv & Hd) Hp].
    pipeline_step IH Hv Hd s_after_cons.
Qed.

Lemma intercept_publish_app env0 pre rest : forall env st,
  Forall (fun h => passes (intervene h (EPublish env0))) pre ->
  intercept_publish (pre ++ rest) (p_message env0) (p_sender env0) env st
  = intercept_publish rest (p_message env0) (p_sender env0)
      (p_after pre env0 env)
      (set_trace (trace st ++ intervention_events pre (EPublish env0)) st).
Proof.
  induction pre as [|h pre IH]; intros env st Hp.
  - simpl. by rewrite set_trace_nil.
  - apply Forall_cons in Hp as [(v & Hv & Hd) Hp].
    pipeline_step IH Hv Hd p_after_cons.
Qed.

Lemma intercept_response_app env0 pre rest : forall env st,
  Forall (fun h => passes (intervene h (EResponse env0))) pre ->
  intercept_response (pre ++ rest) (r_message env0) (r_sender env0)
    (r_recipient env0) (r_future env0) env st
  = intercept_response rest (r_message env0) (r_sender env0)
      (r_recipient env0) (r_future env0) (r_after pre env0 env)
      (set_trace (trace st ++ intervention_events pre (EResponse env0)) st).
Proof.
  induction pre as [|h pre IH]; intros env st Hp.
  - simpl. by rewrite set_trace_nil.
  - apply Forall_cons in Hp as [(v & Hv & Hd) Hp].
    pipeline_step IH Hv Hd r_after_cons.
Qed.

(** Without handlers the envelope goes to its delivery task as it is. *)
Lemma dispatch_no_handlers e st :
  _intervention_handlers st = None ->
  dispatch e st = create_task (deliver e) st.
Proof.
  intros H. unfold dispatch. munfold. rewrite H. by destruct e.
Qed.

(** When every handler passes the message on, the envelope goes to its
    delivery task with the value returned by the last handler. *)
Lemma dispatch_passes e st hs :
  _intervention_handlers st = Some hs ->
  Forall (fun h => passes (intervene h e)) hs ->
  dispatch e st
  = create_task (deliver (after_handlers hs e))
      (set_trace (trace st ++ intervention_events hs e) st).
Proof.
  intros H Hp. unfold dispatch. munfold. rewrite H.
  destruct e as [env|env|env]; simpl.
  - pose proof (intercept_send_app env hs [] env st Hp) as E.
    rewrite app_nil_r in E. by rewrite E.
  - pose proof (intercept_publish_app env hs [] env st Hp) as E.
    rewrite app_nil_r in E. by rewrite E.
  - pose proof (intercept_response_app env hs [] env st Hp) as E.
    rewrite app_nil_r in E. by rewrite E.
Qed.

(** When a handler returns [DropMessage], the handlers after it are
    not called and no delivery task is spawned. *)
Lemma dispatch_drops e st pre h post :
  _intervention_handlers st = Some (pre ++ h :: post) ->
  Forall (fun h' => passes (intervene h' e)) pre ->
  drops (intervene h e) ->
  dispatch e st
  = settle_dropped e
      (set_trace (trace st ++ intervention_events (pre ++ [h]) e) st).
Proof.
  intros H Hp (v & Hv & Hd). unfold dispatch. munfold. rewrite H.
  unfold intervention_events. rewrite flat_map_app. simpl. rewrite app_nil_r.
  fold (intervention_events pre e).
  destruct e as [env|env|env]; simpl in *.
  - rewrite intercept_send_app by done. simpl. munfold. simpl.
    rewrite Hv. simpl.
    destruct v; try done; simpl; rewrite !set_trace_set_trace;
      unfold settle_dropped; simpl; munfold; simpl; rewrite <- !app_assoc;
      simpl; by destruct (futures st !! s_future env) as [[| | |]|].
  - rewrite intercept_publish_app by done. simpl. munfold. simpl.
    rewrite Hv. simpl.
    destruct v; try done; simpl; rewrite !set_trace_set_trace;
      unfold settle_dropped; simpl; munfold; simpl; by rewrite <- !app_assoc.
  - rewrite intercept_response_app by done. simpl. munfold. simpl.
    rewrite Hv. simpl.
    destruct v; try done; simpl; rewrite !set_trace_set_trace;
      unfold settle_dropped; simpl; munfold; simpl; rewrite <- !app_assoc;
      simpl; by destruct (futures st !! r_future env) as [[| | |]|].
Qed.

Lemma _process_next_head st e rest :
  q_items (_message_queue st) = e :: rest ->
  _process_next st = Some (dispatch e (dequeued rest st)).
Proof. intros H. unfold _process_next, Queue_get. by rewrite H. Qed.

Lemma intervention_events_not_invoked hs e a :
  ¬ invoked a (intervention_events hs e).
Proof.
  intros (m & ctx & Hin). unfold intervention_events in Hin.
  apply list_elem_of_In, in_flat_map in Hin as (h & _ & Hin).
  destruct Hin as [Hin|Hin].
  - by destruct e.
  - unfold warn_events in Hin. repeat case_match; simpl in Hin;
      try done; by destruct Hin.
Qed.

(** C1, at the failing input: with two handlers that append ["1"] and
    ["2"], the second handler is called with the message the envelope
    carried when it was queued, not with the value ["m1"] the first
    one returned; the agent receives ["m2"]. *)
Theorem second_handler_sees_original_message :
  let st := run_dispatcher 1 chain_sent in
  filter is_hook (trace st)
  = [EvOnSend "H1" (VStr "m"); EvOnSend "H2" (VStr "m")] ∧
  on_send (suffix_handler "H1" "1") (VStr "m") None echo_id
  = Returns (VStr "m1") ∧
  filter is_on_message (trace st)
  = [EvOnMessage echo_id (VStr "m2") (send_context None 0)].
Proof. vm_compute. done. Qed.

(** The same for every envelope and every list of handlers that pass
    the message on: each hook is called on the message of the queued
    envelope ([intervention_events]), and the delivery task gets the
    envelope with the value the last handler returned. *)
Lemma handlers_all_see_queued_message st e hs h m :
  _intervention_handlers st = Some hs ->
  Forall (fun h => passes (intervene h e)) hs ->
  hook_event h e m ∈ intervention_events hs e -> m = envelope_message e.
Proof.
  intros _ _ Hin. unfold intervention_events in Hin.
  apply list_elem_of_In, in_flat_map in Hin as (h' & _ & Hin).
  destruct Hin as [Hin|Hin].
  - destruct e; simpl in *; congruence.
  - unfold warn_events in Hin. destruct e; repeat case_match; simpl in Hin;
      try done; by destruct Hin.
Qed.

(** C2, at the failing input: a Send dropped by an intervention
    handler is taken from the queue and never marked done.  One
    [put()], no [task_done()]; the outstanding counter stays at 1 with
    an empty queue, and [stop_when_idle] does not return. *)
Theorem dropped_send_is_never_marked_done :
  (∀ n, let st := run_dispatcher (S n) drop_sent in
        q_items (_message_queue st) = [] ∧
        _unfinished_tasks (_message_queue st) = 1 ∧
        count_put (trace st) = 1 ∧
        count_task_done (trace st) = 0 ∧
        await_future 0 st = Some (Err MessageDroppedException)) ∧
  (∀ fuel, stop_when_idle fuel drop_sent = None).
Proof.
  split.
  - intros n. simpl.
    assert (_run_iteration drop_sent = Some (run_dispatcher 1 drop_sent)) as ->
      by (by vm_compute).
    rewrite run_dispatcher_waits by (by vm_compute).
    by vm_compute.
  - intros fuel. destruct fuel as [|[|fuel]]; by vm_compute.
Qed.




(** ** Factories and the instance cache *)

(** Two states built from [st] by the setters are equal. *)
Ltac state_eq st :=
  destruct st; simpl;
  rewrite <- ?app_assoc, ?app_nil_r, ?Nat.add_0_r, ?Nat.add_1_r;
  reflexivity.

Lemma set_next_uid_set_trace n t st :
  set_next_uid n (set_trace t st) = set_trace t (set_next_uid n st).
Proof. by destruct st. Qed.

(** A factory call that succeeds creates exactly one object. *)
Lemma call_factory_ok fac : forall nargs a ag st,
  factory_product fac nargs a = Ok ag ->
  call_factory fac nargs a st
  = (Ok (mkAgentInstance (next_uid st) ag),
     set_trace (trace st ++ [EvAgentCreated (next_uid st) a])
       (set_next_uid (S (next_uid st)) st)).
Proof.
  induction fac as [arity body|fac IH cls]; intros nargs a ag st H; simpl in *.
  - destruct (decide (arity = nargs)); [|done].
    destruct (body a); [|done]. by simplify_eq.
  - destruct (decide (nargs = 0)); [|done].
    destruct (factory_product fac 0 a) as [ag'|] eqn:E; [|done].
    destruct (decide (agent_class ag' ≠ cls)); [done|]. simplify_eq.
    munfold. rewrite (IH _ _ _ _ E). simpl.
    by destruct (decide (agent_class ag ≠ cls)).
Qed.

Lemma factory_product_creates fac : forall nargs a ag,
  factory_product fac nargs a = Ok ag -> factory_creates fac nargs a = true.
Proof.
  induction fac as [arity body|fac IH cls]; intros nargs a ag H; simpl in *.
  - destruct (decide (arity = nargs)); [|done]. by destruct (body a).
  - destruct (decide (nargs = 0)); [|done].
    destruct (factory_product fac 0 a) eqn:E; [|done]. eauto.
Qed.

(** A factory call that fails leaves the runtime as it was, but for
    the object its user callable may have created before a wrapper
    rejected it. *)
Lemma call_factory_err fac : forall nargs a e st,
  factory_product fac nargs a = Err e ->
  call_factory fac nargs a st
  = (Err e,
     if factory_creates fac nargs a then
       set_trace (trace st ++ [EvAgentCreated (next_uid st) a])
         (set_next_uid (S (next_uid st)) st)
     else st).
Proof.
  induction fac as [arity body|fac IH cls]; intros nargs a e st H; simpl in *.
  - destruct (decide (arity = nargs)); [|by simplify_eq].
    destruct (body a); [done|]. by simplify_eq.
  - destruct (decide (nargs = 0)); [|by simplify_eq].
    destruct (factory_product fac 0 a) as [ag'|e'] eqn:E.
    + destruct (decide (agent_class ag' ≠ cls)); [|done]. simplify_eq.
      munfold. rewrite (call_factory_ok _ _ _ _ _ E). simpl.
      destruct (decide (agent_class ag' ≠ cls)); [|done].
      by rewrite (factory_product_creates _ _ _ _ E).
    + simplify_eq. munfold. by rewrite (IH _ _ _ _ E).
Qed.

Lemma _get_agent_cached a i st :
  _instantiated_agents st !! a = Some i -> _get_agent a st = (Ok i, st).
Proof. intros H. unfold _get_agent. munfold. by rewrite H. Qed.

Lemma _get_agent_unregistered a st :
  _instantiated_agents st !! a = None ->
  _agent_factories st !! aid_type a = None ->
  _get_agent a st
  = (Err (LookupError ("Agent with name " +:+ aid_type a +:+ " not found.")),
     st).
Proof. intros H1 H2. unfold _get_agent. munfold. by rewrite H1, H2. Qed.

Lemma _get_agent_created a fac ag st :
  _instantiated_agents st !! a = None ->
  _agent_factories st !! aid_type a = Some fac ->
  invoke_product fac a = Ok ag ->
  _get_agent a st
  = (Ok (mkAgentInstance (next_uid st) ag),
     cached a (mkAgentInstance (next_uid st) ag)
       (invoke_events fac a (next_uid st)) st).
Proof.
  intros H1 H2 H3. unfold _get_agent. munfold. rewrite H1, H2.
  unfold _invoke_agent_factory, invoke_product, invoke_events in *.
  destruct (decide (signature_parameters fac = 0)) as [E0|E0].
  - destruct (decide (signature_parameters fac = 2)); [congruence|].
    munfold. rewrite (call_factory_ok _ _ _ _ _ H3). simpl.
    unfold cached. destruct st; simpl. by rewrite <- !app_assoc.
  - destruct (decide (signature_parameters fac = 2)); [|done].
    munfold. rewrite (call_factory_ok _ _ _ _ _ H3). simpl.
    unfold cached. destruct st; simpl. by rewrite <- !app_assoc.
Qed.

(** A failed [_get_agent] caches nothing: only the trace and the
    object counter can have moved. *)
Lemma _get_agent_failed a fac e st :
  _instantiated_agents st !! a = None ->
  _agent_factories st !! aid_type a = Some fac ->
  invoke_product fac a = Err e ->
  ∃ evs n,
    _get_agent a st
    = (Err e, set_trace (trace st ++ evs) (set_next_uid (next_uid st + n) st))
    ∧ Forall (fun ev => is_on_message ev = false ∧ is_put ev = false
                        ∧ is_task_done ev = false) evs.
Proof.
  intros H1 H2 H3. unfold _get_agent. munfold. rewrite H1, H2.
  unfold _invoke_agent_factory, invoke_product in *.
  destruct (decide (signature_parameters fac = 0)) as [E0|E0].
  - munfold. rewrite (call_factory_err _ _ _ _ _ H3). simpl.
    destruct (factory_creates fac 0 a); simpl.
    + exists [EvFactoryCall a; EvAgentCreated (next_uid st) a], 1.
      split; [state_eq st|]. by repeat constructor.
    + exists [EvFactoryCall a], 0.
      split; [state_eq st|]. by repeat constructor.
  - destruct (decide (signature_parameters fac = 2)).
    + munfold. rewrite (call_factory_err _ _ _ _ _ H3). simpl.
      destruct (factory_creates fac 2 a); simpl.
      * exists [EvWarn deprecation_warning; EvFactoryCall a;
           EvAgentCreated (next_uid st) a], 1.
        split; [state_eq st|]. by repeat constructor.
      * exists [EvWarn deprecation_warning; EvFactoryCall a], 0.
        split; [state_eq st|]. by repeat constructor.
    + simplify_eq. exists [], 0. split; [state_eq st|constructor].
Qed.

(** [_get_agent] gives the agent [resolve] names. *)
Lemma _get_agent_resolve a st :
  match (_get_agent a st).1 with
  | Ok i => resolve st a = Ok (instance_agent i)
  | Err e => resolve st a = Err e
  end.
Proof.
  unfold resolve.
  destruct (_instantiated_agents st !! a) as [i|] eqn:H1.
  { by rewrite (_get_agent_cached _ _ _ H1). }
  destruct (_agent_factories st !! aid_type a) as [fac|] eqn:H2.
  2:{ by rewrite (_get_agent_unregistered _ _ H1 H2). }
  destruct (invoke_product fac a) as [ag|e] eqn:H3.
  - by rewrite (_get_agent_created _ _ _ _ H1 H2 H3).
  - destruct (_get_agent_failed _ _ _ _ H1 H2 H3) as (evs & n & -> & _). done.
Qed.

(** ** Relations kept by every step of a runtime

    A preorder on states that the elementary updates respect is
    respected by every method and by every turn of the dispatcher. *)

Lemma set_futures_set_futures fs fs' st :
  set_futures fs (set_futures fs' st) = set_futures fs st.
Proof. by destruct st. Qed.

Section Preservation.
Variable R : relation Runtime.
Context `{!PreOrder R}.

Hypothesis R_trace : ∀ st evs, R st (set_trace (trace st ++ evs) st).
Hypothesis R_queue : ∀ st q, R st (set_message_queue q st).
Hypothesis R_uid : ∀ st n, R st (set_next_uid n st).
Hypothesis R_tokens : ∀ st ts, R st (set_tokens ts st).
Hypothesis R_subscriptions :
  ∀ st sm, R st (set_subscription_manager sm st).
Hypothesis R_run_context : ∀ st rc, R st (set_run_context rc st).
Hypothesis R_settle : ∀ st f s,
  futures st !! f = Some FPending ->
  R st (set_futures (<[f := s]> (futures st)) st).
Hypothesis R_create_future :
  ∀ st, R st (set_futures (futures st ++ [FPending]) st).
Hypothesis R_register : ∀ st ty fac,
  _agent_factories st !! ty = None ->
  R st (set_agent_factories (<[ty := fac]> (_agent_factories st)) st).
Hypothesis R_cache : ∀ st a i,
  _instantiated_agents st !! a = None ->
  resolve st a = Ok (instance_agent i) ->
  R st (set_instantiated_agents (<[a := i]> (_instantiated_agents st)) st).

Definition preserves {A} (c : M A) : Prop := ∀ st, R st (c st).2.

Lemma preserves_pure {A} (a : A) : preserves (pure a).
Proof. intros st. reflexivity. Qed.

Lemma preserves_throw {A} e : preserves (@throw A e).
Proof. intros st. reflexivity. Qed.

Lemma preserves_get_state : preserves get_state.
Proof. intros st. reflexivity. Qed.

Lemma preserves_bind {A B} (c : M A) (k : A -> M B) :
  preserves c -> (∀ a, preserves (k a)) -> preserves (bind c k).
Proof.
  intros Hc Hk st. unfold bind. specialize (Hc st).
  destruct (c st) as [[a|e] st']; simpl in *; [|done].
  etrans; [exact Hc|apply Hk].
Qed.

Lemma preserves_try_except {A} (c : M A) (h : Exn -> M A) :
  preserves c -> (∀ e, preserves (h e)) -> preserves (try_except c h).
Proof.
  intros Hc Hh st. unfold try_except. specialize (Hc st).
  destruct (c st) as [[a|e] st']; simpl in *; [done|].
  etrans; [exact Hc|apply Hh].
Qed.

Lemma preserves_try_finally {A} (c : M A) (f : M unit) :
  preserves c -> preserves f -> preserves (try_finally c f).
Proof.
  intros Hc Hf st. unfold try_finally. specialize (Hc st).
  destruct (c st) as [r st']. specialize (Hf st').
  destruct (f st') as [[[]|e] st'']; simpl in *; by etrans.
Qed.

Lemma preserves_emit ev : preserves (emit ev).
Proof. intros st. apply R_trace. Qed.

Lemma preserves_create_task c : preserves c -> preserves (create_task c).
Proof.
  intros Hc. apply preserves_try_except; [done|].
  intros e. apply preserves_emit.
Qed.

(** Structural steps through a computation. *)
Ltac pres :=
  repeat
    match goal with
    | |- preserves (pure _) => apply preserves_pure
    | |- preserves (throw _) => apply preserves_throw
    | |- preserves get_state => apply preserves_get_state
    | |- preserves (emit _) => apply preserves_emit
    | |- preserves (create_task _) => apply preserves_create_task
    | |- preserves (bind _ _) => apply preserves_bind; [|intros ?]
    | |- preserves (try_except _ _) =>
        apply preserves_try_except; [|intros ?]
    | |- preserves (try_finally _ _) => apply preserves_try_finally
    | |- preserves (match ?x with _ => _ end) => destruct x
    | |- preserves (let _ := _ in _) => cbv zeta
    | H : _ |- _ => exact H
    | H : ∀ _, preserves _ |- _ => apply H
    end.

Lemma preserves_Queue_put e : preserves (Queue_put e).
Proof.
  intros st. unfold Queue_put. destruct (_is_shutdown _); simpl; [done|].
  etrans; [apply R_queue|]. apply (R_trace (set_message_queue _ st)).
Qed.

Lemma preserves_Queue_task_done : preserves Queue_task_done.
Proof.
  intros st. unfold Queue_task_done.
  destruct (_unfinished_tasks _); simpl; [done|].
  etrans; [apply R_queue|]. apply (R_trace (set_message_queue _ st)).
Qed.

Lemma preserves_Queue_shutdown_immediate : preserves Queue_shutdown_immediate.
Proof. intros st. apply R_queue. Qed.

Lemma preserves_create_future : preserves create_future.
Proof. intros st. apply R_create_future. Qed.

Lemma preserves_Future_set_result f v : preserves (Future_set_result f v).
Proof.
  intros st. unfold Future_set_result.
  destruct (futures st !! f) as [[| | |]|] eqn:E; simpl; try done.
  by apply R_settle.
Qed.

Lemma preserves_Future_set_exception f e :
  preserves (Future_set_exception f e).
Proof.
  intros st. unfold Future_set_exception.
  destruct (futures st !! f) as [[| | |]|] eqn:E; simpl; try done.
  by apply R_settle.
Qed.

Lemma preserves_Future_cancelled f : preserves (Future_cancelled f).
Proof. intros st. reflexivity. Qed.

Lemma R_cancel_future st f :
  R st (set_futures (cancel_future f (futures st)) st).
Proof.
  unfold cancel_future.
  destruct (futures st !! f) as [[| | |]|] eqn:E;
    try (by destruct st); by apply R_settle.
Qed.

Lemma R_cancel_futures st l :
  R st (set_futures (foldr cancel_future (futures st) l) st).
Proof.
  induction l as [|f l IH]; simpl; [by destruct st|].
  etrans; [exact IH|].
  pose proof (R_cancel_future
                (set_futures (foldr cancel_future (futures st) l) st) f) as H.
  simpl in H. by rewrite set_futures_set_futures in H.
Qed.

Lemma preserves_CancellationToken_new : preserves CancellationToken_new.
Proof. intros st. apply R_tokens. Qed.

Lemma preserves_cancel tok : preserves (cancel tok).
Proof.
  intros st. unfold cancel, modify. simpl.
  destruct (tokens st !! tok) as [t|]; [|done].
  destruct (tok_cancelled t); [done|].
  etrans; [apply R_tokens|]. apply (R_cancel_futures (set_tokens _ st)).
Qed.

Lemma preserves_link_future tok f : preserves (link_future tok f).
Proof.
  intros st. unfold link_future, modify. simpl.
  destruct (tokens st !! tok) as [t|]; [|done].
  destruct (tok_cancelled t); [apply R_cancel_future|apply R_tokens].
Qed.

Lemma preserves_add_subscription s : preserves (add_subscription s).
Proof.
  intros st. unfold add_subscription. case_bool_decide; simpl; [done|].
  apply R_subscriptions.
Qed.

Lemma preserves_remove_subscription id : preserves (remove_subscription id).
Proof.
  intros st. unfold remove_subscription. case_bool_decide; simpl; [|done].
  apply R_subscriptions.
Qed.

Lemma preserves_get_subscribed_recipients t :
  preserves (get_subscribed_recipients t).
Proof. intros st. reflexivity. Qed.

Lemma preserves__get_agent a : preserves (_get_agent a).
Proof.
  intros st.
  destruct (_instantiated_agents st !! a) as [i|] eqn:H1.
  { by rewrite (_get_agent_cached _ _ _ H1). }
  destruct (_agent_factories st !! aid_type a) as [fac|] eqn:H2.
  2:{ by rewrite (_get_agent_unregistered _ _ H1 H2). }
  destruct (invoke_product fac a) as [ag|e] eqn:H3.
  - rewrite (_get_agent_created _ _ _ _ H1 H2 H3). simpl. unfold cached.
    trans (set_next_uid (S (next_uid st)) st); [apply R_uid|].
    trans (set_trace (trace st ++ invoke_events fac a (next_uid st))
             (set_next_uid (S (next_uid st)) st)).
    { apply (R_trace (set_next_uid _ st)). }
    apply (R_cache (set_trace (trace st ++ invoke_events fac a (next_uid st))
                      (set_next_uid (S (next_uid st)) st))); simpl; [done|].
    unfold resolve. simpl. by rewrite H1, H2.
  - destruct (_get_agent_failed _ _ _ _ H1 H2 H3) as (evs & n & -> & _).
    simpl. trans (set_next_uid (next_uid st + n) st); [apply R_uid|].
    apply (R_trace (set_next_uid _ st)).
Qed.

Lemma add_subscription_frame s st :
  ∃ sm r, add_subscription s st = (r, set_subscription_manager sm st).
Proof.
  unfold add_subscription. case_bool_decide.
  - exists (_subscription_manager st), (Err (ValueError "Subscription already exists")).
    by destruct st.
  - by eexists _, _.
Qed.

Lemma add_subscriptions_frame l : ∀ st,
  ∃ sm r,
    foldr (fun subscription k => add_subscription subscription ;; k)
      (pure tt) l st
    = (r, set_subscription_manager sm st).
Proof.
  induction l as [|s l IH]; intros st; simpl.
  - exists (_subscription_manager st), (Ok tt). by destruct st.
  - unfold bind at 1.
    destruct (add_subscription_frame s st) as (sm & [[]|e] & ->).
    + destruct (IH (set_subscription_manager sm st)) as (sm' & r & ->).
      exists sm', r. by destruct st.
    + by exists sm, (Err e).
Qed.

Lemma preserves_register type fac subs : preserves (register type fac subs).
Proof.
  intros st. unfold register.
  set (install := match subs with Some l => _ | None => _ end).
  assert (∀ st, ∃ sm r, install st = (r, set_subscription_manager sm st))
    as Hinstall.
  { intros st0. subst install. destruct subs as [l|].
    - apply add_subscriptions_frame.
    - exists (_subscription_manager st0), (Ok tt). by destruct st0. }
  unfold bind, get_state.
  destruct (decide _) as [|Hnone]; [done|].
  apply eq_None_not_Some in Hnone.
  destruct (Hinstall st) as (sm & r & ->).
  destruct r as [[]|e]; simpl; [|apply R_subscriptions].
  trans (set_subscription_manager sm st); [apply R_subscriptions|].
  by apply (R_register (set_subscription_manager sm st)).
Qed.

Lemma preserves_register_factory type fac cls :
  preserves (register_factory type fac cls).
Proof.
  intros st. unfold register_factory, bind, get_state.
  destruct (decide _) as [|Hnone]; [done|].
  apply eq_None_not_Some in Hnone. simpl. by apply R_register.
Qed.

Lemma preserves_send_message m recipient sender tok :
  preserves (send_message m recipient sender tok).
Proof.
  unfold send_message.
  pres; auto using preserves_CancellationToken_new, preserves_create_future,
    preserves_Future_set_exception, preserves_Queue_put,
    preserves_link_future.
Qed.

Lemma preserves_publish_message m topic sender tok mid uuid4 :
  preserves (publish_message m topic sender tok mid uuid4).
Proof.
  unfold publish_message.
  pres; auto using preserves_CancellationToken_new, preserves_Queue_put.
Qed.

Lemma preserves__process_send env : preserves (_process_send env).
Proof.
  unfold _process_send.
  pres; auto using preserves__get_agent, preserves_Future_cancelled,
    preserves_Future_set_exception, preserves_Queue_task_done,
    preserves_Queue_put.
Qed.

Lemma preserves_publish_loop recipients env :
  ∀ responses, preserves (publish_loop recipients env responses).
Proof.
  induction recipients as [|a rest IH]; intros responses; simpl.
  - apply preserves_pure.
  - pres; auto using preserves__get_agent.
Qed.

Lemma preserves_run_coroutines m cs : preserves (run_coroutines m cs).
Proof. induction cs as [|c cs IH]; simpl; pres. Qed.

Lemma preserves__process_publish env : preserves (_process_publish env).
Proof.
  unfold _process_publish, gather.
  pres; auto using preserves_get_subscribed_recipients,
    preserves_publish_loop, preserves_run_coroutines,
    preserves_Queue_task_done.
Qed.

Lemma preserves__process_response env : preserves (_process_response env).
Proof.
  unfold _process_response.
  pres; auto using preserves_Queue_task_done, preserves_Future_cancelled,
    preserves_Future_set_result.
Qed.

Lemma preserves__warn_if_none v name : preserves (_warn_if_none v name).
Proof. unfold _warn_if_none. pres. Qed.

Lemma preserves_intercept_send hs m sender recipient future :
  ∀ env, preserves (intercept_send hs m sender recipient future env).
Proof.
  induction hs as [|h hs IH]; intros env; simpl;
    pres; auto using preserves_Future_set_exception,
            preserves__warn_if_none.
Qed.

Lemma preserves_intercept_publish hs m sender :
  ∀ env, preserves (intercept_publish hs m sender env).
Proof.
  induction hs as [|h hs IH]; intros env; simpl;
    pres; auto using preserves__warn_if_none.
Qed.

Lemma preserves_intercept_response hs m sender recipient future :
  ∀ env, preserves (intercept_response hs m sender recipient future env).
Proof.
  induction hs as [|h hs IH]; intros env; simpl;
    pres; auto using preserves_Future_set_exception,
            preserves__warn_if_none.
Qed.

Lemma preserves_deliver e : preserves (deliver e).
Proof.
  destruct e; simpl; auto using preserves__process_send,
    preserves__process_publish, preserves__process_response.
Qed.

Lemma preserves_dispatch e : preserves (dispatch e).
Proof.
  unfold dispatch.
  pres; auto using preserves_intercept_send, preserves_intercept_publish,
    preserves_intercept_response, preserves__process_send,
    preserves__process_publish, preserves__process_response.
Qed.

Lemma R__process_next st r st' :
  _process_next st = Some (r, st') -> R st st'.
Proof.
  unfold _process_next, Queue_get.
  destruct (q_items (_message_queue st)) as [|e rest].
  - destruct (_is_shutdown _); [|done]. by intros [= _ <-].
  - intros [= E].
    trans (dequeued rest st); [apply R_queue|].
    pose proof (preserves_dispatch e (dequeued rest st)) as H.
    unfold dequeued in *. by rewrite E in H.
Qed.

Lemma R__run_iteration st st' : _run_iteration st = Some st' -> R st st'.
Proof.
  unfold _run_iteration.
  destruct (_run_context st) as [[stopped [| |e]]|]; try done.
  destruct stopped.
  - intros [= <-]. apply R_run_context.
  - destruct (_process_next st) as [[[[]|e] st1]|] eqn:E; try done.
    + intros [= <-]. by eapply R__process_next.
    + intros [= <-]. trans st1; [by eapply R__process_next|].
      apply R_run_context.
Qed.

Lemma R_run_dispatcher n : ∀ st, R st (run_dispatcher n st).
Proof.
  induction n as [|n IH]; intros st; simpl; [done|].
  destruct (_run_iteration st) as [st'|] eqn:E; [|done].
  trans st'; [by apply R__run_iteration|apply IH].
Qed.

Lemma R_Queue_join fuel : ∀ st st', Queue_join fuel st = Some st' -> R st st'.
Proof.
  induction fuel as [|fuel IH]; intros st st'; simpl.
  - destruct (decide _); [|done]. by intros [= <-].
  - destruct (decide _); [by intros [= <-]|].
    destruct (_run_iteration st) as [st1|] eqn:E; [|done].
    intros H. trans st1; [by apply R__run_iteration|by apply IH].
Qed.

Lemma preserves_await_run_task : preserves await_run_task.
Proof.
  intros st. unfold await_run_task.
  destruct (_run_iteration st) as [st'|] eqn:E; simpl.
  - apply R__run_iteration in E.
    by destruct (_run_context st') as [[? [| |?]]|].
  - by destruct (_run_context st) as [[? [| |?]]|].
Qed.

Lemma preserves_RunContext_stop : preserves RunContext_stop.
Proof.
  unfold RunContext_stop.
  pres; auto using preserves_Queue_shutdown_immediate,
    preserves_await_run_task.
  intros st. unfold modify. simpl.
  destruct (_run_context st); [apply R_run_context|done].
Qed.

Lemma preserves_modify_run_context rc : preserves (modify (set_run_context rc)).
Proof. intros st. apply R_run_context. Qed.

Lemma preserves_modify_queue q : preserves (modify (set_message_queue q)).
Proof. intros st. apply R_queue. Qed.

Lemma preserves_start : preserves start.
Proof. unfold start. pres. apply preserves_modify_run_context. Qed.

Lemma preserves_stop_tail :
  preserves (RunContext_stop ;;
             modify (set_run_context None) ;;
             modify (set_message_queue Queue_new)).
Proof.
  pres; auto using preserves_RunContext_stop, preserves_modify_run_context,
    preserves_modify_queue.
Qed.

Lemma preserves_stop : preserves stop.
Proof.
  unfold stop.
  pres; auto using preserves_RunContext_stop, preserves_modify_run_context,
    preserves_modify_queue.
Qed.

Lemma R_stop_when_idle fuel st r st' :
  stop_when_idle fuel st = Some (r, st') -> R st st'.
Proof.
  unfold stop_when_idle. destruct (_run_context st); [|by intros [= _ <-]].
  destruct (Queue_join fuel st) as [st1|] eqn:E; [|done].
  intros [= H]. trans st1; [by eapply R_Queue_join|].
  pose proof (preserves_stop_tail st1) as H'. by rewrite H in H'.
Qed.

Lemma R_check_condition condition polls :
  ∀ st r st', check_condition condition polls st = Some (r, st') -> R st st'.
Proof.
  induction polls as [|k polls IH]; intros st r st'; simpl; [done|].
  destruct (condition (run_dispatcher k st)).
  - intros [= H]. trans (run_dispatcher k st); [apply R_run_dispatcher|].
    pose proof (preserves_RunContext_stop (run_dispatcher k st)) as H'.
    by rewrite H in H'.
  - intros H. trans (run_dispatcher k st); [apply R_run_dispatcher|].
    by eapply IH.
Qed.

Lemma R_stop_when condition polls st r st' :
  stop_when condition polls st = Some (r, st') -> R st st'.
Proof.
  unfold stop_when. destruct (_run_context st); [|by intros [= _ <-]].
  destruct (check_condition condition polls st) as [[[[]|e] st1]|] eqn:E;
    [| |done].
  - intros [= _ <-]. trans st1; [by eapply R_check_condition|].
    unfold bind, modify. simpl.
    trans (set_run_context None st1); [apply R_run_context|].
    apply (R_queue (set_run_context None st1)).
  - intros [= _ <-]. by eapply R_check_condition.
Qed.

(** Whatever happens to a runtime, it moves along [R]. *)
Lemma R_step op st : R st (step op st).
Proof.
  destruct op; simpl; unfold exec.
  - apply preserves_register.
  - apply preserves_register_factory.
  - apply preserves_add_subscription.
  - apply preserves_remove_subscription.
  - apply preserves_CancellationToken_new.
  - apply preserves_cancel.
  - apply preserves_send_message.
  - apply preserves_publish_message.
  - apply preserves__get_agent.
  - destruct (_process_next st) as [[r st']|] eqn:E; [|done].
    by eapply R__process_next.
  - apply R_run_dispatcher.
  - apply preserves_start.
  - apply preserves_stop.
  - destruct (stop_when_idle fuel st) as [[r st']|] eqn:E.
    + by eapply R_stop_when_idle.
    + apply R_run_dispatcher.
  - destruct (stop_when condition polls st) as [[r st']|] eqn:E.
    + by eapply R_stop_when.
    + apply R_run_dispatcher.
Qed.

Lemma R_run ops : ∀ st, R st (run ops st).
Proof.
  induction ops as [|op ops IH]; intros st; simpl; [done|].
  trans (step op st); [apply R_step|apply IH].
Qed.
End Preservation.

(** ** What a runtime keeps for its whole life *)

Lemma respected_run R `{!PreOrder R} :
  respected R -> ∀ ops st, R st (run ops st).
Proof. intros []. by apply R_run. Qed.

Lemma respected_dispatch R `{!PreOrder R} :
  respected R -> ∀ e st, R st (dispatch e st).2.
Proof. intros [] e st. by apply (preserves_dispatch R). Qed.

Lemma respected_run_dispatcher R `{!PreOrder R} :
  respected R -> ∀ n st, R st (run_dispatcher n st).
Proof. intros [] n st. by apply R_run_dispatcher. Qed.

Lemma respected__get_agent R `{!PreOrder R} :
  respected R -> ∀ a st, R st (_get_agent a st).2.
Proof. intros [] a st. by apply (preserves__get_agent R). Qed.

#[global] Instance cache_kept_preorder : PreOrder cache_kept.
Proof. split; [by intros st a i|]. intros x y z H1 H2 a i H. eauto. Qed.

#[global] Instance settled_kept_preorder : PreOrder settled_kept.
Proof. split; [by intros st f s|]. intros x y z H1 H2 f s H Hs. eauto. Qed.

#[global] Instance resolve_kept_preorder : PreOrder resolve_kept.
Proof. split; [by intros st a ag|]. intros x y z H1 H2 a ag H. eauto. Qed.

Lemma cache_kept_respected : respected cache_kept.
Proof.
  split; try (intros st **; intros a' i' H'; by destruct st).
  intros st a i Hnone _ a' i' H'. simpl.
  rewrite lookup_insert_ne; [done|]. intros ->. congruence.
Qed.

Lemma settled_kept_respected : respected settled_kept.
Proof.
  split; try (intros st **; intros f' s' H' Hs'; by destruct st).
  - intros st f s Hp f' s' H' Hs'. simpl.
    destruct (decide (f = f')) as [->|Hne]; [congruence|].
    by rewrite list_lookup_insert_ne.
  - intros st f' s' H' Hs'. simpl. by apply lookup_app_l_Some.
Qed.

Lemma resolve_kept_respected : respected resolve_kept.
Proof.
  split; try (intros st **; intros a' ag' H'; by destruct st).
  - intros st ty fac Hnone a ag. unfold resolve. simpl.
    destruct (_instantiated_agents st !! a); [done|].
    destruct (decide (ty = aid_type a)) as [->|Hne].
    + by rewrite Hnone.
    + by rewrite lookup_insert_ne.
  - intros st a i Hnone Hres a' ag'. unfold resolve in *. simpl.
    destruct (decide (a = a')) as [<-|Hne].
    + rewrite lookup_insert_eq, Hnone in *. congruence.
    + by rewrite lookup_insert_ne.
Qed.

#[global] Instance trace_extends_preorder : PreOrder trace_extends.
Proof.
  split.
  - intros st. exists []. by rewrite app_nil_r.
  - intros x y z [e1 H1] [e2 H2]. exists (e1 ++ e2).
    by rewrite H2, H1, app_assoc.
Qed.

Lemma trace_extends_respected : respected trace_extends.
Proof.
  split; try (intros st **; exists []; destruct st; simpl;
              by rewrite app_nil_r).
  intros st evs. by exists evs.
Qed.

(** The elementary computations, for a respected relation. *)
Section Respected.
Context (R : relation Runtime) `{!PreOrder R} (HR : respected R).

Lemma respected_emit ev : preserves R (emit ev).
Proof. destruct HR. by apply preserves_emit. Qed.

Lemma respected_Queue_put e : preserves R (Queue_put e).
Proof. destruct HR. by apply preserves_Queue_put. Qed.

Lemma respected_Queue_task_done : preserves R Queue_task_done.
Proof. destruct HR. by apply preserves_Queue_task_done. Qed.

Lemma respected_Future_set_exception f e :
  preserves R (Future_set_exception f e).
Proof. destruct HR. by apply preserves_Future_set_exception. Qed.

Lemma respected_Future_set_result f v :
  preserves R (Future_set_result f v).
Proof. destruct HR. by apply preserves_Future_set_result. Qed.

Lemma respected__process_send env : preserves R (_process_send env).
Proof. destruct HR. by apply preserves__process_send. Qed.

Lemma respected__process_publish env : preserves R (_process_publish env).
Proof. destruct HR. by apply preserves__process_publish. Qed.

Lemma respected__process_response env : preserves R (_process_response env).
Proof. destruct HR. by apply preserves__process_response. Qed.
End Respected.

(** Structural steps through a computation, for a respected relation. *)
Ltac respects HR :=
  repeat
    match goal with
    | |- PreOrder _ => typeclasses eauto
    | |- preserves _ (pure _) => apply preserves_pure
    | |- preserves _ (throw _) => apply preserves_throw
    | |- preserves _ get_state => apply preserves_get_state
    | |- preserves _ (emit _) => apply (respected_emit _ HR)
    | |- preserves _ (Queue_put _) => apply (respected_Queue_put _ HR)
    | |- preserves _ Queue_task_done => apply (respected_Queue_task_done _ HR)
    | |- preserves _ (Future_set_exception _ _) =>
        apply (respected_Future_set_exception _ HR)
    | |- preserves _ (Future_set_result _ _) =>
        apply (respected_Future_set_result _ HR)
    | |- preserves _ (Future_cancelled _) => apply preserves_Future_cancelled
    | |- preserves _ (bind _ _) => apply preserves_bind; [..|intros ?]
    | |- preserves _ (try_except _ _) =>
        apply preserves_try_except; [..|intros ?]
    | |- preserves _ (try_finally _ _) => apply preserves_try_finally
    | |- preserves _ (match ?x with _ => _ end) => destruct x
    end.

(** C7, counterexample: [register_factory] with a factory producing an
    [Echo] where an [Other] is expected does not raise; it returns the
    type. *)
Lemma register_factory_accepts_wrong_class :
  factory_product echo_factory 0 echo_id = Ok echo_agent ∧
  agent_class echo_agent ≠ "Other" ∧
  ¬ (∃ e, (register_factory (mkAgentType "echo") echo_factory "Other"
             (Runtime_init None)).1 = Err e).
Proof.
  split; [reflexivity|]. split; [done|]. intros [e H]. vm_compute in H. done.
Qed.

(** C7, amended: [register_factory] never calls the factory.  On a
    free type name it succeeds and stores the wrapped factory, whatever
    class the factory would produce.  When the produced instance is of
    another class than [expected_class], the [ValueError] is raised by
    [_get_agent], at the first use of an id of that type and at every
    later one: the object is created, rejected, and nothing is
    cached. *)
Theorem register_factory_checks_class_on_use st ty body cls a ag :
  _agent_factories st !! at_type ty = None ->
  _instantiated_agents st !! a = None ->
  aid_type a = at_type ty ->
  body a = Produces ag ->
  agent_class ag ≠ cls ->
  ∃ st1,
    register_factory ty (Callable 0 body) cls st = (Ok ty, st1) ∧
    trace st1 = trace st ∧ next_uid st1 = next_uid st ∧
    ∀ st2,
      _agent_factories st2 = _agent_factories st1 ->
      _instantiated_agents st2 !! a = None ->
      ∃ st3,
        _get_agent a st2
        = (Err (ValueError "Factory registered using the wrong type."), st3) ∧
        trace st3
        = trace st2 ++ [EvFactoryCall a; EvAgentCreated (next_uid st2) a] ∧
        _agent_factories st3 = _agent_factories st2 ∧
        _instantiated_agents st3 = _instantiated_agents st2.
Proof.
  intros Hfree Hmiss Hty Hbody Hcls.
  eexists. split.
  { unfold register_factory, bind, get_state.
    destruct (decide _) as [Hs|_]; [|reflexivity].
    rewrite Hfree in Hs. by destruct Hs. }
  simpl. split; [done|]. split; [done|].
  intros st2 Hfac Hmiss2.
  assert (_agent_factories st2 !! aid_type a
          = Some (factory_wrapper (Callable 0 body) cls)) as Hf.
  { rewrite Hfac, Hty. simpl. by rewrite lookup_insert_eq. }
  unfold _get_agent. munfold. rewrite Hmiss2, Hf.
  unfold _invoke_agent_factory. simpl. munfold. simpl.
  rewrite Hbody. simpl.
  destruct (decide (agent_class ag ≠ cls)); [|done].
  eexists. split; [reflexivity|]. simpl.
  by rewrite <- app_assoc.
Qed.

Lemma register_factory_checks_class_on_use_witness :
  ∃ st1,
    register_factory (mkAgentType "echo") echo_factory "Other"
      (Runtime_init None) = (Ok (mkAgentType "echo"), st1) ∧
    (_get_agent echo_id st1).1
    = Err (ValueError "Factory registered using the wrong type.").
Proof.
  destruct (register_factory_checks_class_on_use (Runtime_init None)
              (mkAgentType "echo") (fun _ => Produces echo_agent) "Other"
              echo_id echo_agent)
    as (st1 & H1 & _ & _ & H2).
  - reflexivity.
  - reflexivity.
  - reflexivity.
  - reflexivity.
  - done.
  - exists st1. split; [exact H1|].
    destruct (H2 st1 eq_refl) as (st3 & H3 & _).
    + injection H1 as <-. reflexivity.
    + by rewrite H3.
Defined.







(** ** Publish delivery *)

Lemma cache_update_id st :
  cache_update (_instantiated_agents st) (next_uid st) [] st = st.
Proof. unfold cache_update. state_eq st. Qed.

Lemma cache_update_cache_update ia n evs ia' n' evs' st :
  cache_update ia' n' evs' (cache_update ia n evs st)
  = cache_update ia' n' (evs ++ evs') st.
Proof. unfold cache_update. state_eq st. Qed.

Lemma quiet_invoke_events fac a uid : Forall quiet (invoke_events fac a uid).
Proof.
  unfold invoke_events. destruct (decide _); by repeat constructor.
Qed.

(** [_get_agent] touches nothing but the cache, the object counter
    and the trace, and invokes no handler. *)
Lemma _get_agent_frame a st :
  ∃ ia n evs,
    (_get_agent a st).2 = cache_update ia n evs st ∧ Forall quiet evs.
Proof.
  destruct (_instantiated_agents st !! a) as [i|] eqn:H1.
  { rewrite (_get_agent_cached _ _ _ H1).
    exists (_instantiated_agents st), (next_uid st), [].
    by rewrite cache_update_id. }
  destruct (_agent_factories st !! aid_type a) as [fac|] eqn:H2.
  2:{ rewrite (_get_agent_unregistered _ _ H1 H2).
      exists (_instantiated_agents st), (next_uid st), [].
      by rewrite cache_update_id. }
  destruct (invoke_product fac a) as [ag|e] eqn:H3.
  - rewrite (_get_agent_created _ _ _ _ H1 H2 H3).
    eexists _, _, _. split; [reflexivity|]. apply quiet_invoke_events.
  - destruct (_get_agent_failed _ _ _ _ H1 H2 H3) as (evs & n & -> & Hq).
    exists (_instantiated_agents st), (next_uid st + n), evs.
    split; [unfold cache_update; state_eq st|].
    eapply Forall_impl; [exact Hq|]. by intros ev (? & ? & ?).
Qed.

Lemma get_subscribed_recipients_eq topic st :
  get_subscribed_recipients topic st = (Ok (subscribed_recipients st topic), st).
Proof. reflexivity. Qed.

Lemma _get_agent_frame_eq a st r st' :
  _get_agent a st = (r, st') ->
  ∃ ia n evs, st' = cache_update ia n evs st ∧ Forall quiet evs.
Proof.
  intros H. destruct (_get_agent_frame a st) as (ia & n & evs & E & Hq).
  rewrite H in E. simpl in E. by exists ia, n, evs.
Qed.

(** The loop of [_process_publish]: it resolves agents and invokes
    nobody; the coroutines it adds are those of the recipients that
    are not the sender, in order. *)
Lemma publish_loop_spec env recipients : ∀ responses st r st',
  publish_loop recipients env responses st = (r, st') ->
  ∃ ia n evs,
    st' = cache_update ia n evs st ∧
    Forall quiet evs ∧
    match r with
    | Ok cs =>
        ∃ new,
          cs = responses ++ new ∧
          co_agent_id <$> new = other_recipients env recipients ∧
          Forall (fun c => co_message_context c = publish_context env) new
    | Err _ => True
    end.
Proof.
  induction recipients as [|a rest IH]; intros responses st r st' H;
    simpl in H.
  - injection H as <- <-.
    exists (_instantiated_agents st), (next_uid st), [].
    rewrite cache_update_id. split; [done|]. split; [done|].
    exists []. by rewrite app_nil_r.
  - unfold other_recipients. rewrite filter_cons.
    destruct (decide (p_sender env = Some a)) as [Hs|Hs].
    { destruct (decide (p_sender env ≠ Some a)) as [Hs'|_]; [done|].
      by apply IH. }
    destruct (decide (p_sender env ≠ Some a)) as [_|Hs']; [|done].
    apply bind_inv in H as [([] & st1 & H1 & H)|(e & H1 & ->)].
    2:{ destruct (p_sender env) as [s|]; [|done].
        apply bind_inv in H1 as [(i & st1 & H1 & H)|(e' & H1 & _)]; [done|].
        destruct (_get_agent_frame_eq _ _ _ _ H1) as (ia & n & evs & -> & Hq).
        by eexists _, _, _. }
    assert (∃ ia n evs, st1 = cache_update ia n evs st ∧ Forall quiet evs)
      as (ia & n & evs & -> & Hq).
    { destruct (p_sender env) as [s|].
      - apply bind_inv in H1 as [(i & st2 & H1 & H2)|(e' & H1 & ?)]; [|done].
        injection H2 as <-. by eapply _get_agent_frame_eq.
      - injection H1 as <-.
        exists (_instantiated_agents st), (next_uid st), [].
        by rewrite cache_update_id. }
    apply bind_inv in H as [(i & st2 & H2 & H)|(e & H2 & ->)].
    2:{ destruct (_get_agent_frame_eq _ _ _ _ H2) as (ia' & n' & evs' & -> & Hq').
        rewrite cache_update_cache_update. eexists _, _, _.
        split; [done|]. split; [|done]. by apply Forall_app. }
    destruct (_get_agent_frame_eq _ _ _ _ H2) as (ia' & n' & evs' & -> & Hq').
    apply IH in H as (ia'' & n'' & evs'' & -> & Hq'' & Hr).
    rewrite !cache_update_cache_update.
    eexists _, _, _. split; [done|].
    split; [rewrite !Forall_app; by repeat split|].
    destruct r as [cs|]; [|done].
    destruct Hr as (new & -> & Hids & Hctx).
    eexists (_ :: new). rewrite <- app_assoc. split; [done|].
    split; [simpl; by f_equal|]. by constructor.
Qed.

Lemma run_coroutines_spec message cs : ∀ st,
  run_coroutines message cs st
  = (Ok (coroutine_outcomes message cs),
     set_trace (trace st ++ on_message_events message cs) st).
Proof.
  induction cs as [|c cs IH]; intros st; simpl.
  - unfold pure. by rewrite set_trace_nil.
  - munfold. simpl. rewrite IH. simpl.
    rewrite set_trace_set_trace, <- app_assoc. done.
Qed.

Lemma gather_spec message cs st :
  gather message cs st
  = (match first_exception (coroutine_outcomes message cs) with
     | Some e => Err e
     | None => Ok tt
     end,
     set_trace (trace st ++ on_message_events message cs) st).
Proof.
  unfold gather, bind. rewrite run_coroutines_spec.
  by destruct (first_exception _).
Qed.

(** [_process_publish] is its loop, the invocations [gather] starts,
    the error log, and [task_done]. *)
Lemma _process_publish_eq env st r1 st1 :
  publish_loop (subscribed_recipients st (p_topic_id env)) env [] st
  = (r1, st1) ->
  _process_publish env st
  = Queue_task_done
      (set_trace (trace st1 ++ after_publish_loop (p_message env) r1) st1).
Proof.
  intros H. unfold _process_publish, try_finally, try_except.
  unfold bind at 1. rewrite get_subscribed_recipients_eq.
  unfold bind at 1. rewrite H.
  destruct r1 as [cs|e]; simpl.
  - rewrite gather_spec.
    destruct (first_exception _) as [e|]; simpl.
    + unfold publish_log.
      destruct (decide (e = CancelledError)); munfold; simpl;
        rewrite ?set_trace_set_trace, ?app_nil_r, <- ?app_assoc;
        by destruct (Queue_task_done _) as [[[]|?] ?].
    + rewrite app_nil_r. by destruct (Queue_task_done _) as [[[]|?] ?].
  - unfold publish_log.
    destruct (decide (e = CancelledError)); munfold; simpl;
      rewrite ?set_trace_nil; by destruct (Queue_task_done _) as [[[]|?] ?].
Qed.

Lemma Queue_task_done_outstanding st :
  0 < _unfinished_tasks (_message_queue st) ->
  Queue_task_done st
  = (Ok tt,
     set_trace (trace st ++ [EvTaskDone])
       (set_message_queue
          (mkQueue (q_items (_message_queue st))
             (pred (_unfinished_tasks (_message_queue st)))
             (_is_shutdown (_message_queue st))) st)).
Proof.
  intros H. unfold Queue_task_done.
  destruct (_unfinished_tasks (_message_queue st)); [lia|done].
Qed.

(** [task_done] adds at most its own event to the trace and leaves
    cache and futures alone. *)
Lemma Queue_task_done_frame st :
  ∃ td q,
    (Queue_task_done st).2
    = set_trace (trace st ++ td) (set_message_queue q st) ∧
    (td = [] ∨ td = [EvTaskDone]).
Proof.
  unfold Queue_task_done.
  destruct (_unfinished_tasks (_message_queue st)) eqn:E; simpl.
  - exists [], (_message_queue st). split; [state_eq st|by left].
  - eexists [EvTaskDone], _. split; [done|by right].
Qed.

Lemma other_recipients_not_sender env recipients a :
  a ∈ other_recipients env recipients -> p_sender env ≠ Some a.
Proof.
  unfold other_recipients. rewrite list_elem_of_filter. by intros [? _].
Qed.

Lemma invoked_app a evs1 evs2 :
  invoked a (evs1 ++ evs2) -> invoked a evs1 ∨ invoked a evs2.
Proof.
  intros (m & ctx & H). apply elem_of_app in H as [H|H];
    [left|right]; by exists m, ctx.
Qed.

Lemma quiet_not_invoked a evs : Forall quiet evs -> ¬ invoked a evs.
Proof.
  intros Hq (m & ctx & H). rewrite Forall_forall in Hq.
  by destruct (Hq _ H) as [? _].
Qed.

Lemma publish_log_not_invoked a e : ¬ invoked a (publish_log e).
Proof.
  unfold publish_log, publish_error_log. intros (m & ctx & H).
  destruct (decide _); set_solver.
Qed.

Lemma invoked_on_message_events a message cs :
  invoked a (on_message_events message cs) -> a ∈ co_agent_id <$> cs.
Proof.
  intros (m & ctx & H). unfold on_message_events in H.
  apply list_elem_of_fmap in H as (c & [= -> _ _] & Hc).
  apply list_elem_of_fmap. by exists c.
Qed.

(** The trace of [_process_publish]: quiet events of the loop, the
    invocations and the log, then [task_done]. *)
Lemma _process_publish_decompose env st :
  ∃ r1 ia n evs td,
    publish_loop (subscribed_recipients st (p_topic_id env)) env [] st
    = (r1, cache_update ia n evs st) ∧
    Forall quiet evs ∧
    (td = [] ∨ td = [EvTaskDone]) ∧
    trace (_process_publish env st).2
    = trace st ++ evs ++ after_publish_loop (p_message env) r1 ++ td ∧
    _instantiated_agents (_process_publish env st).2 = ia ∧
    futures (_process_publish env st).2 = futures st ∧
    match r1 with
    | Ok cs =>
        co_agent_id <$> cs
        = other_recipients env (subscribed_recipients st (p_topic_id env)) ∧
        Forall (fun c => co_message_context c = publish_context env) cs
    | Err _ => True
    end.
Proof.
  destruct (publish_loop (subscribed_recipients st (p_topic_id env)) env [] st)
    as [r1 st1] eqn:Hloop.
  rewrite (_process_publish_eq _ _ _ _ Hloop).
  apply publish_loop_spec in Hloop as (ia & n & evs & -> & Hq & Hr).
  destruct (Queue_task_done_frame
              (set_trace
                 (trace (cache_update ia n evs st) ++
                  after_publish_loop (p_message env) r1)
                 (cache_update ia n evs st))) as (td & q & -> & Htd).
  exists r1, ia, n, evs, td. simpl. rewrite <- !app_assoc.
  repeat split; try done.
  destruct r1 as [cs|]; [|done]. by destruct Hr as (new & -> & ? & ?).
Qed.

(** Whoever [_process_publish] invokes is a matched recipient other
    than the sender. *)
Lemma after_publish_loop_invoked a message r1 :
  invoked a (after_publish_loop message r1) ->
  ∃ cs, r1 = Ok cs ∧ a ∈ co_agent_id <$> cs.
Proof.
  intros Ha. destruct r1 as [cs|e]; simpl in Ha.
  2:{ by apply publish_log_not_invoked in Ha. }
  exists cs. split; [done|].
  apply invoked_app in Ha as [Ha|Ha].
  - by apply invoked_on_message_events in Ha.
  - destruct (first_exception _); [by apply publish_log_not_invoked in Ha|].
    destruct Ha as (m & ctx & Ha). set_solver.
Qed.

Lemma task_done_not_invoked a td :
  td = [] ∨ td = [EvTaskDone] -> ¬ invoked a td.
Proof. intros [->| ->] (m & ctx & H); set_solver. Qed.

Lemma _get_agent_of_resolve a ag st :
  resolve st a = Ok ag ->
  ∃ i st',
    _get_agent a st = (Ok i, st') ∧ instance_agent i = ag ∧
    _instantiated_agents st' !! a = Some i.
Proof.
  intros Hres. unfold resolve in Hres.
  destruct (_instantiated_agents st !! a) as [i|] eqn:H1.
  { rewrite (_get_agent_cached _ _ _ H1). simplify_eq. by exists i, st. }
  destruct (_agent_factories st !! aid_type a) as [fac|] eqn:H2; [|done].
  rewrite (_get_agent_created _ _ _ _ H1 H2 Hres).
  eexists _, _. split; [done|]. split; [done|].
  unfold cached. simpl. by rewrite lookup_insert_eq.
Qed.

Lemma resolve_kept__get_agent a st r st' :
  _get_agent a st = (r, st') -> resolve_kept st st'.
Proof.
  intros H.
  pose proof (respected__get_agent resolve_kept resolve_kept_respected a st)
    as Hk.
  by rewrite H in Hk.
Qed.

Lemma cache_kept__get_agent a st r st' :
  _get_agent a st = (r, st') -> cache_kept st st'.
Proof.
  intros H.
  pose proof (respected__get_agent cache_kept cache_kept_respected a st) as Hk.
  by rewrite H in Hk.
Qed.

Lemma cache_kept_publish_loop recipients env responses st r st' :
  publish_loop recipients env responses st = (r, st') -> cache_kept st st'.
Proof.
  intros H.
  pose proof (preserves_publish_loop cache_kept
                (respects_trace _ cache_kept_respected)
                (respects_uid _ cache_kept_respected)
                (respects_cache _ cache_kept_respected)
                recipients env responses st) as Hk.
  by rewrite H in Hk.
Qed.

(** When the sender and the other recipients resolve, the loop
    completes. *)
Lemma publish_loop_ok env recipients : ∀ responses st,
  (∀ S, p_sender env = Some S -> ∃ ag, resolve st S = Ok ag) ->
  Forall (fun a => ∃ ag, resolve st a = Ok ag)
    (other_recipients env recipients) ->
  ∃ cs st', publish_loop recipients env responses st = (Ok cs, st').
Proof.
  induction recipients as [|a rest IH]; intros responses st HS Hall; simpl.
  - by eexists _, _.
  - unfold other_recipients in Hall. rewrite filter_cons in Hall.
    destruct (decide (p_sender env = Some a)) as [Hs|Hs].
    { destruct (decide (p_sender env ≠ Some a)) as [Hs'|_]; [done|].
      by apply IH. }
    destruct (decide (p_sender env ≠ Some a)) as [_|Hs']; [|done].
    apply Forall_cons in Hall as [[ag Ha] Hall].
    assert (∃ st1,
      match p_sender env with
      | Some sender => let* sender_agent := _get_agent sender in pure ()
      | None => pure ()
      end st = (Ok tt, st1) ∧ resolve_kept st st1) as (st1 & E1 & Hk1).
    { destruct (p_sender env) as [S|] eqn:ES.
      - destruct (HS S eq_refl) as [agS HagS].
        destruct (_get_agent_of_resolve _ _ _ HagS) as (i & st1 & E & _ & _).
        exists st1. unfold bind, pure. rewrite E.
        split; [done|]. by eapply resolve_kept__get_agent.
      - exists st. split; [done|]. reflexivity. }
    unfold bind at 1. rewrite E1.
    destruct (_get_agent_of_resolve _ _ _ (Hk1 _ _ Ha))
      as (i & st2 & E2 & _ & _).
    unfold bind at 1. rewrite E2.
    assert (resolve_kept st st2) as Hk2.
    { etrans; [exact Hk1|]. by eapply resolve_kept__get_agent. }
    apply IH.
    + intros S HSe. destruct (HS S HSe) as [agS HagS]. eauto.
    + eapply Forall_impl; [exact Hall|]. intros b [agb Hb]. eauto.
Qed.

(** As soon as a recipient other than the sender is met, the sender
    is resolved through the cache. *)
Lemma publish_loop_caches_sender env S ag recipients :
  ∀ responses st r st',
  p_sender env = Some S ->
  other_recipients env recipients ≠ [] ->
  resolve st S = Ok ag ->
  publish_loop recipients env responses st = (r, st') ->
  ∃ i, _instantiated_agents st' !! S = Some i ∧ instance_agent i = ag.
Proof.
  induction recipients as [|a rest IH];
    intros responses st r st' HS Hne Hres H; simpl in H; [done|].
  unfold other_recipients in Hne. rewrite filter_cons in Hne.
  destruct (decide (p_sender env = Some a)) as [Hs|Hs].
  { destruct (decide (p_sender env ≠ Some a)) as [Hs'|_]; [done|]. eauto. }
  rewrite HS in H.
  destruct (_get_agent_of_resolve _ _ _ Hres) as (i & st1 & E & Hi & Hc).
  apply bind_inv in H as [([] & st1' & H1 & H)|(e & H1 & ->)].
  2:{ unfold bind, pure in H1. by rewrite E in H1. }
  unfold bind, pure in H1. rewrite E in H1. injection H1 as <-.
  exists i. split; [|done].
  apply bind_inv in H as [(i' & st2 & H2 & H)|(e & H2 & ->)].
  - eapply cache_kept_publish_loop; [exact H|].
    by eapply cache_kept__get_agent.
  - by eapply cache_kept__get_agent.
Qed.

(** With a sender that is neither cached nor of a registered type,
    the loop ends with the lookup error at the first recipient other
    than the sender, before anything has changed. *)
Lemma publish_loop_unknown_sender env S recipients : ∀ responses st,
  p_sender env = Some S ->
  other_recipients env recipients ≠ [] ->
  _instantiated_agents st !! S = None ->
  _agent_factories st !! aid_type S = None ->
  publish_loop recipients env responses st
  = (Err (LookupError ("Agent with name " +:+ aid_type S +:+ " not found.")),
     st).
Proof.
  induction recipients as [|a rest IH];
    intros responses st HS Hne H1 H2; simpl; [done|].
  unfold other_recipients in Hne. rewrite filter_cons in Hne.
  destruct (decide (p_sender env = Some a)) as [Hs|Hs].
  { destruct (decide (p_sender env ≠ Some a)) as [Hs'|_]; [done|]. eauto. }
  rewrite HS. unfold bind.
  by rewrite (_get_agent_unregistered _ _ H1 H2).
Qed.

(** The events of [_process_publish] never include an invocation of
    the sender. *)
Lemma _process_publish_spares_sender env st S :
  p_sender env = Some S ->
  ∃ evs,
    trace (_process_publish env st).2 = trace st ++ evs ∧ ¬ invoked S evs.
Proof.
  intros HS.
  destruct (_process_publish_decompose env st)
    as (r1 & ia & n & evs & td & Hloop & Hq & Htd & Htr & _ & _ & Hr).
  exists (evs ++ after_publish_loop (p_message env) r1 ++ td).
  split; [done|].
  intros Ha.
  apply invoked_app in Ha as [Ha|Ha]; [by apply quiet_not_invoked in Ha|].
  apply invoked_app in Ha as [Ha|Ha];
    [|by apply task_done_not_invoked in Ha].
  apply after_publish_loop_invoked in Ha as (cs & -> & Ha).
  destruct Hr as [Hids _]. rewrite Hids in Ha.
  by apply other_recipients_not_sender in Ha.
Qed.

(** ** Resolution along the loop *)

#[global] Instance resolve_same_preorder : PreOrder resolve_same.
Proof.
  split; [by intros st a|].
  intros x y z H1 H2 a. unfold resolve_same in *. by rewrite H2, H1.
Qed.

Lemma resolve_same_trace st evs :
  resolve_same st (set_trace (trace st ++ evs) st).
Proof. intros a. by destruct st. Qed.

Lemma resolve_same_uid st n : resolve_same st (set_next_uid n st).
Proof. intros a. by destruct st. Qed.

Lemma resolve_same_cache st a i :
  _instantiated_agents st !! a = None ->
  resolve st a = Ok (instance_agent i) ->
  resolve_same st
    (set_instantiated_agents (<[a := i]> (_instantiated_agents st)) st).
Proof.
  intros Hnone Hres a'. unfold resolve in *. simpl.
  destruct (decide (a = a')) as [<-|Hne].
  - rewrite lookup_insert_eq, Hnone in *. congruence.
  - by rewrite lookup_insert_ne.
Qed.

Lemma resolve_same__get_agent a st r st' :
  _get_agent a st = (r, st') -> resolve_same st st'.
Proof.
  intros H.
  pose proof (preserves__get_agent resolve_same resolve_same_trace
                resolve_same_uid resolve_same_cache a st) as Hk.
  by rewrite H in Hk.
Qed.

Lemma _get_agent_Ok_resolve a st i st' :
  _get_agent a st = (Ok i, st') -> resolve st a = Ok (instance_agent i).
Proof.
  intros H. pose proof (_get_agent_resolve a st) as Hr. by rewrite H in Hr.
Qed.

(** When the loop of [_process_publish] completes, the recipients
    other than the sender resolved, and so did the sender if there is
    such a recipient. *)
Lemma publish_loop_Ok_resolves env recipients : ∀ responses st cs st',
  publish_loop recipients env responses st = (Ok cs, st') ->
  Forall (fun a => ∃ ag, resolve st a = Ok ag)
    (other_recipients env recipients) ∧
  (other_recipients env recipients ≠ [] ->
   ∀ S, p_sender env = Some S -> ∃ ag, resolve st S = Ok ag).
Proof.
  induction recipients as [|a rest IH]; intros responses st cs st' H;
    simpl in H.
  - by split.
  - unfold other_recipients. rewrite filter_cons.
    destruct (decide (p_sender env = Some a)) as [Hs|Hs].
    { destruct (decide (p_sender env ≠ Some a)) as [Hs'|_]; [done|].
      by eapply IH. }
    destruct (decide (p_sender env ≠ Some a)) as [_|Hs']; [|done].
    apply bind_inv in H as [([] & st1 & H1 & H)|(e & H1 & ?)]; [|done].
    apply bind_inv in H as [(i & st2 & H2 & H)|(e & H2 & ?)]; [|done].
    assert (resolve_same st st1 ∧
            ∀ S, p_sender env = Some S -> ∃ ag, resolve st S = Ok ag)
      as [Hk1 HS].
    { destruct (p_sender env) as [S|].
      - apply bind_inv in H1 as [(iS & st1' & H1 & H1')|(e' & H1 & ?)];
          [|done].
        injection H1' as <-. split; [by eapply resolve_same__get_agent|].
        intros S' [= <-]. eexists. by eapply _get_agent_Ok_resolve.
      - injection H1 as <-. split; [done|]. by intros S' ?. }
    pose proof (resolve_same__get_agent _ _ _ _ H2) as Hk2.
    apply IH in H as [Hall _].
    split; [|done].
    constructor.
    + exists (instance_agent i). rewrite <- (Hk1 a).
      by eapply _get_agent_Ok_resolve.
    + eapply Forall_impl; [exact Hall|]. intros b [ag Hb].
      exists ag. by rewrite <- (Hk1 b), <- (Hk2 b).
Qed.

Lemma quiet_no_on_message evs :
  Forall quiet evs -> filter is_on_message evs = [].
Proof.
  induction 1 as [|ev evs [Hq _] _ IH]; [done|].
  rewrite filter_cons. destruct (decide (is_on_message ev)) as [Ht|]; [|done].
  rewrite Hq in Ht. done.
Qed.

(** With no recipient other than the sender, the loop resolves
    nobody. *)
Lemma publish_loop_no_others env recipients : ∀ responses st,
  other_recipients env recipients = [] ->
  publish_loop recipients env responses st = (Ok responses, st).
Proof.
  induction recipients as [|a rest IH]; intros responses st Hnil; simpl;
    [done|].
  unfold other_recipients in Hnil. rewrite filter_cons in Hnil.
  destruct (decide (p_sender env = Some a)) as [Hs|Hs].
  - destruct (decide (p_sender env ≠ Some a)) as [Hs'|_]; [done|].
    by apply IH.
  - by destruct (decide (p_sender env ≠ Some a)).
Qed.

Lemma other_recipients_nil env S recipients :
  p_sender env = Some S ->
  (∀ a, a ∈ recipients -> a = S) ->
  other_recipients env recipients = [].
Proof.
  intros HS. induction recipients as [|a rest IH]; intros Hall; [done|].
  unfold other_recipients. rewrite filter_cons.
  destruct (decide (p_sender env ≠ Some a)) as [Hne|_].
  - destruct Hne. rewrite HS. f_equal. symmetry. apply Hall.
    apply elem_of_cons. by left.
  - apply IH. intros b Hb. apply Hall. apply elem_of_cons. by right.
Qed.

(** C4, counterexample: ["b"] is subscribed and is not the sender, but
    the sender's id is of a type nobody registered: resolving the
    sender fails inside the loop and ["b"] is not invoked. *)
Lemma unresolved_sender_blocks_recipients :
  subscribed_recipients stranger_published (Topic "T") = [subscriber_id] ∧
  subscriber_id ≠ stranger_id ∧
  trace (run_dispatcher 1 stranger_published)
  = [EvPut (EPublish (mkPublish (VStr "x") 0 (Some stranger_id) (Topic "T")
                        "uuid"));
     EvLogError "Error processing publish message";
     EvTaskDone] ∧
  filter is_on_message (trace (run_dispatcher 1 stranger_published)) = [].
Proof. by vm_compute. Qed.

(** C4, amended: the sender of a publish is never among the agents
    whose [on_message] is invoked for it, whatever the subscription
    manager returns.  When the sender and every other matched
    recipient resolve through [_get_agent], each of these other
    recipients is invoked with the message of the envelope; when the
    sender or one of them fails to resolve, nobody's [on_message] is
    invoked. *)
Theorem publish_skips_sender env st S :
  p_sender env = Some S ->
  ∃ evs,
    trace (_process_publish env st).2 = trace st ++ evs ∧
    ¬ invoked S evs ∧
    (Forall (fun a => ∃ ag, resolve st a = Ok ag)
       (S :: other_recipients env
               (subscribed_recipients st (p_topic_id env))) ->
     ∀ a, a ∈ subscribed_recipients st (p_topic_id env) -> a ≠ S ->
          EvOnMessage a (p_message env) (publish_context env) ∈ evs) ∧
    (Exists (fun a => ∃ e, resolve st a = Err e)
       (S :: other_recipients env
               (subscribed_recipients st (p_topic_id env))) ->
     filter is_on_message evs = []).
Proof.
  intros HS.
  destruct (_process_publish_decompose env st)
    as (r1 & ia & n & evs & td & Hloop & Hq & Htd & Htr & _ & _ & Hr).
  exists (evs ++ after_publish_loop (p_message env) r1 ++ td).
  split; [done|]. split; [|split].
  - intros Ha.
    apply invoked_app in Ha as [Ha|Ha]; [by apply quiet_not_invoked in Ha|].
    apply invoked_app in Ha as [Ha|Ha];
      [|by apply task_done_not_invoked in Ha].
    apply after_publish_loop_invoked in Ha as (cs & -> & Ha).
    destruct Hr as [Hids _]. rewrite Hids in Ha.
    by apply other_recipients_not_sender in Ha.
  - intros Hall a Ha HaS.
    apply Forall_cons in Hall as [HresS Hall].
    destruct (publish_loop_ok env
                (subscribed_recipients st (p_topic_id env)) [] st)
      as (cs & st' & Hok); [| |].
    { intros S' HS'. rewrite HS in HS'. by simplify_eq. }
    { done. }
    rewrite Hok in Hloop. injection Hloop as <- _.
    destruct Hr as [Hids Hctx].
    assert (a ∈ co_agent_id <$> cs) as Hin.
    { rewrite Hids. unfold other_recipients. apply list_elem_of_filter.
      split; [|done]. rewrite HS. congruence. }
    apply list_elem_of_fmap in Hin as (c & -> & Hc).
    rewrite Forall_forall in Hctx. pose proof (Hctx c Hc) as Hcc.
    rewrite !elem_of_app. right. left. simpl. rewrite elem_of_app. left.
    unfold on_message_events. apply list_elem_of_fmap.
    exists c. by rewrite Hcc.
  - intros Hex. rewrite !filter_app, (quiet_no_on_message _ Hq). simpl.
    assert (filter is_on_message td = []) as ->
      by (by destruct Htd as [-> | ->]).
    rewrite app_nil_r.
    destruct r1 as [cs|e]; simpl.
    2:{ unfold publish_log, publish_error_log. by destruct (decide _). }
    destruct (publish_loop_Ok_resolves _ _ _ _ _ _ Hloop) as [Hall HresS].
    destruct Hr as [Hids _].
    apply Exists_cons in Hex as [[e He]|Hex].
    + destruct (decide (other_recipients env
                          (subscribed_recipients st (p_topic_id env)) = []))
        as [Hnil|Hne].
      * rewrite Hnil in Hids. apply fmap_nil_inv in Hids. by subst cs.
      * destruct (HresS Hne S HS) as [ag Hag]. congruence.
    + apply Exists_exists in Hex as (a & Ha & e & He).
      rewrite Forall_forall in Hall. destruct (Hall a Ha) as [ag Hag].
      congruence.
Qed.

Lemma publish_skips_sender_witness :
  ∃ evs,
    trace (_process_publish fanout_envelope fanout_published).2
    = trace fanout_published ++ evs ∧
    ¬ invoked publisher_id evs ∧
    EvOnMessage subscriber_id (VStr "x") (publish_context fanout_envelope)
    ∈ evs.
Proof.
  destruct (publish_skips_sender fanout_envelope fanout_published
              publisher_id eq_refl) as (evs & H1 & H2 & H3 & _).
  exists evs. split; [exact H1|]. split; [exact H2|].
  apply H3.
  - repeat constructor; eexists; vm_compute; reflexivity.
  - vm_compute. apply list_elem_of_In. right. left. reflexivity.
  - discriminate.
Defined.

(** C10, counterexample: a publish whose only matched recipient is
    its sender, and a publish nobody is subscribed to, by a sender of
    an unregistered type.  In the first the sender resolves but is
    not instantiated; in the second nothing is logged: the sender is
    looked up only inside the loop, for a recipient other than
    itself. *)
Lemma publish_without_other_recipient_ignores_sender :
  (subscribed_recipients self_published (Topic "T") = [subscriber_id] ∧
   resolve self_published subscriber_id = Ok echo_agent ∧
   _instantiated_agents (run_dispatcher 1 self_published) = ∅ ∧
   trace (run_dispatcher 1 self_published)
   = [EvPut (EPublish (mkPublish (VStr "x") 0 (Some subscriber_id)
                         (Topic "T") "uuid"));
      EvTaskDone]) ∧
  (_agent_factories unheard_published !! aid_type stranger_id = None ∧
   trace (run_dispatcher 1 unheard_published)
   = [EvPut (EPublish (mkPublish (VStr "x") 0 (Some stranger_id)
                         (Topic "T") "uuid"));
      EvTaskDone]).
Proof. by vm_compute. Qed.

(** C10, amended: the delivery of a publish whose sender is set and
    which is outstanding on the queue.  When a matched recipient other
    than the sender exists, the sender is resolved through the cache:
    if it resolves it is cached afterwards, though its [on_message] is
    not invoked; if it is not cached and its type is not registered,
    the lookup error is caught and logged, [task_done] is performed
    and nobody's [on_message] is invoked.  When there is no such
    recipient, the sender is not looked up: nothing is cached or
    logged, and [task_done] is performed. *)
Theorem publish_resolves_sender env st S :
  p_sender env = Some S ->
  0 < _unfinished_tasks (_message_queue st) ->
  ∃ r st' evs,
    _process_publish env st = (r, st') ∧
    trace st' = trace st ++ evs ∧
    ¬ invoked S evs ∧
    ((∃ a, a ∈ subscribed_recipients st (p_topic_id env) ∧ a ≠ S) ->
     (∀ ag, resolve st S = Ok ag ->
            ∃ i, _instantiated_agents st' !! S = Some i ∧
                 instance_agent i = ag) ∧
     (_instantiated_agents st !! S = None ->
      _agent_factories st !! aid_type S = None ->
      r = Ok tt ∧
      evs = publish_error_log ++ [EvTaskDone] ∧
      filter is_on_message evs = [] ∧
      _instantiated_agents st' = _instantiated_agents st ∧
      _unfinished_tasks (_message_queue st')
      = pred (_unfinished_tasks (_message_queue st)))) ∧
    ((∀ a, a ∈ subscribed_recipients st (p_topic_id env) -> a = S) ->
     r = Ok tt ∧
     evs = [EvTaskDone] ∧
     _instantiated_agents st' = _instantiated_agents st ∧
     _unfinished_tasks (_message_queue st')
     = pred (_unfinished_tasks (_message_queue st))).
Proof.
  intros HS Hout.
  destruct (_process_publish_spares_sender env st S HS) as (evs & Htr & Hinv).
  destruct (_process_publish env st) as [r st'] eqn:E.
  exists r, st', evs. split; [done|]. split; [done|]. split; [done|]. split.
  - intros (a & Ha & HaS).
    assert (other_recipients env (subscribed_recipients st (p_topic_id env))
            ≠ []) as Hne.
    { intros En. assert (a ∈ other_recipients env
                           (subscribed_recipients st (p_topic_id env))) as Hin.
      { apply list_elem_of_filter. split; [|done]. rewrite HS. congruence. }
      rewrite En in Hin. by apply not_elem_of_nil in Hin. }
    split.
    + intros ag Hres.
      destruct (_process_publish_decompose env st)
        as (r1 & ia & n & evs' & td & Hloop & _ & _ & _ & Hia & _ & _).
      rewrite E in Hia. simpl in Hia.
      destruct (publish_loop_caches_sender env S ag _ [] st _ _ HS Hne Hres
                  Hloop) as (i & Hi & Hag).
      exists i. split; [|done]. by rewrite Hia.
    + intros Hmiss Hunreg.
      pose proof (publish_loop_unknown_sender env S _ [] st HS Hne Hmiss
                    Hunreg) as Hloop.
      rewrite (_process_publish_eq _ _ _ _ Hloop) in E.
      rewrite Queue_task_done_outstanding in E by done.
      injection E as <- <-. simpl in *.
      rewrite <- app_assoc in Htr. apply app_inv_head in Htr. subst evs.
      done.
  - intros Hall.
    assert (other_recipients env (subscribed_recipients st (p_topic_id env))
            = []) as Hnil.
    { by eapply other_recipients_nil. }
    pose proof (publish_loop_no_others env _ [] st Hnil) as Hloop.
    rewrite (_process_publish_eq _ _ _ _ Hloop) in E.
    rewrite Queue_task_done_outstanding in E by done.
    injection E as <- <-. simpl in *.
    rewrite ?app_nil_r, <- ?app_assoc in Htr. apply app_inv_head in Htr.
    subst evs. done.
Qed.

Lemma publish_resolves_sender_witness :
  ∃ r st' evs,
    _process_publish (mkPublish (VStr "x") 0 (Some stranger_id) (Topic "T")
                        "uuid") stranger_published = (r, st') ∧
    trace st' = trace stranger_published ++ evs ∧
    r = Ok tt ∧ evs = publish_error_log ++ [EvTaskDone].
Proof.
  destruct (publish_resolves_sender
              (mkPublish (VStr "x") 0 (Some stranger_id) (Topic "T") "uuid")
              stranger_published stranger_id)
    as (r & st' & evs & H1 & H2 & _ & H3 & _).
  - reflexivity.
  - vm_compute. lia.
  - exists r, st', evs. split; [exact H1|]. split; [exact H2|].
    destruct H3 as (_ & H3).
    { exists subscriber_id. split; [|discriminate].
      vm_compute. apply list_elem_of_In. left. reflexivity. }
    destruct H3 as (H3 & H4 & _); [reflexivity|reflexivity|].
    split; [exact H3|exact H4].
Defined.

(** ** Cancellation *)

Lemma cancel_future_lookup g fs f :
  cancel_future g fs !! f = fs !! f ∨
  (g = f ∧ fs !! f = Some FPending ∧ cancel_future g fs !! f = Some FCancelled).
Proof.
  unfold cancel_future.
  destruct (fs !! g) as [[| | |]|] eqn:E; auto.
  destruct (decide (g = f)) as [->|Hne].
  - right. split; [done|]. split; [done|].
    apply list_lookup_insert_eq. by eapply lookup_lt_Some.
  - left. by apply list_lookup_insert_ne.
Qed.

Lemma cancel_future_pending f fs :
  fs !! f = Some FPending -> cancel_future f fs !! f = Some FCancelled.
Proof.
  intros H. unfold cancel_future. rewrite H.
  apply list_lookup_insert_eq. by eapply lookup_lt_Some.
Qed.

Lemma foldr_cancel_future_lookup l fs f :
  foldr cancel_future fs l !! f = fs !! f ∨
  (fs !! f = Some FPending ∧ foldr cancel_future fs l !! f = Some FCancelled).
Proof.
  induction l as [|g l IH]; simpl; [by left|].
  destruct (cancel_future_lookup g (foldr cancel_future fs l) f)
    as [E|(-> & E1 & E2)].
  - rewrite E. exact IH.
  - destruct IH as [IH|[IH1 IH2]]; [|congruence].
    right. split; [congruence|done].
Qed.

Lemma foldr_cancel_future_linked l fs f :
  f ∈ l -> fs !! f = Some FPending ->
  foldr cancel_future fs l !! f = Some FCancelled.
Proof.
  induction l as [|g l IH]; intros Hin Hp; [by apply not_elem_of_nil in Hin|].
  simpl.
  destruct (foldr_cancel_future_lookup l fs f) as [E|[_ E]].
  - destruct (decide (g = f)) as [->|Hne].
    + apply cancel_future_pending. congruence.
    + apply elem_of_cons in Hin as [->|Hin]; [done|].
      specialize (IH Hin Hp). congruence.
  - destruct (cancel_future_lookup g (foldr cancel_future fs l) f)
      as [E'|(_ & E' & _)]; congruence.
Qed.

(** [send_message] to a registered type on a live queue. *)
Lemma send_message_registered m recipient sender tok st :
  is_Some (_agent_factories st !! aid_type recipient) ->
  _is_shutdown (_message_queue st) = false ->
  send_message m recipient sender (Some tok) st
  = (Ok (length (futures st)),
     exec (link_future tok (length (futures st)))
       (send_enqueued (mkSend m sender recipient (length (futures st)) tok) st)).
Proof.
  intros Hreg Hlive. unfold send_message, create_future, Queue_put.
  munfold. simpl. destruct (decide _) as [_|Hn]; [|done].
  simpl. by rewrite Hlive.
Qed.

(** The future of a send whose token is cancelled, before or after
    the call, is cancelled. *)
Lemma send_then_cancel_cancelled m recipient sender tok t st st1 f :
  tokens st !! tok = Some t ->
  send_message m recipient sender (Some tok) st = (Ok f, st1) ->
  is_Some (_agent_factories st !! aid_type recipient) ->
  _is_shutdown (_message_queue st) = false ->
  futures (exec (cancel tok) st1) !! f = Some FCancelled.
Proof.
  intros Ht Hsend Hreg Hlive.
  rewrite send_message_registered in Hsend by done.
  injection Hsend as <- <-.
  assert ((futures st ++ [FPending]) !! length (futures st) = Some FPending)
    as Hp by (by apply list_lookup_middle).
  unfold exec, link_future, cancel, modify, send_enqueued. simpl. rewrite Ht.
  destruct (tok_cancelled t) eqn:Ec; simpl.
  - rewrite Ht, Ec. simpl. by apply cancel_future_pending.
  - rewrite list_lookup_insert_eq by (by eapply lookup_lt_Some). simpl.
    apply foldr_cancel_future_linked; [|done].
    apply elem_of_app. right. by apply list_elem_of_singleton.
Qed.

Lemma settled_kept__process_send env st : settled_kept st (_process_send env st).2.
Proof.
  apply (preserves__process_send settled_kept);
    apply settled_kept_respected.
Qed.

(** [_process_send] invokes the recipient as soon as it resolves;
    nothing in it looks at the token or at the future before. *)
Lemma _process_send_invokes env st ag :
  resolve st (s_recipient env) = Ok ag ->
  ∃ evs evs',
    trace (_process_send env st).2
    = trace st ++ evs ++
      EvOnMessage (s_recipient env) (s_message env)
        (send_context (s_sender env) (s_cancellation_token env)) :: evs' ∧
    Forall quiet evs.
Proof.
  intros Hres.
  destruct (_get_agent_of_resolve _ _ _ Hres) as (i & st1 & E & Hi & _).
  destruct (_get_agent_frame_eq _ _ _ _ E) as (ia & n & evs & -> & Hq).
  unfold _process_send. cbv zeta.
  match goal with
  | |- context [bind (try_except (bind (_get_agent ?r) ?body) ?H) ?K] =>
      assert (bind (try_except (bind (_get_agent r) body) H) K st
              = bind (try_except (body i) H) K (cache_update ia n evs st))
        as -> by (unfold bind, try_except; by rewrite E)
  end.
  match goal with
  | |- context [bind (try_except (bind (emit ?ev) ?k) ?H) ?K ?s] =>
      change (bind (try_except (bind (emit ev) k) H) K s)
        with (bind (try_except (k tt) H) K
                (set_trace (trace s ++ [ev]) s))
  end.
  match goal with
  | |- context [trace (?c ?s).2] =>
      assert (preserves trace_extends c) as P
  end.
  { respects trace_extends_respected. }
  match goal with
  | |- context [trace (?c ?s).2] => destruct (P s) as [evs' ->]
  end.
  exists evs, evs'. split; [|done]. simpl. by rewrite <- !app_assoc.
Qed.

(** C6, counterexample: the token of a send to the echo agent is
    cancelled before the dispatcher runs.  The handle is cancelled,
    but the dispatcher delivers the envelope all the same: the agent's
    [on_message] is invoked, and its reply is thrown away. *)
Lemma cancelled_send_is_delivered :
  let st := run_dispatcher 2 cancelled_sent in
  await_future 0 cancelled_sent = Some (Err CancelledError) ∧
  await_future 0 st = Some (Err CancelledError) ∧
  filter is_on_message (trace st)
  = [EvOnMessage echo_id (VStr "hi") (send_context None 0)].
Proof. by vm_compute. Qed.

(** ** Send delivery *)

(** Closing a leaf of a delivery: the final state is explicit. *)
Ltac delivered_leaf :=
  unfold delivered; simpl;
  repeat match goal with |- _ ∧ _ => split end; try done;
  try (intros ? ?; rewrite ?list_lookup_insert_ne by congruence; done);
  first
    [ exists [], 0; simpl; rewrite ?app_nil_r; repeat split; (done || lia)
    | exists [], 1; simpl; rewrite ?app_nil_r; repeat split; (done || lia)
    | eexists [_], 1; simpl; repeat split;
      [done || lia .. | by repeat constructor]
    | eexists [_], 0; simpl; repeat split;
      [done || lia .. | by repeat constructor] ].

Lemma _process_response_delivered env st :
  delivered (EResponse env) st (_process_response env st).2.
Proof.
  unfold _process_response, Queue_task_done. munfold.
  destruct (_unfinished_tasks (_message_queue st)) eqn:Eu; simpl.
  - delivered_leaf.
  - case_bool_decide; simpl; [delivered_leaf|].
    destruct (futures st !! r_future env) as [[| | |]|] eqn:Ef; simpl;
      delivered_leaf.
Qed.

Lemma _process_publish_delivered env st :
  delivered (EPublish env) st (_process_publish env st).2.
Proof.
  destruct (publish_loop (subscribed_recipients st (p_topic_id env)) env [] st)
    as [r1 st1] eqn:Hloop.
  rewrite (_process_publish_eq _ _ _ _ Hloop).
  apply publish_loop_spec in Hloop as (ia & n & evs & -> & _ & _).
  unfold Queue_task_done, cache_update. simpl.
  destruct (_unfinished_tasks (_message_queue st)) eqn:Eu; simpl;
    delivered_leaf.
Qed.

Lemma _process_send_delivered env st :
  delivered (ESend env) st (_process_send env st).2.
Proof.
  destruct (_get_agent (s_recipient env) st) as [ra st1] eqn:E.
  destruct (_get_agent_frame_eq _ _ _ _ E) as (ia & n & evs & -> & _).
  unfold _process_send. cbv zeta.
  unfold bind at 1. unfold try_except. unfold bind at 1. rewrite E.
  destruct ra as [i|e].
  - unfold bind at 1. unfold emit, modify. cbv beta iota.
    destruct (on_message (instance_agent i) (s_message env) _) as [v|e].
    + unfold pure, bind, Queue_put, Queue_task_done, cache_update. simpl.
      destruct (_is_shutdown (_message_queue st)) eqn:Es; simpl;
        delivered_leaf.
    + unfold throw.
      destruct (decide (e = CancelledError)) as [->|Hne];
        unfold bind, Future_cancelled, Future_set_exception, Queue_task_done,
          pure, cache_update; simpl.
      * case_bool_decide; simpl;
          destruct (futures st !! s_future env) as [[| | |]|] eqn:Ef; simpl;
          destruct (_unfinished_tasks (_message_queue st)) eqn:Eu; simpl;
          delivered_leaf.
      * destruct (futures st !! s_future env) as [[| | |]|] eqn:Ef; simpl;
          destruct (_unfinished_tasks (_message_queue st)) eqn:Eu; simpl;
          delivered_leaf.
  - destruct (decide (e = CancelledError)) as [->|Hne];
      unfold bind, Future_cancelled, Future_set_exception, Queue_task_done,
        pure, cache_update; simpl.
    + case_bool_decide; simpl;
        destruct (futures st !! s_future env) as [[| | |]|] eqn:Ef; simpl;
        destruct (_unfinished_tasks (_message_queue st)) eqn:Eu; simpl;
        delivered_leaf.
    + destruct (futures st !! s_future env) as [[| | |]|] eqn:Ef; simpl;
        destruct (_unfinished_tasks (_message_queue st)) eqn:Eu; simpl;
        delivered_leaf.
Qed.

Lemma deliver_delivered e st : delivered e st (deliver e st).2.
Proof.
  destruct e; simpl.
  - apply _process_send_delivered.
  - apply _process_publish_delivered.
  - apply _process_response_delivered.
Qed.

Lemma create_task_spec c st :
  (create_task c st).1 = Ok tt ∧
  ∃ evs, (create_task c st).2 = set_trace (trace (c st).2 ++ evs) (c st).2.
Proof.
  unfold create_task, try_except, emit, modify.
  destruct (c st) as [[[]|e] st']; simpl.
  - split; [done|]. exists []. by rewrite set_trace_nil.
  - split; [done|]. by eexists.
Qed.

Lemma resolve_kept_deliver e st : resolve_kept st (deliver e st).2.
Proof.
  destruct e; simpl.
  - apply (respected__process_send _ resolve_kept_respected).
  - apply (respected__process_publish _ resolve_kept_respected).
  - apply (respected__process_response _ resolve_kept_respected).
Qed.


Lemma run_dispatcher_step n st st' :
  _run_iteration st = Some st' ->
  run_dispatcher (S n) st = run_dispatcher n st'.
Proof. intros H. simpl. by rewrite H. Qed.





Lemma run_dispatcher_add n : ∀ k st,
  run_dispatcher (n + k) st = run_dispatcher k (run_dispatcher n st).
Proof.
  induction n as [|n IH]; intros k st; simpl; [done|].
  destruct (_run_iteration st) as [st'|] eqn:E; [apply IH|].
  by rewrite run_dispatcher_waits.
Qed.

(** [send_message] without a token, to a registered type, on a live
    queue. *)
Lemma send_message_default_token m recipient sender st :
  is_Some (_agent_factories st !! aid_type recipient) ->
  _is_shutdown (_message_queue st) = false ->
  send_message m recipient sender None st
  = (Ok (length (futures st)),
     set_tokens
       (<[length (tokens st) := mkToken false [length (futures st)]]>
          (tokens st ++ [mkToken false []]))
       (send_enqueued
          (mkSend m sender recipient (length (futures st))
             (length (tokens st))) st)).
Proof.
  intros Hreg Hlive.
  unfold send_message, CancellationToken_new, create_future, Queue_put,
    link_future.
  munfold. simpl. destruct (decide _) as [_|Hn]; [|done].
  simpl. rewrite Hlive. simpl.
  rewrite list_lookup_middle by done. reflexivity.
Qed.

Lemma run_dispatcher_one st st' :
  _run_iteration st = Some st' -> run_dispatcher 1 st = st'.
Proof. intros H. simpl. by rewrite H. Qed.

Ltac settle_leaf :=
  repeat (first
    [ case_bool_decide
    | match goal with
      | |- context [Future_set_exception ?f ?e ?s] =>
          destruct (Future_set_exception f e s) as [[[]|?] ?]
      | |- context [Queue_task_done ?s] =>
          destruct (Queue_task_done s) as [[[]|?] ?]
      end ]; simpl); try done.

(** [_process_send] is its two halves run in one go. *)
Lemma _process_send_in_one_go env st :
  _process_send env st
  = (let* o := _process_send_call env in
     match o with
     | Some o => _process_send_return env o
     | None => pure tt
     end) st.
Proof.
  unfold _process_send, _process_send_call, _process_send_return,
    _process_send_except.
  cbv zeta. unfold bind, try_except, emit, modify, pure, throw,
    Future_cancelled.
  destruct (_get_agent (s_recipient env) st) as [[i|e] st1]; simpl.
  - destruct (on_message _ _ _) as [v|e]; simpl; [done|].
    destruct (decide (e = CancelledError)); simpl; settle_leaf.
  - destruct (decide (e = CancelledError)); simpl; settle_leaf.
Qed.




(** S1, the echo send, evaluated: two turns of the dispatcher. *)
Example echo_send_resolves :
  await_future 0 (run_dispatcher 2 echo_sent) = Some (Ok (VStr "hi")).
Proof. reflexivity. Qed.

(** ** A cancelled send on its way through the dispatcher *)

Lemma serving_step a ag st e rest :
  serving a ag st ->
  q_items (_message_queue st) = e :: rest ->
  ∃ st' new,
    _run_iteration st = Some st' ∧
    serving a ag st' ∧
    q_items (_message_queue st') = rest ++ new.
Proof.
  intros (Hh & Hrc & Hlive & Hlen & Hres) Hq.
  unfold _run_iteration. rewrite Hrc.
  rewrite (_process_next_head _ _ _ Hq).
  rewrite dispatch_no_handlers by done.
  destruct (create_task_spec (deliver e) (dequeued rest st)) as [Hok [evs Hst]].
  destruct (create_task (deliver e) (dequeued rest st)) as [r st'] eqn:E.
  simpl in Hok, Hst. subst r.
  pose proof (deliver_delivered e (dequeued rest st))
    as (Dh & Drc & Dlive & Dfut & new & d & Dq & Du & Dd & Dnew).
  pose proof (resolve_kept_deliver e (dequeued rest st)) as Dres.
  exists st', new. split; [done|].
  rewrite Hst. unfold serving. simpl in *. rewrite Hq in Hlen. simpl in Hlen.
  split; [|done].
  rewrite Dh, Drc, Dlive, Dq, length_app.
  repeat split; try done; [lia|].
  apply Dres. by destruct st.
Qed.

Lemma serving_drain a ag target pre : ∀ st post,
  serving a ag st ->
  q_items (_message_queue st) = pre ++ target :: post ->
  ∃ post',
    serving a ag (run_dispatcher (length pre) st) ∧
    q_items (_message_queue (run_dispatcher (length pre) st))
    = target :: post'.
Proof.
  induction pre as [|e pre IH]; intros st post Hs Hq.
  - by exists post.
  - destruct (serving_step a ag st e (pre ++ target :: post) Hs Hq)
      as (st' & new & Hit & Hs' & Hq').
    change (length (e :: pre)) with (S (length pre)).
    rewrite !(run_dispatcher_step _ _ _ Hit).
    apply (IH st' (post ++ new)); [done|].
    by rewrite Hq', <- app_assoc.
Qed.

(** The turn of the dispatcher on a Send whose recipient resolves:
    the handler is invoked, whatever the state of the handle and of
    the token. *)
Lemma serving_send ag st env post :
  serving (s_recipient env) ag st ->
  q_items (_message_queue st) = ESend env :: post ->
  ∃ st' evs,
    _run_iteration st = Some st' ∧
    trace st' = trace st ++ evs ∧
    EvOnMessage (s_recipient env) (s_message env)
      (send_context (s_sender env) (s_cancellation_token env)) ∈ evs.
Proof.
  intros (Hh & Hrc & Hlive & Hlen & Hres) Hq.
  unfold _run_iteration. rewrite Hrc.
  rewrite (_process_next_head _ _ _ Hq).
  rewrite dispatch_no_handlers by done.
  destruct (create_task_spec (deliver (ESend env)) (dequeued post st))
    as [Hok [evs Hst]].
  destruct (create_task (deliver (ESend env)) (dequeued post st))
    as [res st'] eqn:E.
  simpl in Hok, Hst. subst res.
  assert (resolve (dequeued post st) (s_recipient env) = Ok ag) as Hres'
    by (by destruct st).
  destruct (_process_send_invokes env (dequeued post st) ag Hres')
    as (evs1 & evs2 & Htr & _).
  eexists st', _. split; [done|]. split.
  - rewrite Hst. simpl. rewrite Htr. simpl. rewrite <- !app_assoc.
    reflexivity.
  - rewrite !elem_of_app. right. left. apply elem_of_cons. by left.
Qed.

Lemma cancel_frame tok st :
  _message_queue (exec (cancel tok) st) = _message_queue st ∧
  _intervention_handlers (exec (cancel tok) st) = _intervention_handlers st ∧
  _run_context (exec (cancel tok) st) = _run_context st ∧
  trace (exec (cancel tok) st) = trace st ∧
  (∀ a, resolve (exec (cancel tok) st) a = resolve st a) ∧
  (is_Some (tokens st !! tok) -> is_cancelled tok (exec (cancel tok) st) = true).
Proof.
  unfold exec, cancel, modify, is_cancelled. simpl.
  destruct (tokens st !! tok) as [t|] eqn:Ht.
  - destruct (tok_cancelled t) eqn:Ec; simpl;
      (repeat split; try done; intros _).
    + by rewrite Ht.
    + rewrite list_lookup_insert_eq by (by eapply lookup_lt_Some). done.
  - repeat split; try done.
Qed.

(** C6, amended: on a started runtime without intervention handlers
    whose queue is live and sound, when the token of a [send_message]
    to a registered type is cancelled before the dispatcher processes
    the envelope (before the call or after it), the returned handle is
    cancelled and stays so whatever happens to the runtime.  But
    nothing looks at the token or at the handle before the delivery:
    when the dispatcher has worked through the queue up to the
    envelope and the recipient resolves, its [on_message] is invoked
    with the cancelled token in the context. *)
Theorem cancelled_send_still_reaches_agent st m recipient sender tok t ag :
  _intervention_handlers st = None ->
  _run_context st = Some (mkRunContext false TaskPending) ->
  _is_shutdown (_message_queue st) = false ->
  queue_wf st ->
  tokens st !! tok = Some t ->
  is_Some (_agent_factories st !! aid_type recipient) ->
  resolve st recipient = Ok ag ->
  ∃ f st1,
    send_message m recipient sender (Some tok) st = (Ok f, st1) ∧
    is_cancelled tok (exec (cancel tok) st1) = true ∧
    await_future f (exec (cancel tok) st1) = Some (Err CancelledError) ∧
    (∀ ops,
       await_future f (run ops (exec (cancel tok) st1))
       = Some (Err CancelledError)) ∧
    ∃ n evs,
      trace (run_dispatcher n (exec (cancel tok) st1))
      = trace (exec (cancel tok) st1) ++ evs ∧
      EvOnMessage recipient m (send_context sender tok) ∈ evs.
Proof.
  intros Hh Hrc Hlive [Hlen _] Ht Hreg Hres.
  destruct (send_message m recipient sender (Some tok) st) as [r st1] eqn:E.
  pose proof E as E'. rewrite send_message_registered in E' by done.
  injection E' as <- Hst1.
  set (f := length (futures st)) in *.
  set (env := mkSend m sender recipient f tok) in *.
  exists f, st1. split; [done|].
  pose proof (send_then_cancel_cancelled _ _ _ _ _ _ _ _ Ht E Hreg Hlive)
    as Hc.
  set (st2 := exec (cancel tok) st1) in *.
  assert (is_Some (tokens st1 !! tok)) as Htok1.
  { rewrite <- Hst1. unfold exec, link_future, modify, send_enqueued. simpl.
    rewrite Ht. destruct (tok_cancelled t); simpl; [by rewrite Ht|].
    rewrite list_lookup_insert_eq by (by eapply lookup_lt_Some). done. }
  destruct (cancel_frame tok st1) as (Cq & Ch & Crc & Ctr & Cres & Ccan).
  fold st2 in Cq, Ch, Crc, Ctr, Cres, Ccan.
  assert (_message_queue st1
          = mkQueue (q_items (_message_queue st) ++ [ESend env])
              (S (_unfinished_tasks (_message_queue st))) false
          ∧ _intervention_handlers st1 = _intervention_handlers st
          ∧ _run_context st1 = _run_context st
          ∧ ∀ a, resolve st1 a = resolve st a) as (Lq & Lh & Lrc & Lres).
  { rewrite <- Hst1. unfold exec, link_future, modify, send_enqueued. simpl.
    rewrite Ht. by destruct (tok_cancelled t). }
  split; [by apply Ccan|].
  split; [unfold await_future; by rewrite Hc|].
  split.
  { intros ops. unfold await_future.
    by rewrite (respected_run settled_kept settled_kept_respected ops _ _ _ Hc). }
  assert (serving recipient ag st2) as Hs.
  { unfold serving. rewrite Ch, Crc, Cq, Cres, Lh, Lrc, Lq, Lres. simpl.
    rewrite length_app. simpl. repeat split; try done. lia. }
  destruct (serving_drain recipient ag (ESend env)
              (q_items (_message_queue st)) st2 [] Hs)
    as (post' & HsA & HqA).
  { by rewrite Cq, Lq. }
  set (nA := length (q_items (_message_queue st))) in *.
  destruct (serving_send ag (run_dispatcher nA st2) env post' HsA HqA)
    as (sB & evs & HitB & HtrB & Hin).
  pose proof (respected_run_dispatcher trace_extends trace_extends_respected
                nA st2) as [evsA HtrA].
  exists (nA + 1), (evsA ++ evs). split.
  - rewrite run_dispatcher_add, (run_dispatcher_one _ _ HitB), HtrB, HtrA.
    by rewrite app_assoc.
  - apply elem_of_app. by right.
Qed.

Lemma cancelled_send_still_reaches_agent_witness :
  let st := exec CancellationToken_new (echo_runtime None) in
  ∃ st1,
    send_message (VStr "hi") echo_id None (Some 0) st = (Ok 0, st1) ∧
    await_future 0 (exec (cancel 0) st1) = Some (Err CancelledError) ∧
    ∃ n evs,
      trace (run_dispatcher n (exec (cancel 0) st1))
      = trace (exec (cancel 0) st1) ++ evs ∧
      EvOnMessage echo_id (VStr "hi") (send_context None 0) ∈ evs.
Proof.
  intros st.
  destruct (cancelled_send_still_reaches_agent st (VStr "hi") echo_id None 0
              (mkToken false []) echo_agent)
    as (f & st1 & H1 & _ & H2 & _ & H3).
  - reflexivity.
  - reflexivity.
  - reflexivity.
  - split; [vm_compute; lia|]. vm_compute. constructor.
  - reflexivity.
  - vm_compute. eauto.
  - reflexivity.
  - exists st1.
    assert (f = 0) as -> by (vm_compute in H1; congruence).
    split; [exact H1|]. split; [exact H2|exact H3].
Defined.

(** * Beyond the dispatch of one envelope *)

(** ** What registration and the cache keep *)


#[global] Instance factories_kept_preorder : PreOrder factories_kept.
Proof. split; [by intros st ty fac|]. intros x y z H1 H2 ty fac H. eauto. Qed.

Lemma factories_kept_respected : respected factories_kept.
Proof.
  split; try (intros st **; intros ty' fac' H'; by destruct st).
  intros st ty fac Hnone ty' fac' H'. simpl.
  rewrite lookup_insert_ne; [done|]. intros ->. congruence.
Qed.

(** X8: a type name is bound once and for all.  Whatever public
    calls and dispatcher turns follow its registration, the type stays
    bound to the factory it was registered with, and every later
    [register] or [register_factory] for that name raises [ValueError]
    and changes nothing.  The error of [register] names the type; the
    one of [register_factory] names the [AgentType] object, as in
    ["Agent with type AgentType(type='echo') already exists."]. *)
Theorem registered_factory_is_never_replaced ops st ty fac :
  _agent_factories st !! ty = Some fac ->
  _agent_factories (run ops st) !! ty = Some fac ∧
  (∀ fac' subs,
     register ty fac' subs (run ops st)
     = (Err (ValueError ("Agent with type " +:+ ty +:+ " already exists.")),
        run ops st)) ∧
  (∀ fac' cls,
     register_factory (mkAgentType ty) fac' cls (run ops st)
     = (Err (ValueError
               ("Agent with type " +:+ AgentType_str (mkAgentType ty)
                +:+ " already exists.")),
        run ops st)).
Proof.
  intros H.
  pose proof (respected_run factories_kept factories_kept_respected ops st
                ty fac H) as Hk.
  split; [done|].
  split; intros fac' x;
    unfold register, register_factory, bind, get_state, throw; simpl;
    rewrite Hk; (destruct (decide (is_Some (Some fac))) as [_|Hn]; [done|]);
    destruct Hn; eauto.
Qed.

Lemma registered_factory_is_never_replaced_witness :
  let st :=
    run [OpStop; OpRegister "echo" (Callable 2 (fun _ => Fails CancelledError))
                   None; OpStart] (echo_runtime None) in
  _agent_factories st !! "echo" = Some echo_factory ∧
  register_factory (mkAgentType "echo") failing_factory "Failing" st
  = (Err (ValueError "Agent with type AgentType(type='echo') already exists."),
     st).
Proof.
  intros st.
  destruct (registered_factory_is_never_replaced
              [OpStop;
               OpRegister "echo" (Callable 2 (fun _ => Fails CancelledError))
                 None; OpStart] (echo_runtime None) "echo" echo_factory)
    as (H1 & _ & H3); [reflexivity|].
  split; [exact H1|]. exact (H3 failing_factory "Failing").
Defined.

#[global] Instance keeps_cache_from_factories_preorder :
  PreOrder keeps_cache_from_factories.
Proof.
  split; [intros st H; exact H|]. intros x y z H1 H2 H. apply H2, H1, H.
Qed.

Lemma keeps_cache_from_factories_respected :
  respected keeps_cache_from_factories.
Proof.
  split; try (intros st **; intros Hinv a' i' H'; destruct st; by apply Hinv).
  - intros st ty fac Hnone Hinv a i Hi. simpl in *.
    destruct (Hinv a i Hi) as (fac' & Hfac & Hprod).
    exists fac'. split; [|done].
    rewrite lookup_insert_ne; [done|]. intros ->. congruence.
  - intros st a i Hnone Hres Hinv a' i' Hi'. simpl in *.
    destruct (decide (a = a')) as [<-|Hne].
    + rewrite lookup_insert_eq in Hi'. injection Hi' as <-.
      unfold resolve in Hres. rewrite Hnone in Hres.
      destruct (_agent_factories st !! aid_type a) as [fac|]; [|done].
      by exists fac.
    + rewrite lookup_insert_ne in Hi' by done. by apply Hinv.
Qed.

(** X9: in every state reachable from a new runtime, a cached agent
    instance is what the factory registered for its type produces for
    its id; in particular its type is registered, and [_get_agent]
    resolves the id to that very agent. *)
Theorem cached_agents_come_from_their_factory ops handlers a i :
  _instantiated_agents (run ops (Runtime_init handlers)) !! a = Some i ->
  ∃ fac,
    _agent_factories (run ops (Runtime_init handlers)) !! aid_type a = Some fac ∧
    invoke_product fac a = Ok (instance_agent i) ∧
    resolve (run ops (Runtime_init handlers)) a = Ok (instance_agent i).
Proof.
  intros Hi.
  assert (cache_from_factories (run ops (Runtime_init handlers))) as Hinv.
  { apply (respected_run keeps_cache_from_factories
             keeps_cache_from_factories_respected).
    intros a' i' H'. simpl in H'. by rewrite lookup_empty in H'. }
  destruct (Hinv a i Hi) as (fac & Hfac & Hprod).
  exists fac. repeat split; try done.
  unfold resolve. by rewrite Hi.
Qed.

Lemma cached_agents_come_from_their_factory_witness :
  ∃ fac,
    _agent_factories
      (run [OpRegister "echo" echo_factory None; OpGetAgent echo_id]
         (Runtime_init None)) !! "echo" = Some fac ∧
    invoke_product fac echo_id = Ok echo_agent.
Proof.
  destruct (cached_agents_come_from_their_factory
              [OpRegister "echo" echo_factory None; OpGetAgent echo_id]
              None echo_id (mkAgentInstance 0 echo_agent))
    as (fac & H1 & H2 & _).
  - reflexivity.
  - exists fac. split; [exact H1|exact H2].
Defined.


(** ** The queue over the life of a runtime *)

#[global] Instance queue_same_preorder : PreOrder queue_same.
Proof.
  split; [by intros st|]. intros x y z H1 H2. unfold queue_same in *. congruence.
Qed.

#[global] Instance futures_grow_preorder : PreOrder futures_grow.
Proof.
  split; [intros st; unfold futures_grow; lia|].
  intros x y z H1 H2. unfold futures_grow in *. lia.
Qed.

Lemma futures_grow_respected : respected futures_grow.
Proof.
  split; try (intros st **; unfold futures_grow; by destruct st).
  - intros st f s _. unfold futures_grow. simpl. by rewrite length_insert.
  - intros st. unfold futures_grow. simpl. rewrite length_app. lia.
Qed.

Lemma queue_same_trace st evs : queue_same st (set_trace (trace st ++ evs) st).
Proof. by destruct st. Qed.

Lemma queue_same_uid st n : queue_same st (set_next_uid n st).
Proof. by destruct st. Qed.

Lemma queue_same_tokens st ts : queue_same st (set_tokens ts st).
Proof. by destruct st. Qed.

Lemma queue_same_subscriptions st sm :
  queue_same st (set_subscription_manager sm st).
Proof. by destruct st. Qed.

Lemma queue_same_settle st f s :
  futures st !! f = Some FPending ->
  queue_same st (set_futures (<[f := s]> (futures st)) st).
Proof. by destruct st. Qed.

Lemma queue_same_register st ty fac :
  _agent_factories st !! ty = None ->
  queue_same st (set_agent_factories (<[ty := fac]> (_agent_factories st)) st).
Proof. by destruct st. Qed.

Lemma queue_same_cache st a i :
  _instantiated_agents st !! a = None ->
  resolve st a = Ok (instance_agent i) ->
  queue_same st
    (set_instantiated_agents (<[a := i]> (_instantiated_agents st)) st).
Proof. by destruct st. Qed.

Create HintDb queue_same.

#[local] Hint Resolve queue_same_trace queue_same_uid queue_same_tokens
  queue_same_subscriptions queue_same_settle queue_same_register
  queue_same_cache : queue_same.

(** The calls that leave the queue alone. *)
Lemma queue_same__get_agent a st : queue_same st (_get_agent a st).2.
Proof. apply (preserves__get_agent queue_same); auto with queue_same. Qed.

Lemma queue_same_register_call ty fac subs st :
  queue_same st (register ty fac subs st).2.
Proof. apply (preserves_register queue_same); auto with queue_same. Qed.

Lemma queue_same_register_factory ty fac cls st :
  queue_same st (register_factory ty fac cls st).2.
Proof. apply (preserves_register_factory queue_same); auto with queue_same. Qed.

Lemma queue_same_add_subscription s st :
  queue_same st (add_subscription s st).2.
Proof. apply (preserves_add_subscription queue_same); auto with queue_same. Qed.

Lemma queue_same_remove_subscription id st :
  queue_same st (remove_subscription id st).2.
Proof.
  apply (preserves_remove_subscription queue_same); auto with queue_same.
Qed.

Lemma queue_same_CancellationToken_new st :
  queue_same st (CancellationToken_new st).2.
Proof.
  apply (preserves_CancellationToken_new queue_same); auto with queue_same.
Qed.

Lemma queue_same_cancel tok st : queue_same st (cancel tok st).2.
Proof. apply (preserves_cancel queue_same); auto with queue_same. Qed.

Lemma queue_same_intercept_send hs m sender recipient future env st :
  queue_same st (intercept_send hs m sender recipient future env st).2.
Proof. apply (preserves_intercept_send queue_same); auto with queue_same. Qed.

Lemma queue_same_intercept_publish hs m sender env st :
  queue_same st (intercept_publish hs m sender env st).2.
Proof.
  apply (preserves_intercept_publish queue_same); auto with queue_same.
Qed.

Lemma queue_same_intercept_response hs m sender recipient future env st :
  queue_same st (intercept_response hs m sender recipient future env st).2.
Proof.
  apply (preserves_intercept_response queue_same); auto with queue_same.
Qed.

(** ** What a dispatcher turn does to the queue *)

Ltac not_continue H :=
  repeat (apply bind_inv in H as [(? & ? & ? & H)|(? & ? & ?)]; [|done]);
  try done.

Lemma intercept_send_future hs m sender recipient future : ∀ env st env' st',
  intercept_send hs m sender recipient future env st
  = (Ok (Continue env'), st') ->
  s_future env' = s_future env.
Proof.
  induction hs as [|h hs IH]; intros env st env' st' H; simpl in H.
  - by injection H as <- _.
  - apply bind_inv in H as [(? & st1 & _ & H)|(? & _ & ?)]; [|done].
    destruct (on_send h m sender recipient) as [v|ex].
    + apply bind_inv in H as [(? & st2 & _ & H)|(? & _ & ?)]; [|done].
      destruct (is_DropMessage v).
      * not_continue H.
      * by apply IH in H.
    + not_continue H.
Qed.

Lemma intercept_response_future hs m sender recipient future :
  ∀ env st env' st',
  intercept_response hs m sender recipient future env st
  = (Ok (Continue env'), st') ->
  r_future env' = r_future env.
Proof.
  induction hs as [|h hs IH]; intros env st env' st' H; simpl in H.
  - by injection H as <- _.
  - apply bind_inv in H as [(? & st1 & _ & H)|(? & _ & ?)]; [|done].
    destruct (on_response h m sender recipient) as [v|ex].
    + apply bind_inv in H as [(? & st2 & _ & H)|(? & _ & ?)]; [|done].
      destruct (is_DropMessage v).
      * not_continue H.
      * by apply IH in H.
    + not_continue H.
Qed.

Lemma queue_step_same e st st' : queue_same st st' -> queue_step e st st'.
Proof.
  unfold queue_same, queue_step. intros ->. split; [done|].
  exists [], 0. rewrite app_nil_r. repeat split; (done || lia).
Qed.

Lemma queue_step_task e e' st st1 st2 evs :
  queue_same st st1 ->
  delivered e' st1 (deliver e' st1).2 ->
  envelope_future e' = envelope_future e ->
  st2 = set_trace (trace (deliver e' st1).2 ++ evs) (deliver e' st1).2 ->
  queue_step e st st2.
Proof.
  unfold queue_same, queue_step.
  intros Hq (_ & _ & Hlive & _ & new & d & Hitems & Hu & Hd & Hnew) He ->.
  simpl. rewrite Hq in *. split; [done|].
  exists new, d. repeat split; try done. by rewrite <- He.
Qed.

(** A turn on envelope [e], with or without intervention handlers:
    the queue gets at most the follow-up of [e], and at most one item
    is marked done. *)
Lemma dispatch_queue_step e st : queue_step e st (dispatch e st).2.
Proof.
  unfold dispatch, bind at 1, get_state.
  destruct e as [env|env|env]; cbv beta iota.
  - destruct (_intervention_handlers st) as [hs|].
    + pose proof (queue_same_intercept_send hs (s_message env) (s_sender env)
                    (s_recipient env) (s_future env) env st) as Hq.
      unfold bind.
      destruct (intercept_send hs _ _ _ _ env st) as [[[env'|]|ex] st1] eqn:E;
        simpl in Hq; try by apply queue_step_same.
      destruct (create_task_spec (deliver (ESend env')) st1) as [_ [evs Hst]].
      eapply (queue_step_task _ (ESend env')); [exact Hq| | |exact Hst].
      * apply deliver_delivered.
      * simpl. f_equal. by eapply intercept_send_future.
    + unfold bind, pure.
      destruct (create_task_spec (deliver (ESend env)) st) as [_ [evs Hst]].
      eapply (queue_step_task _ (ESend env)); [reflexivity| |done|exact Hst].
      apply deliver_delivered.
  - destruct (_intervention_handlers st) as [hs|].
    + pose proof (queue_same_intercept_publish hs (p_message env)
                    (p_sender env) env st) as Hq.
      unfold bind.
      destruct (intercept_publish hs _ _ env st) as [[[env'|]|ex] st1] eqn:E;
        simpl in Hq; try by apply queue_step_same.
      destruct (create_task_spec (deliver (EPublish env')) st1)
        as [_ [evs Hst]].
      eapply (queue_step_task _ (EPublish env')); [exact Hq| |done|exact Hst].
      apply deliver_delivered.
    + unfold bind, pure.
      destruct (create_task_spec (deliver (EPublish env)) st) as [_ [evs Hst]].
      eapply (queue_step_task _ (EPublish env)); [reflexivity| |done|exact Hst].
      apply deliver_delivered.
  - destruct (_intervention_handlers st) as [hs|].
    + pose proof (queue_same_intercept_response hs (r_message env)
                    (r_sender env) (r_recipient env) (r_future env) env st)
        as Hq.
      unfold bind.
      destruct (intercept_response hs _ _ _ _ env st)
        as [[[env'|]|ex] st1] eqn:E;
        simpl in Hq; try by apply queue_step_same.
      destruct (create_task_spec (deliver (EResponse env')) st1)
        as [_ [evs Hst]].
      eapply (queue_step_task _ (EResponse env')); [exact Hq| | |exact Hst].
      * apply deliver_delivered.
      * simpl. f_equal. by eapply intercept_response_future.
    + unfold bind, pure.
      destruct (create_task_spec (deliver (EResponse env)) st) as [_ [evs Hst]].
      eapply (queue_step_task _ (EResponse env)); [reflexivity| |done|exact Hst].
      apply deliver_delivered.
Qed.

(** ** Soundness of the queue in every reachable state *)

Lemma queue_wf_same st st' :
  queue_same st st' -> futures_grow st st' -> queue_wf st -> queue_wf st'.
Proof.
  unfold queue_same, futures_grow, queue_wf. intros -> Hg [Hlen Hall].
  split; [done|]. eapply Forall_impl; [exact Hall|].
  intros e He f Hf. specialize (He f Hf). lia.
Qed.

Lemma queue_wf_empty st : q_items (_message_queue st) = [] -> queue_wf st.
Proof. intros H. unfold queue_wf. rewrite H. split; [simpl; lia|done]. Qed.

Lemma queue_wf_set_run_context rc st :
  queue_wf st -> queue_wf (set_run_context rc st).
Proof. by destruct st. Qed.

Lemma queue_wf_set_trace t st : queue_wf st -> queue_wf (set_trace t st).
Proof. by destruct st. Qed.

Lemma queue_wf_dequeue e rest st st' :
  queue_wf st ->
  q_items (_message_queue st) = e :: rest ->
  queue_step e (dequeued rest st) st' ->
  futures_grow st st' ->
  queue_wf st'.
Proof.
  unfold queue_wf, queue_step, futures_grow.
  intros [Hlen Hall] Hq (_ & new & d & Hitems & Hu & Hd & Hnew) Hg.
  rewrite Hq in Hlen, Hall. simpl in *.
  apply Forall_cons in Hall as [He Hall].
  rewrite Hitems, length_app. split; [lia|].
  apply Forall_app. split.
  - eapply Forall_impl; [exact Hall|].
    intros e' He' f Hf. specialize (He' f Hf). lia.
  - eapply Forall_impl; [exact Hnew|].
    intros e' He' f Hf. rewrite He' in Hf. specialize (He f Hf). lia.
Qed.

Lemma queue_wf__process_next st r st' :
  queue_wf st -> _process_next st = Some (r, st') -> queue_wf st'.
Proof.
  intros Hwf. unfold _process_next, Queue_get.
  destruct (q_items (_message_queue st)) as [|e rest] eqn:Hq.
  - destruct (_is_shutdown (_message_queue st)); [|done].
    by intros [= _ <-].
  - fold (dequeued rest st). intros H. injection H as H.
    eapply (queue_wf_dequeue e rest st); [done|done| |].
    + pose proof (dispatch_queue_step e (dequeued rest st)) as Hs.
      by rewrite H in Hs.
    + pose proof (respected_dispatch futures_grow futures_grow_respected e
                    (dequeued rest st)) as Hg.
      rewrite H in Hg. unfold futures_grow in *. by destruct st.
Qed.

Lemma queue_wf__run_iteration st st' :
  queue_wf st -> _run_iteration st = Some st' -> queue_wf st'.
Proof.
  intros Hwf. unfold _run_iteration.
  destruct (_run_context st) as [[stopped [| |ex]]|]; try done.
  destruct stopped.
  - intros [= <-]. by apply queue_wf_set_run_context.
  - destruct (_process_next st) as [[[[]|ex] st1]|] eqn:E; [| |done].
    + intros [= <-]. by eapply queue_wf__process_next.
    + intros [= <-]. apply queue_wf_set_run_context.
      by eapply queue_wf__process_next.
Qed.

Lemma queue_wf_run_dispatcher n : ∀ st,
  queue_wf st -> queue_wf (run_dispatcher n st).
Proof.
  induction n as [|n IH]; intros st Hwf; simpl; [done|].
  destruct (_run_iteration st) as [st'|] eqn:E; [|done].
  apply IH. by eapply queue_wf__run_iteration.
Qed.

Lemma queue_wf_Queue_join fuel : ∀ st st',
  queue_wf st -> Queue_join fuel st = Some st' -> queue_wf st'.
Proof.
  induction fuel as [|fuel IH]; intros st st' Hwf; simpl;
    destruct (decide _); try done; try by intros [= <-].
  destruct (_run_iteration st) as [st1|] eqn:E; [|done].
  apply IH. by eapply queue_wf__run_iteration.
Qed.

Lemma queue_wf_RunContext_stop st : queue_wf (RunContext_stop st).2.
Proof.
  unfold RunContext_stop, bind, modify, Queue_shutdown_immediate, modify,
    await_run_task.
  match goal with
  | |- context [_run_iteration ?s] => set (st1 := s)
  end.
  assert (queue_wf st1) as Hwf1 by (by apply queue_wf_empty).
  assert (queue_wf (default st1 (_run_iteration st1))) as Hwf2.
  { destruct (_run_iteration st1) as [st2|] eqn:E; simpl; [|done].
    by eapply queue_wf__run_iteration. }
  by destruct (_run_context (default st1 (_run_iteration st1)))
    as [[? [| |?]]|].
Qed.

(** The end of the three [stop] methods. *)
Lemma queue_wf_stop_tail st :
  queue_wf ((RunContext_stop ;;
             modify (set_run_context None) ;;
             modify (set_message_queue Queue_new)) st).2.
Proof.
  unfold bind at 1.
  pose proof (queue_wf_RunContext_stop st) as Hwf.
  destruct (RunContext_stop st) as [[[]|ex] st1]; [|done].
  by apply queue_wf_empty.
Qed.

Lemma queue_wf_stop st : queue_wf st -> queue_wf (stop st).2.
Proof.
  intros Hwf. unfold stop, bind at 1, get_state.
  destruct (_run_context st); [|done]. apply queue_wf_stop_tail.
Qed.

Lemma queue_wf_stop_when_idle fuel st r st' :
  queue_wf st -> stop_when_idle fuel st = Some (r, st') -> queue_wf st'.
Proof.
  intros Hwf. unfold stop_when_idle.
  destruct (_run_context st); [|by intros [= _ <-]].
  destruct (Queue_join fuel st) as [st1|] eqn:E; [|done].
  intros H. injection H as H.
  pose proof (queue_wf_stop_tail st1) as Hw. by rewrite H in Hw.
Qed.

Lemma queue_wf_check_condition condition polls : ∀ st r st',
  queue_wf st -> check_condition condition polls st = Some (r, st') ->
  queue_wf st'.
Proof.
  induction polls as [|k polls IH]; intros st r st' Hwf; simpl; [done|].
  destruct (condition (run_dispatcher k st)).
  - intros H. injection H as H.
    pose proof (queue_wf_RunContext_stop (run_dispatcher k st)) as Hw.
    by rewrite H in Hw.
  - apply IH. by apply queue_wf_run_dispatcher.
Qed.

Lemma queue_wf_stop_when condition polls st r st' :
  queue_wf st -> stop_when condition polls st = Some (r, st') -> queue_wf st'.
Proof.
  intros Hwf. unfold stop_when.
  destruct (_run_context st); [|by intros [= _ <-]].
  destruct (check_condition condition polls st) as [[[[]|ex] st1]|] eqn:E;
    [| |done].
  - intros [= _ <-]. by apply queue_wf_empty.
  - intros [= _ <-]. by eapply queue_wf_check_condition.
Qed.

Lemma length_cancel_future f fs : length (cancel_future f fs) = length fs.
Proof.
  unfold cancel_future. destruct (fs !! f) as [[| | |]|]; try done.
  by rewrite length_insert.
Qed.

(** Closing a leaf of [send_message] or [publish_message]. *)
Ltac queue_wf_leaf Hlen Hall :=
  unfold queue_wf; simpl;
  rewrite ?length_app, ?Forall_app; simpl;
  repeat match goal with |- _ ∧ _ => split end;
  try lia;
  try (eapply Forall_impl; [exact Hall|];
       let e := fresh in let He := fresh in let f := fresh in
       let Hf := fresh in
       intros e He f Hf; specialize (He f Hf);
       rewrite ?length_cancel_future, ?length_insert, ?length_app; simpl;
       lia);
  try (constructor; [|done]; simpl;
       let f := fresh in intros f [= <-];
       rewrite ?length_cancel_future, ?length_insert, ?length_app; simpl;
       lia);
  try (constructor; [|done]; simpl; done).

Lemma queue_wf_send_message m recipient sender tok st :
  queue_wf st -> queue_wf (send_message m recipient sender tok st).2.
Proof.
  intros [Hlen Hall].
  unfold send_message, CancellationToken_new, create_future, Queue_put,
    link_future.
  munfold.
  destruct tok as [tok|]; simpl;
    destruct (decide _) as [Hreg|Hreg]; simpl;
    rewrite ?list_lookup_middle by done; simpl;
    destruct (_is_shutdown (_message_queue st)) eqn:Es; simpl;
    try (queue_wf_leaf Hlen Hall; fail);
    try (match goal with
         | |- context [match ?x !! ?i with _ => _ end] =>
             destruct (x !! i) as [[[] ?]|]
         end; simpl; queue_wf_leaf Hlen Hall; fail).
Qed.

Lemma queue_wf_publish_message m topic sender tok mid uuid4 st :
  queue_wf st -> queue_wf (publish_message m topic sender tok mid uuid4 st).2.
Proof.
  intros [Hlen Hall].
  unfold publish_message, CancellationToken_new, Queue_put. munfold.
  destruct tok as [tok|]; simpl;
    destruct (_is_shutdown (_message_queue st)) eqn:Es; simpl;
    queue_wf_leaf Hlen Hall.
Qed.

Lemma queue_wf_step op st : queue_wf st -> queue_wf (step op st).
Proof.
  intros Hwf. destruct op; simpl; unfold exec.
  - eapply queue_wf_same; [apply queue_same_register_call| |done].
    apply (respected_run futures_grow futures_grow_respected
             [OpRegister type agent_factory subscriptions]).
  - eapply queue_wf_same; [apply queue_same_register_factory| |done].
    apply (respected_run futures_grow futures_grow_respected
             [OpRegisterFactory type agent_factory expected_class]).
  - eapply queue_wf_same; [apply queue_same_add_subscription| |done].
    apply (respected_run futures_grow futures_grow_respected
             [OpAddSubscription subscription]).
  - eapply queue_wf_same; [apply queue_same_remove_subscription| |done].
    apply (respected_run futures_grow futures_grow_respected
             [OpRemoveSubscription id]).
  - eapply queue_wf_same; [apply queue_same_CancellationToken_new| |done].
    apply (respected_run futures_grow futures_grow_respected [OpNewToken]).
  - eapply queue_wf_same; [apply queue_same_cancel| |done].
    apply (respected_run futures_grow futures_grow_respected [OpCancel tok]).
  - by apply queue_wf_send_message.
  - by apply queue_wf_publish_message.
  - eapply queue_wf_same; [apply queue_same__get_agent| |done].
    apply (respected_run futures_grow futures_grow_respected [OpGetAgent a]).
  - destruct (_process_next st) as [[r st']|] eqn:E; [|done].
    by eapply queue_wf__process_next.
  - by apply queue_wf_run_dispatcher.
  - eapply queue_wf_same; [|apply (respected_run futures_grow
                                     futures_grow_respected [OpStart])|done].
    unfold start, bind, get_state. destruct (_run_context st); [done|].
    by destruct st.
  - by apply queue_wf_stop.
  - destruct (stop_when_idle fuel st) as [[r st']|] eqn:E.
    + by eapply queue_wf_stop_when_idle.
    + by apply queue_wf_run_dispatcher.
  - destruct (stop_when condition polls st) as [[r st']|] eqn:E.
    + by eapply queue_wf_stop_when.
    + by apply queue_wf_run_dispatcher.
Qed.

Lemma queue_wf_run ops : ∀ st, queue_wf st -> queue_wf (run ops st).
Proof.
  induction ops as [|op ops IH]; intros st Hwf; [done|].
  apply IH. by apply queue_wf_step.
Qed.


(** X10: as long as every delivery runs in one go (no handler or
    factory is still awaited when a public method is called, and none
    calls the runtime itself), in every state reachable from a new
    runtime by public calls and dispatcher turns, with or without
    intervention handlers, the queue's accounting is sound:
    [unprocessed_messages_count] never exceeds the outstanding-task
    counter, and every result handle carried by a queued envelope is a
    future the runtime created. *)
Theorem reachable_queue_is_sound ops handlers :
  let st := run ops (Runtime_init handlers) in
  (unprocessed_messages_count st ≤ _unfinished_tasks (_message_queue st))%nat ∧
  ∀ e f, e ∈ q_items (_message_queue st) -> envelope_future e = Some f ->
         is_Some (futures st !! f).
Proof.
  intros st.
  assert (queue_wf st) as [Hlen Hall].
  { apply queue_wf_run. by apply queue_wf_empty. }
  split; [done|].
  intros e f He Hf. apply lookup_lt_is_Some.
  rewrite Forall_forall in Hall. by apply (Hall e He).
Qed.

(** * The delivery tasks *)


(** ** The delivery of a Send, by its outcome *)

Lemma quiet_unaccounted evs : Forall quiet evs -> Forall unaccounted evs.
Proof. intros H. eapply Forall_impl; [exact H|]. by intros ev (_ & ? & ?). Qed.

Lemma cache_update_trace ia n evs ev st :
  set_trace (trace (cache_update ia n evs st) ++ [ev]) (cache_update ia n evs st)
  = cache_update ia n (evs ++ [ev]) st.
Proof. unfold cache_update. state_eq st. Qed.

(** [_process_send] resolves the recipient and calls its handler;
    what follows depends on the outcome only: the reply is queued, or
    the exception goes to the handle. *)
Lemma _process_send_outcome env st :
  ∃ ia n evs,
    Forall unaccounted evs ∧
    _process_send env st
    = match send_outcome st env with
      | Ok r =>
          Queue_put (EResponse (mkResponse r (s_future env) (s_recipient env)
                                  (s_sender env))) ;;
          Queue_task_done
      | Err e =>
          if decide (e = CancelledError) then
            let* cancelled := Future_cancelled (s_future env) in
            (if cancelled then pure tt
             else Future_set_exception (s_future env) e) ;;
            Queue_task_done
          else
            Future_set_exception (s_future env) e ;;
            Queue_task_done
      end (cache_update ia n evs st).
Proof.
  destruct (_get_agent (s_recipient env) st) as [ra st1] eqn:E.
  destruct (_get_agent_frame_eq _ _ _ _ E) as (ia & n & evs & -> & Hq).
  pose proof (_get_agent_resolve (s_recipient env) st) as Hres.
  rewrite E in Hres. simpl in Hres.
  unfold _process_send. cbv zeta.
  unfold bind at 1. unfold try_except. unfold bind at 1. rewrite E.
  unfold send_outcome.
  destruct ra as [i|e]; rewrite Hres.
  - exists ia, n, (evs ++ [EvOnMessage (s_recipient env) (s_message env)
                            (send_context (s_sender env)
                               (s_cancellation_token env))]).
    split.
    { apply Forall_app. split; [by apply quiet_unaccounted|].
      by repeat constructor. }
    unfold bind at 1. unfold emit, modify. cbv beta iota.
    rewrite cache_update_trace. unfold send_context.
    destruct (on_message (instance_agent i) (s_message env) _) as [v|e].
    + done.
    + unfold throw. destruct (decide (e = CancelledError)) as [->|Hne].
      * unfold bind, Future_cancelled, pure.
        case_bool_decide; simpl.
        -- by destruct (Queue_task_done _) as [[[]|?] ?].
        -- destruct (Future_set_exception _ _ _) as [[[]|?] ?]; [|done].
           by destruct (Queue_task_done _) as [[[]|?] ?].
      * unfold bind, pure.
        destruct (Future_set_exception _ _ _) as [[[]|?] ?]; [|done].
        by destruct (Queue_task_done _) as [[[]|?] ?].
  - exists ia, n, evs. split; [by apply quiet_unaccounted|].
    destruct (decide (e = CancelledError)) as [->|Hne].
    + unfold bind, Future_cancelled, pure.
      case_bool_decide; simpl.
      * by destruct (Queue_task_done _) as [[[]|?] ?].
      * destruct (Future_set_exception _ _ _) as [[[]|?] ?]; [|done].
        by destruct (Queue_task_done _) as [[[]|?] ?].
    + unfold bind, pure.
      destruct (Future_set_exception _ _ _) as [[[]|?] ?]; [|done].
      by destruct (Queue_task_done _) as [[[]|?] ?].
Qed.

Lemma count_task_done_app tr evs :
  count_task_done (tr ++ evs) = count_task_done tr + count_task_done evs.
Proof. unfold count_task_done. by rewrite filter_app, length_app. Qed.

Lemma count_put_app tr evs :
  count_put (tr ++ evs) = count_put tr + count_put evs.
Proof. unfold count_put. by rewrite filter_app, length_app. Qed.

Lemma count_unaccounted evs :
  Forall unaccounted evs -> count_put evs = 0 ∧ count_task_done evs = 0.
Proof.
  induction 1 as [|ev evs [Hp Ht] _ [IH1 IH2]]; [done|].
  unfold count_put, count_task_done in *. rewrite !filter_cons.
  destruct ev; simpl in *; try done.
Qed.

(** X2: when the delivery of a Send fails (the recipient cannot be
    instantiated, or its handler raises) and the result handle is
    already done, [_process_send] itself dies with [InvalidStateError]
    raised by [future.set_exception] in its [except] clause, before it
    reaches [task_done()]: the queue and the handle are left as they
    were and no item is marked done.  (The one exception is a
    [CancelledError] on a cancelled handle, which the first [except]
    clause checks for.) *)
Theorem failed_send_to_settled_handle_is_never_marked_done env st e s :
  send_outcome st env = Err e ->
  futures st !! s_future env = Some s ->
  s ≠ FPending ->
  ¬ (e = CancelledError ∧ s = FCancelled) ->
  ∃ st',
    _process_send env st = (Err InvalidStateError, st') ∧
    _message_queue st' = _message_queue st ∧
    futures st' = futures st ∧
    count_task_done (trace st') = count_task_done (trace st).
Proof.
  intros Hout Hf Hs Hc.
  destruct (_process_send_outcome env st) as (ia & n & evs & Hevs & ->).
  rewrite Hout.
  assert ((Future_set_exception (s_future env) e ;; Queue_task_done)
            (cache_update ia n evs st)
          = (Err InvalidStateError, cache_update ia n evs st)) as Hset.
  { unfold bind, Future_set_exception. simpl. rewrite Hf.
    by destruct s. }
  exists (cache_update ia n evs st).
  split; [|split; [done|split; [done|]]].
  - destruct (decide (e = CancelledError)) as [->|Hne]; [|done].
    unfold bind at 1. unfold Future_cancelled. simpl.
    rewrite bool_decide_eq_false_2; [exact Hset|].
    rewrite Hf. intros [= ->]. by apply Hc.
  - simpl. rewrite count_task_done_app.
    destruct (count_unaccounted _ Hevs) as [_ ->]. lia.
Qed.

Lemma failed_send_to_settled_handle_is_never_marked_done_witness :
  ∃ st',
    _process_send unknown_envelope (dequeued [] unknown_sent)
    = (Err InvalidStateError, st') ∧
    _unfinished_tasks (_message_queue st') = 1.
Proof.
  destruct (failed_send_to_settled_handle_is_never_marked_done
              unknown_envelope (dequeued [] unknown_sent)
              (LookupError "Agent with name user not found.")
              (FException (Exception "Recipient not found")))
    as (st' & H1 & H2 & _).
  - reflexivity.
  - reflexivity.
  - discriminate.
  - intros [H _]. discriminate H.
  - exists st'. split; [exact H1|]. rewrite H2. reflexivity.
Defined.

Lemma unaccounted_after_publish_loop message r1 :
  Forall unaccounted (after_publish_loop message r1).
Proof.
  unfold after_publish_loop. destruct r1 as [cs|ex].
  - apply Forall_app. split.
    + unfold on_message_events. apply Forall_fmap. by apply Forall_true.
    + destruct (first_exception _); [|done]. unfold publish_log.
      destruct (decide _); by repeat constructor.
  - unfold publish_log. destruct (decide _); by repeat constructor.
Qed.

(** The delivery of an outstanding Publish: its events, none of them
    queue accounting, then [task_done]. *)
Lemma _process_publish_outstanding env st :
  0 < _unfinished_tasks (_message_queue st) ->
  ∃ ia n evs,
    Forall unaccounted evs ∧
    _process_publish env st
    = (Ok tt,
       set_trace (trace st ++ evs ++ [EvTaskDone])
         (set_message_queue
            (mkQueue (q_items (_message_queue st))
               (pred (_unfinished_tasks (_message_queue st)))
               (_is_shutdown (_message_queue st)))
            (cache_update ia n [] st))).
Proof.
  intros Hout.
  destruct (publish_loop (subscribed_recipients st (p_topic_id env)) env [] st)
    as [r1 st1] eqn:Hloop.
  rewrite (_process_publish_eq _ _ _ _ Hloop).
  apply publish_loop_spec in Hloop as (ia & n & evs & -> & Hq & _).
  rewrite Queue_task_done_outstanding by done.
  exists ia, n, (evs ++ after_publish_loop (p_message env) r1).
  split.
  - apply Forall_app. split; [by apply quiet_unaccounted|].
    apply unaccounted_after_publish_loop.
  - f_equal. unfold cache_update. simpl. rewrite <- !app_assoc. state_eq st.
Qed.

(** X13: the delivery of a Publish never raises while its envelope is
    outstanding, whichever subscribers fail to resolve and whichever
    handlers raise: every exception is caught in [_process_publish].
    With handlers that run in one go without calling the runtime, it
    settles no handle, puts nothing on the queue, and marks exactly
    one item done. *)
Theorem publish_delivery_never_raises env st :
  0 < _unfinished_tasks (_message_queue st) ->
  ∃ st',
    _process_publish env st = (Ok tt, st') ∧
    futures st' = futures st ∧
    q_items (_message_queue st') = q_items (_message_queue st) ∧
    S (_unfinished_tasks (_message_queue st'))
    = _unfinished_tasks (_message_queue st) ∧
    count_put (trace st') = count_put (trace st) ∧
    count_task_done (trace st') = S (count_task_done (trace st)).
Proof.
  intros Hout.
  destruct (_process_publish_outstanding env st Hout)
    as (ia & n & evs & Hevs & ->).
  eexists. split; [reflexivity|]. simpl.
  destruct (count_unaccounted _ Hevs) as [Hp Ht].
  repeat split; try done; try lia.
  - rewrite !count_put_app, Hp. unfold count_put. simpl. lia.
  - rewrite !count_task_done_app, Ht. unfold count_task_done. simpl. lia.
Qed.

Lemma publish_delivery_never_raises_witness :
  ∃ st',
    _process_publish fanout_envelope (dequeued [] fanout_published)
    = (Ok tt, st') ∧
    _unfinished_tasks (_message_queue st') = 0.
Proof.
  destruct (publish_delivery_never_raises fanout_envelope
              (dequeued [] fanout_published))
    as (st' & H1 & _ & _ & H2 & _).
  - vm_compute. lia.
  - exists st'. split; [exact H1|].
    change (_unfinished_tasks (_message_queue (dequeued [] fanout_published)))
      with 1 in H2.
    lia.
Defined.

(** X11: on a live queue, the delivery task of an outstanding
    envelope ends normally or with [InvalidStateError], the exception
    of settling a handle that is already done.  No exception of an
    agent's handler, of a factory or of the agent lookup escapes a
    delivery task, and [task_done()] is not called too often. *)
Theorem delivery_task_fails_only_with_InvalidStateError e st :
  0 < _unfinished_tasks (_message_queue st) ->
  _is_shutdown (_message_queue st) = false ->
  (deliver e st).1 = Ok tt ∨ (deliver e st).1 = Err InvalidStateError.
Proof.
  intros Hout Hlive.
  destruct (_unfinished_tasks (_message_queue st)) as [|u] eqn:Eu; [lia|].
  destruct e as [env|env|env]; simpl.
  - destruct (_process_send_outcome env st) as (ia & n & evs & _ & ->).
    destruct (send_outcome st env) as [r|ex].
    + unfold bind, Queue_put, Queue_task_done. simpl. rewrite Hlive. simpl.
      by left.
    + destruct (decide (ex = CancelledError)) as [->|Hne];
        unfold bind, Future_cancelled, Future_set_exception, Queue_task_done,
          pure; simpl; rewrite ?Eu;
        try case_bool_decide; simpl;
        destruct (futures st !! s_future env) as [[| | |]|]; simpl;
        rewrite ?Eu; simpl; auto.
  - destruct (publish_loop (subscribed_recipients st (p_topic_id env)) env []
                st) as [r1 st1] eqn:Hloop.
    rewrite (_process_publish_eq _ _ _ _ Hloop).
    apply publish_loop_spec in Hloop as (ia & n & evs & -> & _ & _).
    rewrite Queue_task_done_outstanding by (simpl; lia). by left.
  - unfold _process_response, bind, Queue_task_done, Future_cancelled,
      Future_set_result, pure. rewrite ?Eu. simpl.
    case_bool_decide; simpl; [by left|].
    destruct (futures st !! r_future env) as [[| | |]|]; simpl;
      rewrite ?Eu; simpl; auto.
Qed.

Lemma delivery_task_fails_only_with_InvalidStateError_witness :
  (deliver (ESend unknown_envelope) (dequeued [] unknown_sent)).1 = Ok tt ∨
  (deliver (ESend unknown_envelope) (dequeued [] unknown_sent)).1
  = Err InvalidStateError.
Proof.
  apply (delivery_task_fails_only_with_InvalidStateError
           (ESend unknown_envelope) (dequeued [] unknown_sent)).
  - vm_compute. lia.
  - reflexivity.
Defined.

(** * Running until idle *)


(** ** Draining the queue *)

(** A delivery changes the answer of [resolve] for no id. *)
Lemma resolve_same_deliver e st : resolve_same st (deliver e st).2.
Proof.
  apply (preserves_deliver resolve_same);
    try (intros s **; intros a; by destruct s).
  intros s a i Hnone Hres a'. unfold resolve in *. simpl.
  destruct (decide (a = a')) as [<-|Hne].
  - rewrite lookup_insert_eq, Hnone in *. congruence.
  - by rewrite lookup_insert_ne.
Qed.

Lemma send_outcome_same st st' env :
  resolve_same st st' -> send_outcome st' env = send_outcome st env.
Proof. intros H. unfold send_outcome. by rewrite H. Qed.

Lemma turns_app es es' : turns (es ++ es') = turns es + turns es'.
Proof. unfold turns. by rewrite fmap_app, sum_list_with_app. Qed.

Lemma balanced_refl st : balanced st st.
Proof. unfold balanced. lia. Qed.

Lemma balanced_trans st1 st2 st3 :
  balanced st1 st2 -> balanced st2 st3 -> balanced st1 st3.
Proof. unfold balanced. lia. Qed.

Lemma count_events_unaccounted tr evs :
  Forall unaccounted evs ->
  count_put (tr ++ evs) = count_put tr ∧
  count_task_done (tr ++ evs) = count_task_done tr.
Proof.
  intros H. rewrite count_put_app, count_task_done_app.
  destruct (count_unaccounted _ H) as [-> ->]. lia.
Qed.

(** The delivery of an outstanding envelope on a live queue, when a
    Send among them comes with a reply: what enters the queue is at
    most that reply, the envelope is marked done, and the accounting
    stays balanced. *)
Lemma deliver_outstanding e s :
  _is_shutdown (_message_queue s) = false ->
  0 < _unfinished_tasks (_message_queue s) ->
  match e with
  | ESend env => ∃ r, send_outcome s env = Ok r
  | _ => True
  end ->
  ∃ new,
    q_items (_message_queue (deliver e s).2)
    = q_items (_message_queue s) ++ new ∧
    S (_unfinished_tasks (_message_queue (deliver e s).2))
    = _unfinished_tasks (_message_queue s) + length new ∧
    S (turns new) = turns [e] ∧
    Forall not_a_send new ∧
    balanced s (deliver e s).2.
Proof.
  intros Hlive Hout He. unfold balanced.
  destruct e as [env|env|env]; simpl.
  - destruct He as [r Hr].
    destruct (_process_send_outcome env s) as (ia & n & evs1 & Hevs1 & ->).
    rewrite Hr.
    unfold bind, Queue_put, Queue_task_done. simpl. rewrite Hlive. simpl.
    eexists [_]. repeat split; try done.
    + simpl. lia.
    + by repeat constructor.
    + rewrite <- !app_assoc.
      destruct (count_events_unaccounted (trace s) evs1 Hevs1) as [Hp Ht].
      rewrite (app_assoc (trace s)), count_put_app, count_task_done_app, Hp, Ht.
      unfold count_put, count_task_done. simpl. lia.
  - destruct (_process_publish_outstanding env s Hout)
      as (ia & n & evs & Hevs & ->).
    simpl. exists []. rewrite app_nil_r.
    destruct (count_unaccounted _ Hevs) as [Hp Ht].
    repeat split; try done; try (simpl; lia);
      rewrite ?count_put_app, ?count_task_done_app, ?Hp, ?Ht;
      unfold count_put, count_task_done; simpl; lia.
  - unfold _process_response, bind, Queue_task_done.
    destruct (_unfinished_tasks (_message_queue s)) as [|u] eqn:Eu; [lia|].
    unfold Future_cancelled, Future_set_result, pure. simpl.
    exists []. rewrite app_nil_r.
    case_bool_decide; simpl.
    + repeat split; try done; try lia.
      rewrite count_put_app, count_task_done_app.
      unfold count_put, count_task_done. simpl. lia.
    + destruct (futures s !! r_future env) as [[| | |]|]; simpl;
        (repeat split; try done; try lia;
         rewrite count_put_app, count_task_done_app;
         unfold count_put, count_task_done; simpl; lia).
Qed.

Lemma balanced_events st st' evs :
  Forall unaccounted evs ->
  balanced st st' -> balanced st (set_trace (trace st' ++ evs) st').
Proof.
  intros Hun. unfold balanced. simpl.
  destruct (count_events_unaccounted (trace st') evs Hun) as [-> ->].
  by destruct st'.
Qed.

(** One turn of the dispatcher of a runtime that [settles]. *)
Lemma settles_step st e rest :
  settles st ->
  q_items (_message_queue st) = e :: rest ->
  ∃ st',
    _run_iteration st = Some st' ∧
    settles st' ∧
    S (turns (q_items (_message_queue st'))) = turns (e :: rest) ∧
    balanced st st'.
Proof.
  intros (Hh & Hrc & Hlive & Hu & Hall) Hq.
  rewrite Hq in Hu, Hall. simpl in Hu.
  apply Forall_cons in Hall as [He Hall].
  unfold _run_iteration. rewrite Hrc.
  rewrite (_process_next_head _ _ _ Hq).
  rewrite dispatch_no_handlers by done.
  destruct (create_task_spec (deliver e) (dequeued rest st)) as [Hok [evs Hst]].
  destruct (create_task (deliver e) (dequeued rest st)) as [r st'] eqn:E.
  simpl in Hok, Hst. subst r.
  pose proof (deliver_delivered e (dequeued rest st))
    as (Dh & Drc & Dlive & _).
  pose proof (resolve_same_deliver e (dequeued rest st)) as Dres.
  assert (∀ env, send_outcome st' env = send_outcome st env) as Hsame.
  { intros env. rewrite Hst.
    transitivity (send_outcome (deliver e (dequeued rest st)).2 env).
    - unfold send_outcome, resolve. by destruct (deliver e _).2.
    - rewrite (send_outcome_same _ _ _ Dres).
      unfold send_outcome, resolve. by destruct st. }
  assert (evs = [] ∨ ∃ ex, evs = [EvTaskException ex]) as Hevs.
  { unfold create_task, try_except, emit, modify in E.
    destruct (deliver e (dequeued rest st)) as [[[]|ex] s2]; simpl in *;
      injection E as <-; apply (f_equal trace) in Hst; simpl in Hst.
    - left. rewrite <- (app_nil_r (trace s2)) in Hst at 1.
      by apply app_inv_head in Hst.
    - right. exists ex. apply app_inv_head in Hst. by subst evs. }
  assert (Forall unaccounted evs) as Hun.
  { destruct Hevs as [->|[ex ->]]; by repeat constructor. }
  destruct (deliver_outstanding e (dequeued rest st))
    as (new & Nq & Nu & Nt & Nsend & Nbal).
  { done. }
  { simpl. lia. }
  { by destruct e as [env| |]. }
  exists st'. split; [done|].
  assert (_message_queue st' = _message_queue (deliver e (dequeued rest st)).2)
    as Hqueue by (rewrite Hst; by destruct (deliver e _).2).
  split; [|split].
  - unfold settles. rewrite Hqueue, Nq. simpl in *.
    split; [by rewrite Hst; simpl; rewrite Dh|].
    split; [by rewrite Hst; simpl; rewrite Drc|].
    split; [by rewrite Dlive|].
    split; [rewrite length_app; simpl in Nu; lia|].
    apply Forall_app. split.
    + eapply Forall_impl; [exact Hall|]. intros [env| |]; try done.
      by rewrite Hsame.
    + eapply Forall_impl; [exact Nsend|]. by intros [env| |].
  - rewrite Hqueue, Nq. simpl. rewrite turns_app.
    change (turns (e :: rest)) with (turns ([e] ++ rest)).
    rewrite turns_app. lia.
  - rewrite Hst. apply balanced_events; [done|].
    unfold balanced in *. simpl in Nbal. by destruct st.
Qed.

(** [join] returns once the dispatcher had the turns the queue needs. *)
Lemma settles_join fuel : ∀ st,
  settles st ->
  (turns (q_items (_message_queue st)) ≤ fuel)%nat ->
  ∃ st',
    Queue_join fuel st = Some st' ∧
    settles st' ∧
    q_items (_message_queue st') = [] ∧
    balanced st st'.
Proof.
  induction fuel as [|fuel IH]; intros st Hs Hfuel.
  - destruct (q_items (_message_queue st)) as [|e rest] eqn:Hq.
    + exists st. simpl.
      pose proof Hs as (? & ? & ? & Hu & ?). rewrite Hq in Hu. simpl in Hu.
      destruct (decide _); [|done].
      split; [done|]. split; [done|]. split; [done|]. apply balanced_refl.
    + unfold turns in Hfuel. simpl in Hfuel. destruct e; lia.
  - destruct (q_items (_message_queue st)) as [|e rest] eqn:Hq.
    + exists st. simpl.
      pose proof Hs as (? & ? & ? & Hu & ?). rewrite Hq in Hu. simpl in Hu.
      destruct (decide _); [|done].
      split; [done|]. split; [done|]. split; [done|]. apply balanced_refl.
    + destruct (settles_step st e rest Hs Hq) as (st1 & Hit & Hs1 & Ht & Hb).
      destruct (IH st1 Hs1) as (st' & Hj & Hs' & Hq' & Hb'); [lia|].
      exists st'. simpl.
      pose proof Hs as (? & ? & ? & Hu & ?). rewrite Hq in Hu. simpl in Hu.
      destruct (decide _) as [E0|_]; [lia|].
      rewrite Hit. split; [done|]. split; [done|]. split; [done|].
      by eapply balanced_trans.
Qed.

(** X12: without intervention handlers, [stop_when_idle] returns.
    On a started runtime with a live dispatcher and nothing in flight,
    if every queued Send reaches a handler that returns, and the
    handlers run in one go without calling the runtime (they put
    nothing on the queue themselves), then after as many dispatcher
    turns as the queue needs (two for a Send, one for any other
    envelope) [join()] returns and the runtime is stopped; and the
    queue is balanced: the [task_done()] calls made meanwhile are as
    many as the envelopes that were queued plus those put
    meanwhile. *)
Theorem stop_when_idle_returns_without_handlers st fuel :
  settles st ->
  (turns (q_items (_message_queue st)) ≤ fuel)%nat ->
  ∃ st',
    stop_when_idle fuel st = Some (Ok tt, st') ∧
    _run_context st' = None ∧
    _message_queue st' = Queue_new ∧
    count_task_done (trace st') + count_put (trace st)
    = length (q_items (_message_queue st)) + count_task_done (trace st)
      + count_put (trace st').
Proof.
  intros Hs Hfuel.
  destruct (settles_join fuel st Hs Hfuel) as (st1 & Hj & Hs1 & Hq1 & Hb).
  pose proof Hs as (_ & Hrc & _ & Hu & _).
  pose proof Hs1 as (_ & Hrc1 & _ & Hu1 & _).
  unfold stop_when_idle. rewrite Hrc, Hj.
  unfold RunContext_stop, bind, modify, Queue_shutdown_immediate, modify,
    await_run_task.
  rewrite Hrc1. simpl. unfold _run_iteration. simpl.
  eexists. split; [reflexivity|]. simpl. split; [done|]. split; [done|].
  unfold balanced in Hb. rewrite Hu1, Hq1 in Hb. simpl in Hb. lia.
Qed.

Lemma stop_when_idle_returns_without_handlers_witness :
  ∃ st',
    stop_when_idle 2 echo_sent = Some (Ok tt, st') ∧ _run_context st' = None.
Proof.
  destruct (stop_when_idle_returns_without_handlers echo_sent 2)
    as (st' & H1 & H2 & _).
  - repeat split. repeat constructor. by exists (VStr "hi").
  - vm_compute. lia.
  - exists st'. split; [exact H1|exact H2].
Defined.

(** * Sends that end with an error *)


(** ** A send that ends with an exception *)

Lemma resolve_same_set_trace t st : resolve_same st (set_trace t st).
Proof. intros a. by destruct st. Qed.

Lemma resolve_same_dequeued rest st : resolve_same st (dequeued rest st).
Proof. intros a. by destruct st. Qed.

(** A turn on an envelope that does not carry the handle [f]. *)
Lemma pending_step_ahead f st e rest :
  pending f st ->
  q_items (_message_queue st) = e :: rest ->
  envelope_future e ≠ Some f ->
  ∃ st' new,
    _run_iteration st = Some st' ∧
    pending f st' ∧
    q_items (_message_queue st') = rest ++ new ∧
    foreign f new ∧
    resolve_same st st'.
Proof.
  intros (Hh & Hrc & Hlive & Hlen & Hf) Hq Hne.
  unfold _run_iteration. rewrite Hrc.
  rewrite (_process_next_head _ _ _ Hq).
  rewrite dispatch_no_handlers by done.
  destruct (create_task_spec (deliver e) (dequeued rest st)) as [Hok [evs Hst]].
  destruct (create_task (deliver e) (dequeued rest st)) as [r st'] eqn:E.
  simpl in Hok, Hst. subst r.
  pose proof (deliver_delivered e (dequeued rest st))
    as (Dh & Drc & Dlive & Dfut & new & d & Dq & Du & Dd & Dnew).
  pose proof (resolve_same_deliver e (dequeued rest st)) as Dres.
  exists st', new. split; [done|].
  rewrite Hst. unfold pending. simpl in *. rewrite Hq in Hlen. simpl in Hlen.
  split; [|split; [done|split]].
  - rewrite Dh, Drc, Dlive, Dq, (Dfut f Hne), length_app.
    repeat split; try done. lia.
  - eapply Forall_impl; [exact Dnew|]. simpl. intros e' ->. done.
  - etrans; [apply resolve_same_dequeued|].
    etrans; [exact Dres|]. apply resolve_same_set_trace.
Qed.

Lemma pending_drain_ahead f target pre : ∀ st post,
  pending f st ->
  q_items (_message_queue st) = pre ++ target :: post ->
  foreign f pre ->
  ∃ post',
    pending f (run_dispatcher (length pre) st) ∧
    q_items (_message_queue (run_dispatcher (length pre) st))
    = target :: post' ∧
    resolve_same st (run_dispatcher (length pre) st).
Proof.
  induction pre as [|e pre IH]; intros st post Hp Hq Hpre.
  - by exists post.
  - apply Forall_cons in Hpre as [He Hpre].
    destruct (pending_step_ahead f st e (pre ++ target :: post) Hp Hq He)
      as (st' & new & Hit & Hp' & Hq' & Hnew & Hres).
    change (length (e :: pre)) with (S (length pre)).
    rewrite !(run_dispatcher_step _ _ _ Hit).
    destruct (IH st' (post ++ new)) as (post' & H1 & H2 & H3); try done.
    + by rewrite Hq', <- app_assoc.
    + exists post'. split; [done|]. split; [done|]. by etrans.
Qed.

(** The turn on the send itself, when its outcome is an exception:
    the pending handle gets it. *)
Lemma pending_step_failed f st env post e :
  pending f st ->
  q_items (_message_queue st) = ESend env :: post ->
  s_future env = f ->
  send_outcome st env = Err e ->
  ∃ st',
    _run_iteration st = Some st' ∧
    futures st' !! f = Some (FException e).
Proof.
  intros (Hh & Hrc & Hlive & Hlen & Hf) Hq Hfut Hout.
  unfold _run_iteration. rewrite Hrc.
  rewrite (_process_next_head _ _ _ Hq).
  rewrite dispatch_no_handlers by done.
  rewrite Hq in Hlen. simpl in Hlen.
  destruct (_unfinished_tasks (_message_queue st)) as [|u] eqn:Eu; [lia|].
  unfold create_task, try_except, deliver.
  destruct (_process_send_outcome env (dequeued post st))
    as (ia & n & evs & _ & ->).
  assert (send_outcome (dequeued post st) env = Err e) as -> by done.
  assert ((Future_set_exception (s_future env) e ;; Queue_task_done)
            (cache_update ia n evs (dequeued post st))
          = (Ok tt,
             (Queue_task_done
                (set_futures (<[f := FException e]> (futures st))
                   (cache_update ia n evs (dequeued post st)))).2))
    as Hset.
  { unfold bind, Future_set_exception, Queue_task_done. simpl.
    rewrite Hfut, Hf. simpl. by rewrite Eu. }
  assert (futures (Queue_task_done
                     (set_futures (<[f := FException e]> (futures st))
                        (cache_update ia n evs (dequeued post st)))).2
          !! f = Some (FException e)) as Hres.
  { unfold Queue_task_done. simpl. rewrite Eu. simpl.
    apply list_lookup_insert_eq. by eapply lookup_lt_Some. }
  destruct (decide (e = CancelledError)) as [->|Hne].
  - unfold bind at 1. unfold Future_cancelled. simpl.
    rewrite bool_decide_eq_false_2 by (rewrite Hfut, Hf; done).
    rewrite Hset. eexists. by split.
  - rewrite Hset. eexists. by split.
Qed.

(** X15: the error of a delivery reaches the caller.  Without
    intervention handlers, on a started runtime whose queue is live
    and sound, if the delivery of [send_message(m, recipient)] to a
    registered type ends with an exception [e] (the recipient's
    factory fails, or its [on_message] raises), the handle returned by
    [send_message], pending at first, fails with exactly [e] once the
    dispatcher has reached the envelope, and stays so. *)
Theorem failed_delivery_fails_the_handle st m recipient sender e :
  _intervention_handlers st = None ->
  _run_context st = Some (mkRunContext false TaskPending) ->
  _is_shutdown (_message_queue st) = false ->
  queue_wf st ->
  is_Some (_agent_factories st !! aid_type recipient) ->
  send_outcome st (mkSend m sender recipient (length (futures st))
                     (length (tokens st))) = Err e ->
  ∃ f st1 n,
    send_message m recipient sender None st = (Ok f, st1) ∧
    await_future f st1 = None ∧
    ∀ k, await_future f (run_dispatcher (n + k) st1) = Some (Err e).
Proof.
  intros Hh Hrc Hlive [Hlen Hall] Hreg Hout.
  rewrite send_message_default_token by done.
  set (f := length (futures st)) in *.
  set (env := mkSend m sender recipient f (length (tokens st))) in *.
  match goal with |- ∃ f0 st1 n, (_, ?s) = _ ∧ _ => set (st1 := s) end.
  assert (futures st1 !! f = Some FPending) as Hf.
  { subst st1 f. simpl. by apply list_lookup_middle. }
  assert (pending f st1) as Hp.
  { unfold pending. subst st1. simpl. rewrite length_app. simpl.
    repeat split; try done. lia. }
  assert (foreign f (q_items (_message_queue st))) as Hpre.
  { eapply Forall_impl; [exact Hall|]. intros e0 He Hef.
    specialize (He _ Hef). subst f. lia. }
  assert (resolve_same st st1) as Hres0 by (intros a; by destruct st).
  destruct (pending_drain_ahead f (ESend env)
              (q_items (_message_queue st)) st1 [] Hp)
    as (post' & HpA & HqA & HresA); [done|done|].
  set (nA := length (q_items (_message_queue st))) in *.
  destruct (pending_step_failed f (run_dispatcher nA st1) env post' e HpA HqA)
    as (sB & HitB & HfB); [done| |].
  { rewrite <- Hout. apply send_outcome_same. by etrans. }
  exists f, st1, (nA + 1). split; [done|].
  split; [unfold await_future; by rewrite Hf|].
  intros k.
  rewrite !run_dispatcher_add, (run_dispatcher_one _ _ HitB).
  unfold await_future.
  by rewrite (respected_run_dispatcher settled_kept settled_kept_respected
                k sB f _ HfB).
Qed.

Lemma failed_delivery_fails_the_handle_witness :
  ∃ st1 n,
    send_message (VStr "hi") failing_id None None failing_runtime
    = (Ok 0, st1) ∧
    ∀ k, await_future 0 (run_dispatcher (n + k) st1)
         = Some (Err (Exception "boom")).
Proof.
  destruct (failed_delivery_fails_the_handle failing_runtime (VStr "hi")
              failing_id None (Exception "boom"))
    as (f & st1 & n & H1 & _ & H2).
  - reflexivity.
  - reflexivity.
  - reflexivity.
  - split; [vm_compute; lia|]. vm_compute. constructor.
  - vm_compute. eauto.
  - reflexivity.
  - assert (f = 0) as -> by (vm_compute in H1; congruence).
    exists st1, n. split; [exact H1|exact H2].
Defined.

(** ** A recipient of an unknown type *)


(** [send_message] without a token to a type nobody registered, on a
    live queue. *)
Lemma send_message_unknown m recipient sender st :
  _agent_factories st !! aid_type recipient = None ->
  _is_shutdown (_message_queue st) = false ->
  send_message m recipient sender None st
  = (Ok (length (futures st)),
     set_tokens
       (<[length (tokens st) := mkToken false [length (futures st)]]>
          (tokens st ++ [mkToken false []]))
       (set_futures
          (<[length (futures st) := FException (Exception "Recipient not found")]>
             (futures st ++ [FPending]))
          (send_enqueued
             (mkSend m sender recipient (length (futures st))
                (length (tokens st))) st))).
Proof.
  intros Hreg Hlive.
  unfold send_message, CancellationToken_new, create_future, Queue_put,
    link_future.
  munfold. simpl. rewrite Hreg.
  destruct (decide (is_Some None)) as [[? ?]|_]; [done|].
  simpl. rewrite list_lookup_middle by done. simpl. rewrite Hlive. simpl.
  rewrite list_lookup_middle by done. reflexivity.
Qed.

(** X1: a send to a type nobody registered.  On an idle started
    runtime without intervention handlers, [send_message] to such a
    recipient gives a handle that fails at once with
    [Exception("Recipient not found")], and queues the envelope all
    the same.  When the dispatcher delivers it, the agent lookup
    fails, [future.set_exception] on the handle that is already done
    raises [InvalidStateError], and the delivery task dies before
    [task_done()]: the outstanding counter stays at 1 and
    [stop_when_idle] never returns. *)
Theorem send_to_unknown_type_is_never_marked_done st m recipient sender :
  _intervention_handlers st = None ->
  _run_context st = Some (mkRunContext false TaskPending) ->
  _message_queue st = Queue_new ->
  _agent_factories st !! aid_type recipient = None ->
  _instantiated_agents st !! recipient = None ->
  ∃ f st1,
    send_message m recipient sender None st = (Ok f, st1) ∧
    await_future f st1 = Some (Err (Exception "Recipient not found")) ∧
    unprocessed_messages_count st1 = 1 ∧
    (∀ n, trace (run_dispatcher (S n) st1)
          = trace st1 ++ [EvTaskException InvalidStateError]) ∧
    ∀ fuel, stop_when_idle fuel st1 = None.
Proof.
  intros Hh Hrc Hq Hreg Hmiss.
  rewrite send_message_unknown by (done || by rewrite Hq).
  set (f := length (futures st)).
  set (env := mkSend m sender recipient f (length (tokens st))).
  match goal with |- ∃ f0 st1, (_, ?s) = _ ∧ _ => set (st1 := s) end.
  exists f, st1. split; [done|].
  assert (futures st1 !! f
          = Some (FException (Exception "Recipient not found"))) as Hf.
  { subst st1 f. simpl. apply list_lookup_insert_eq.
    rewrite length_app. simpl. lia. }
  split; [unfold await_future; by rewrite Hf|].
  assert (q_items (_message_queue st1) = [ESend env]) as Hq1.
  { subst st1. simpl. by rewrite Hq. }
  split; [unfold unprocessed_messages_count, qsize; by rewrite Hq1|].
  assert (∃ st2,
    _run_iteration st1 = Some st2 ∧
    trace st2 = trace st1 ++ [EvTaskException InvalidStateError] ∧
    _message_queue st2 = mkQueue [] 1 false ∧
    _run_context st2 = Some (mkRunContext false TaskPending))
    as (st2 & Hit & Htr & Hq2 & Hrc2).
  { unfold _run_iteration.
    assert (_run_context st1 = Some (mkRunContext false TaskPending)) as ->
      by done.
    rewrite (_process_next_head _ _ _ Hq1).
    rewrite dispatch_no_handlers by done.
    unfold create_task, try_except, deliver, _process_send. cbv zeta.
    unfold bind at 1. unfold try_except. unfold bind at 1.
    rewrite _get_agent_unregistered by done.
    destruct (decide _) as [?|_]; [done|].
    unfold bind at 1. unfold Future_set_exception.
    assert (futures (dequeued [] st1) !! s_future env
            = Some (FException (Exception "Recipient not found"))) as ->
      by done.
    eexists. split; [reflexivity|]. simpl. by rewrite Hq. }
  assert (_run_iteration st2 = None) as Hwait.
  { unfold _run_iteration, _process_next, Queue_get. by rewrite Hrc2, Hq2. }
  split.
  - intros n. rewrite (run_dispatcher_step _ _ _ Hit).
    by rewrite run_dispatcher_waits.
  - intros fuel. unfold stop_when_idle.
    assert (_run_context st1 = Some (mkRunContext false TaskPending)) as ->
      by done.
    assert (Queue_join fuel st1 = None) as ->; [|done].
    destruct fuel as [|fuel]; simpl.
    + by subst st1.
    + rewrite Hit. destruct fuel as [|fuel]; simpl; rewrite Hq2; simpl;
        [done|]. by rewrite Hwait.
Qed.

Lemma send_to_unknown_type_is_never_marked_done_witness :
  ∃ st1,
    send_message (VStr "hi") stranger_id None None (echo_runtime None)
    = (Ok 0, st1) ∧
    await_future 0 st1 = Some (Err (Exception "Recipient not found")) ∧
    ∀ fuel, stop_when_idle fuel st1 = None.
Proof.
  destruct (send_to_unknown_type_is_never_marked_done (echo_runtime None)
              (VStr "hi") stranger_id None)
    as (f & st1 & H1 & H2 & _ & _ & H3).
  - reflexivity.
  - reflexivity.
  - reflexivity.
  - reflexivity.
  - reflexivity.
  - assert (f = 0) as -> by (vm_compute in H1; congruence).
    exists st1. split; [exact H1|]. split; [exact H2|exact H3].
Defined.

(** * Intervention handlers that stop the pipeline *)


(** When the hook of a handler raises, the handlers after it are not
    called and no delivery task is spawned. *)
Lemma dispatch_raises e st pre h post ex :
  _intervention_handlers st = Some (pre ++ h :: post) ->
  Forall (fun h' => passes (intervene h' e)) pre ->
  intervene h e = Raises ex ->
  dispatch e st
  = settle_raised e ex
      (set_trace (trace st ++ intervention_events pre e
                  ++ [hook_event h e (envelope_message e)]) st).
Proof.
  intros H Hp Hv. unfold dispatch. munfold. rewrite H.
  destruct e as [env|env|env]; simpl in *.
  - rewrite intercept_send_app by done. simpl. munfold. simpl.
    rewrite Hv. simpl.
    rewrite !set_trace_set_trace, <- !app_assoc.
    by destruct (futures st !! s_future env) as [[| | |]|].
  - rewrite intercept_publish_app by done. simpl. munfold. simpl.
    rewrite Hv. simpl.
    by rewrite !set_trace_set_trace, <- !app_assoc.
  - rewrite intercept_response_app by done. simpl. munfold. simpl.
    rewrite Hv. simpl.
    rewrite !set_trace_set_trace, <- !app_assoc.
    by destruct (futures st !! r_future env) as [[| | |]|].
Qed.

Lemma hook_event_not_invoked h e m a : ¬ invoked a [hook_event h e m].
Proof.
  intros (m' & ctx & Hin). apply list_elem_of_singleton in Hin. by destruct e.
Qed.

(** X14: an intervention handler that raises.  When the hook of a
    handler raises [ex] for the envelope at the head of the queue, the
    hooks called are those of the handlers before it and its own, each
    on the message the envelope was queued with: the handlers after it
    are not called, nobody's [on_message] is invoked, and the envelope
    is gone from the queue without [task_done()] (the outstanding
    counter keeps counting it).  The exception goes to the result
    handle of a Send or Response, pending until then; for a Publish it
    is only logged, in the text of the error. *)
Theorem raising_handler_stops_the_pipeline st e rest pre h post ex :
  q_items (_message_queue st) = e :: rest ->
  _intervention_handlers st = Some (pre ++ h :: post) ->
  Forall (fun h' => passes (intervene h' e)) pre ->
  intervene h e = Raises ex ->
  (∀ f, envelope_future e = Some f -> futures st !! f = Some FPending) ->
  ∃ st' evs,
    _process_next st = Some (Ok tt, st') ∧
    q_items (_message_queue st') = rest ∧
    _unfinished_tasks (_message_queue st')
    = _unfinished_tasks (_message_queue st) ∧
    trace st' = trace st ++ evs ∧
    evs = intervention_events pre e
          ++ [hook_event h e (envelope_message e)]
          ++ match e with
             | EPublish _ =>
                 [EvLogErrorWith "Exception raised in in intervention handler"
                    ex]
             | _ => []
             end ∧
    filter is_hook evs
    = (fun h' => hook_event h' e (envelope_message e)) <$> (pre ++ [h]) ∧
    count_task_done evs = 0 ∧
    (∀ a, ¬ invoked a evs) ∧
    match envelope_future e with
    | Some f => futures st' = <[f := FException ex]> (futures st)
    | None => futures st' = futures st
    end.
Proof.
  intros Hq Hh Hp Hv Hf.
  rewrite (_process_next_head _ _ _ Hq).
  rewrite (dispatch_raises e _ pre h post ex) by done.
  assert (∀ a tl, (∀ a, ¬ invoked a tl) ->
            ¬ invoked a (intervention_events pre e
                         ++ [hook_event h e (envelope_message e)] ++ tl))
    as Hinv.
  { intros a tl Htl Ha.
    apply invoked_app in Ha as [Ha|Ha];
      [by apply intervention_events_not_invoked in Ha|].
    apply invoked_app in Ha as [Ha|Ha];
      [by apply hook_event_not_invoked in Ha|by apply Htl in Ha]. }
  assert (∀ tl, count_task_done tl = 0 ->
            count_task_done (intervention_events pre e
                             ++ [hook_event h e (envelope_message e)] ++ tl)
            = 0) as Hcount.
  { intros tl Htl. rewrite !count_task_done_app, Htl.
    assert (count_task_done (intervention_events pre e) = 0) as ->.
    { apply count_unaccounted. unfold intervention_events.
      apply Forall_forall. intros ev Hev.
      apply list_elem_of_In, in_flat_map in Hev as (h' & _ & [<-|Hev]).
      - by destruct e.
      - unfold warn_events in Hev. repeat case_match; simpl in Hev;
          try done. by destruct Hev as [<-|[]]. }
    by destruct e. }
  assert (∀ tl, filter is_hook tl = [] ->
            filter is_hook (intervention_events pre e
                            ++ [hook_event h e (envelope_message e)] ++ tl)
            = (fun h' => hook_event h' e (envelope_message e))
              <$> (pre ++ [h])) as Hhooks.
  { intros tl Htl. rewrite !filter_app, Htl, app_nil_r, fmap_app.
    f_equal; [|by destruct e].
    clear. induction pre as [|h' pre IH]; [done|].
    unfold intervention_events in *. simpl.
    rewrite filter_cons, filter_app, IH.
    assert (filter is_hook (warn_events (hook_name e) (intervene h' e)) = [])
      as ->.
    { unfold warn_events. by repeat case_match. }
    by destruct e. }
  destruct e as [env|env|env]; simpl in *.
  - specialize (Hf _ eq_refl). unfold Future_set_exception. simpl.
    rewrite Hf. eexists _, _. split; [reflexivity|]. simpl.
    split; [done|]. split; [done|]. split; [done|]. split; [done|].
    split; [by apply Hhooks|]. split; [by apply Hcount|].
    split; [|done]. intros a. apply Hinv.
    intros a' (? & ? & Hin). by apply not_elem_of_nil in Hin.
  - unfold emit, modify. eexists _, _. split; [reflexivity|]. simpl.
    rewrite <- !app_assoc.
    split; [done|]. split; [done|]. split; [done|]. split; [done|].
    split; [by apply Hhooks|]. split; [by apply Hcount|].
    split; [|done]. intros a. apply Hinv.
    intros a' (? & ? & Hin). by apply list_elem_of_singleton in Hin.
  - specialize (Hf _ eq_refl). unfold Future_set_exception. simpl.
    rewrite Hf. eexists _, _. split; [reflexivity|]. simpl.
    split; [done|]. split; [done|]. split; [done|]. split; [done|].
    split; [by apply Hhooks|]. split; [by apply Hcount|].
    split; [|done]. intros a. apply Hinv.
    intros a' (? & ? & Hin). by apply not_elem_of_nil in Hin.
Qed.

Lemma raising_handler_stops_the_pipeline_witness :
  ∃ st',
    _process_next raising_sent = Some (Ok tt, st') ∧
    _unfinished_tasks (_message_queue st') = 1 ∧
    trace st' = trace raising_sent ++ [EvOnSend "R" (VStr "hi")] ∧
    futures st' = [FException (Exception "boom")].
Proof.
  destruct (raising_handler_stops_the_pipeline raising_sent
              (ESend echo_envelope) [] [] raising_handler []
              (Exception "boom"))
    as (st' & evs & H1 & _ & H2 & H3 & H4 & _ & _ & _ & H5).
  - reflexivity.
  - reflexivity.
  - constructor.
  - reflexivity.
  - intros f [= <-]. reflexivity.
  - exists st'. split; [exact H1|]. split; [exact H2|].
    split; [|exact H5]. rewrite H3, H4. reflexivity.
Defined.


(** X4: dropping a Send whose handle is already done kills the
    dispatcher.  When a handler returns [DropMessage] for a Send or
    Response whose result handle is done (cancelled through its token,
    or failed with "Recipient not found"), [future.set_exception]
    raises [InvalidStateError] inside [_process_next]; the exception
    ends the loop of [RunContext._run].  From then on the dispatcher
    makes no step, [stop()] re-raises the exception and leaves the
    run context in place, so that [start()] raises "Runtime is already
    started", and [send_message] raises [QueueShutDown]. *)
Theorem drop_of_settled_handle_kills_the_dispatcher
    st e rest pre h post f s :
  _run_context st = Some (mkRunContext false TaskPending) ->
  q_items (_message_queue st) = e :: rest ->
  _intervention_handlers st = Some (pre ++ h :: post) ->
  Forall (fun h' => passes (intervene h' e)) pre ->
  drops (intervene h e) ->
  envelope_future e = Some f ->
  futures st !! f = Some s ->
  s ≠ FPending ->
  ∃ st1 st2,
    _run_iteration st = Some st1 ∧
    _run_context st1
    = Some (mkRunContext false (TaskFailed InvalidStateError)) ∧
    (∀ n, run_dispatcher n st1 = st1) ∧
    stop st1 = (Err InvalidStateError, st2) ∧
    _run_context st2
    = Some (mkRunContext true (TaskFailed InvalidStateError)) ∧
    start st2 = (Err (RuntimeError "Runtime is already started"), st2) ∧
    (stop st2).1 = Err InvalidStateError ∧
    ∀ m recipient sender tok,
      (send_message m recipient sender tok st2).1 = Err QueueShutDown.
Proof.
  intros Hrc Hq Hh Hp Hd Hef Hf Hs.
  unfold _run_iteration. rewrite Hrc.
  rewrite (_process_next_head _ _ _ Hq).
  rewrite (dispatch_drops e _ pre h post) by done.
  unfold settle_dropped. rewrite Hef.
  unfold Future_set_exception. simpl. rewrite Hf.
  assert (match s with
          | FPending =>
              (Ok tt,
               set_futures (<[f:=FException MessageDroppedException]> (futures st))
                 (set_trace (trace st ++ intervention_events (pre ++ [h]) e)
                    (dequeued rest st)))
          | _ => (Err InvalidStateError,
                  set_trace (trace st ++ intervention_events (pre ++ [h]) e)
                    (dequeued rest st))
          end
          = (Err InvalidStateError,
             set_trace (trace st ++ intervention_events (pre ++ [h]) e)
               (dequeued rest st))) as -> by (by destruct s).
  eexists _, _. split; [reflexivity|]. simpl. split; [done|].
  split; [intros n; by apply run_dispatcher_waits|].
  unfold stop, RunContext_stop, bind, get_state, modify,
    Queue_shutdown_immediate, modify, await_run_task. simpl.
  unfold _run_iteration. simpl.
  split; [reflexivity|]. simpl. split; [done|]. split; [done|].
  split; [done|].
  intros m recipient sender tok.
  unfold send_message, CancellationToken_new, create_future, Queue_put,
    bind, get_state, pure, Future_set_exception.
  destruct tok; simpl; destruct (decide _); simpl;
    rewrite ?list_lookup_middle by done; done.
Qed.

Lemma drop_of_settled_handle_kills_the_dispatcher_witness :
  ∃ st1 st2,
    _run_iteration drop_unknown_sent = Some st1 ∧
    stop st1 = (Err InvalidStateError, st2) ∧
    start st2 = (Err (RuntimeError "Runtime is already started"), st2).
Proof.
  destruct (drop_of_settled_handle_kills_the_dispatcher drop_unknown_sent
              (ESend unknown_envelope) [] [] drop_handler [] 0
              (FException (Exception "Recipient not found")))
    as (st1 & st2 & H1 & _ & _ & H2 & _ & H3 & _).
  - reflexivity.
  - reflexivity.
  - reflexivity.
  - constructor.
  - exists DropMessage. split; reflexivity.
  - reflexivity.
  - reflexivity.
  - discriminate.
  - exists st1, st2. split; [exact H1|]. split; [exact H2|exact H3].
Defined.

(** X5: [None] is not [DropMessage].  When the last handler's
    [on_send] returns [None], [_warn_if_none] issues its warning and
    the pipeline goes on: the recipient's [on_message] is invoked, with
    [None] as the message. *)
Theorem none_from_a_handler_is_delivered st env rest hs h ag :
  q_items (_message_queue st) = ESend env :: rest ->
  _intervention_handlers st = Some (hs ++ [h]) ->
  Forall (fun h' => passes (intervene h' (ESend env))) hs ->
  on_send h (s_message env) (s_sender env) (s_recipient env) = Returns VNone ->
  resolve st (s_recipient env) = Ok ag ->
  ∃ st',
    _process_next st = Some (Ok tt, st') ∧
    EvWarn (none_warning "on_send") ∈ trace st' ∧
    EvOnMessage (s_recipient env) VNone
      (send_context (s_sender env) (s_cancellation_token env)) ∈ trace st'.
Proof.
  intros Hq Hh Hp Hnone Hres.
  rewrite (_process_next_head _ _ _ Hq).
  assert (Forall (fun h' => passes (intervene h' (ESend env))) (hs ++ [h]))
    as Hall.
  { apply Forall_app. split; [done|]. constructor; [|done].
    exists VNone. by split. }
  rewrite (dispatch_passes _ _ (hs ++ [h])) by done.
  set (st0 := set_trace _ _).
  assert (after_handlers (hs ++ [h]) (ESend env)
          = ESend (s_set_message VNone env)) as ->.
  { simpl. unfold s_after, intervened_message. rewrite last_snoc. simpl.
    rewrite Hnone. by destruct hs. }
  destruct (create_task_spec (deliver (ESend (s_set_message VNone env))) st0)
    as [Hok [evs Hst]].
  destruct (create_task _ st0) as [r st'] eqn:E. simpl in Hok, Hst. subst r.
  exists st'. split; [done|].
  destruct (_process_send_invokes (s_set_message VNone env) st0 ag)
    as (evs1 & evs2 & Htr & _); [by destruct st|].
  rewrite Hst. simpl in *. rewrite Htr. subst st0. simpl.
  split.
  - rewrite !elem_of_app. left. left. right.
    unfold intervention_events. rewrite flat_map_app, elem_of_app. right.
    simpl. rewrite Hnone. simpl. set_solver.
  - set_solver.
Qed.

Lemma none_from_a_handler_is_delivered_witness :
  ∃ st',
    _process_next none_sent = Some (Ok tt, st') ∧
    EvOnMessage echo_id VNone (send_context None 0) ∈ trace st'.
Proof.
  destruct (none_from_a_handler_is_delivered none_sent echo_envelope []
              [] none_handler echo_agent)
    as (st' & H1 & _ & H2).
  - reflexivity.
  - reflexivity.
  - constructor.
  - reflexivity.
  - reflexivity.
  - exists st'. split; [exact H1|exact H2].
Defined.


(** * Lifecycle, registration and the remaining members *)

(** X3: [stop()] throws the queue away and settles nothing.  On a
    started runtime with a live dispatcher and no delivery in flight,
    [stop] returns with the run context cleared and a new, empty
    queue; factories, instances, subscriptions and futures are as
    before.  A handle that was pending stays pending: the discarded
    envelopes are not delivered by this run, nor by the dispatcher of
    a later one after [start()]. *)
Theorem stop_leaves_queued_sends_pending st :
  _run_context st = Some (mkRunContext false TaskPending) ->
  stop st = (Ok tt, stopped st) ∧
  unprocessed_messages_count (stopped st) = 0 ∧
  (∀ f, await_future f (stopped st) = await_future f st) ∧
  ∃ st',
    start (stopped st) = (Ok tt, st') ∧
    ∀ n f, await_future f (run_dispatcher n st') = await_future f st.
Proof.
  intros Hrc.
  assert (stop st = (Ok tt, stopped st)) as Hstop.
  { unfold stop, RunContext_stop, bind, get_state, modify,
      Queue_shutdown_immediate, modify, await_run_task.
    rewrite Hrc. simpl. unfold _run_iteration. simpl.
    rewrite !Hrc. simpl. unfold stopped. by destruct st. }
  split; [done|]. split; [done|]. split; [by destruct st|].
  eexists. split; [reflexivity|].
  intros n f. rewrite run_dispatcher_waits by done. by destruct st.
Qed.

Lemma stop_leaves_queued_sends_pending_witness :
  unprocessed_messages_count echo_sent = 1 ∧
  stop echo_sent = (Ok tt, stopped echo_sent) ∧
  await_future 0 (stopped echo_sent) = None.
Proof.
  destruct (stop_leaves_queued_sends_pending echo_sent) as (H1 & _ & H2 & _).
  - reflexivity.
  - split; [reflexivity|]. split; [exact H1|]. rewrite H2. reflexivity.
Defined.

(** X6: the number of parameters of a factory is checked when the
    factory is used, not when it is registered.  [register] binds a
    factory of any signature to a free type name; for a signature with
    neither 0 nor 2 parameters every [_get_agent] of that type then
    raises [ValueError], without calling the factory, caching
    anything or changing the runtime. *)
Theorem factory_arity_is_checked_on_lookup st ty arity body key :
  _agent_factories st !! ty = None ->
  _instantiated_agents st !! mkAgentId ty key = None ->
  arity ≠ 0 ->
  arity ≠ 2 ->
  ∃ st1,
    register ty (Callable arity body) None st = (Ok (mkAgentType ty), st1) ∧
    _get_agent (mkAgentId ty key) st1
    = (Err (ValueError "Agent factory must take 0 or 2 arguments."), st1).
Proof.
  intros Hfree Hmiss H0 H2.
  unfold register, bind, get_state, modify, pure. rewrite Hfree.
  destruct (decide (is_Some None)) as [[? ?]|_]; [done|].
  eexists. split; [reflexivity|].
  unfold _get_agent, bind, get_state. simpl. rewrite Hmiss.
  rewrite lookup_insert_eq. unfold _invoke_agent_factory. simpl.
  destruct (decide (arity = 0)); [done|].
  by destruct (decide (arity = 2)).
Qed.

Lemma factory_arity_is_checked_on_lookup_witness :
  ∃ st1,
    register "bad" (Callable 1 (fun _ => Produces echo_agent)) None
      (Runtime_init None)
    = (Ok (mkAgentType "bad"), st1) ∧
    _get_agent (mkAgentId "bad" "default") st1
    = (Err (ValueError "Agent factory must take 0 or 2 arguments."), st1).
Proof.
  apply (factory_arity_is_checked_on_lookup (Runtime_init None) "bad" 1
           (fun _ => Produces echo_agent) "default").
  - reflexivity.
  - reflexivity.
  - lia.
  - lia.
Defined.

(** The loop of [register] over subscriptions that are all new. *)
Lemma add_subscriptions_new pre : ∀ st (k : M unit),
  NoDup (sub_id <$> pre) ->
  (∀ s', s' ∈ pre -> sub_id s' ∉ sub_id <$> _subscription_manager st) ->
  foldr (fun subscription k => add_subscription subscription ;; k) k pre st
  = k (set_subscription_manager (_subscription_manager st ++ pre) st).
Proof.
  induction pre as [|s pre IH]; intros st k Hnd Hnew; simpl.
  - rewrite app_nil_r. by destruct st.
  - rewrite fmap_cons in Hnd. apply NoDup_cons in Hnd as [Hs Hnd].
    unfold bind at 1. unfold add_subscription.
    rewrite bool_decide_eq_false_2 by (apply Hnew; set_solver).
    rewrite IH; [|done|].
    + simpl. rewrite <- app_assoc. by destruct st.
    + intros s' Hs'. simpl. rewrite fmap_app, elem_of_app. intros [Hin|Hin].
      * by apply (Hnew s'); [apply elem_of_cons; right|].
      * apply list_elem_of_singleton in Hin. apply Hs. rewrite <- Hin.
        by apply list_elem_of_fmap_2.
Qed.

(** X7: [register] is not atomic.  Its subscriptions are added one by
    one before the factory is stored: when one of them is rejected
    (its id is already taken; the subscription manager is modelled
    from its description), [register] raises, the subscriptions
    before it stay added, and the type is still unregistered, so
    that no id of that type resolves. *)
Theorem failed_register_keeps_earlier_subscriptions st ty fac pre s post :
  _agent_factories st !! ty = None ->
  NoDup (sub_id <$> pre) ->
  (∀ s', s' ∈ pre -> sub_id s' ∉ sub_id <$> _subscription_manager st) ->
  sub_id s ∈ sub_id <$> (_subscription_manager st ++ pre) ->
  ∃ e st',
    register ty fac (Some (pre ++ s :: post)) st = (Err e, st') ∧
    _subscription_manager st' = _subscription_manager st ++ pre ∧
    _agent_factories st' !! ty = None ∧
    ∀ a, resolve st' a = resolve st a.
Proof.
  intros Hfree Hnd Hnew Hdup.
  unfold register. unfold bind at 1. unfold get_state. rewrite Hfree.
  destruct (decide (is_Some None)) as [[? ?]|_]; [done|].
  unfold bind at 1. rewrite foldr_app.
  rewrite add_subscriptions_new by done.
  simpl. unfold bind at 1. unfold add_subscription. simpl.
  rewrite bool_decide_eq_true_2 by done.
  eexists _, _. split; [reflexivity|]. simpl.
  split; [done|]. split; [done|]. intros a. by destruct st.
Qed.

Lemma failed_register_keeps_earlier_subscriptions_witness :
  ∃ e st',
    register "c" echo_factory
      (Some [mkSubscription "sub-c" (fun _ => true) (fun _ => subscriber_id);
             mkSubscription "sub-b" (fun _ => true) (fun _ => subscriber_id)])
      subscriber_runtime
    = (Err e, st') ∧
    sub_id <$> _subscription_manager st' = ["sub-b"; "sub-c"] ∧
    _agent_factories st' !! "c" = None.
Proof.
  destruct (failed_register_keeps_earlier_subscriptions subscriber_runtime
              "c" echo_factory
              [mkSubscription "sub-c" (fun _ => true) (fun _ => subscriber_id)]
              (mkSubscription "sub-b" (fun _ => true) (fun _ => subscriber_id))
              [])
    as (e & st' & H1 & H2 & H3 & _).
  - reflexivity.
  - simpl. apply NoDup_singleton.
  - intros s' Hs'. apply list_elem_of_singleton in Hs'. subst s'.
    vm_compute. intros H. apply list_elem_of_In in H. simpl in H.
    destruct H as [H|[]]. discriminate H.
  - vm_compute. apply list_elem_of_In. left. reflexivity.
  - exists e, st'. split; [exact H1|]. split; [|exact H3].
    rewrite H2. reflexivity.
Defined.

(** X16: [try_get_underlying_agent_instance] checks the class after
    it has instantiated the agent.  For an id that is not yet cached,
    of a registered type whose factory produces an agent that is not
    an instance of the class asked for, the call raises [TypeError],
    but the agent has been created and cached: a later [_get_agent]
    returns it without calling the factory. *)
Theorem type_mismatch_still_instantiates st id type fac ag :
  _instantiated_agents st !! id = None ->
  _agent_factories st !! aid_type id = Some fac ->
  invoke_product fac id = Ok ag ->
  isinstance type ag = false ->
  ∃ msg i st',
    try_get_underlying_agent_instance id type st = (Err (TypeError msg), st') ∧
    instance_agent i = ag ∧
    _instantiated_agents st' !! id = Some i ∧
    _get_agent id st' = (Ok i, st').
Proof.
  intros Hmiss Hfac Hprod Hinst.
  unfold try_get_underlying_agent_instance, bind at 1, get_state.
  rewrite Hfac. destruct (decide (Some fac = None)) as [?|_]; [done|].
  unfold bind. rewrite (_get_agent_created _ _ _ _ Hmiss Hfac Hprod).
  simpl. rewrite Hinst. unfold throw.
  eexists _, (mkAgentInstance (next_uid st) ag), _.
  split; [reflexivity|]. split; [done|].
  assert (_instantiated_agents
            (cached id (mkAgentInstance (next_uid st) ag)
               (invoke_events fac id (next_uid st)) st) !! id
          = Some (mkAgentInstance (next_uid st) ag)) as Hc.
  { unfold cached. simpl. by rewrite lookup_insert_eq. }
  split; [done|]. by apply _get_agent_cached.
Qed.

Lemma type_mismatch_still_instantiates_witness :
  ∃ msg i st',
    try_get_underlying_agent_instance echo_id Other (echo_runtime None)
    = (Err (TypeError msg), st') ∧
    instance_agent i = echo_agent ∧
    _get_agent echo_id st' = (Ok i, st').
Proof.
  destruct (type_mismatch_still_instantiates (echo_runtime None) echo_id
              Other echo_factory echo_agent)
    as (msg & i & st' & H1 & H2 & _ & H4).
  - reflexivity.
  - reflexivity.
  - reflexivity.
  - reflexivity.
  - exists msg, i, st'. split; [exact H1|]. split; [exact H2|exact H4].
Defined.

(** Any sequence of calls, from a counter whose lock is free. *)
Lemma Counter_calls_from ops : ∀ c0,
  Counter.threadLock c0 = false ->
  ∃ c,
    Counter.calls ops c0 = Some c ∧
    Counter.get c
    = (Counter.get c0 + Z.of_nat (Counter.count Counter.Increment ops)
       - Z.of_nat (Counter.count Counter.Decrement ops))%Z ∧
    Counter.threadLock c = false.
Proof.
  induction ops as [|op ops IH]; intros c0 Hfree.
  - exists c0. unfold Counter.count. simpl. split; [done|]. split; [lia|done].
  - unfold Counter.calls. simpl.
    assert (∃ c1, Counter.call op c0 = Some c1 ∧
                  Counter.threadLock c1 = false ∧
                  Counter.get c1
                  = (Counter.get c0
                     + match op with
                       | Counter.Increment => 1
                       | Counter.Decrement => -1
                       end)%Z) as (c1 & -> & Hfree1 & Hget1).
    { destruct op; unfold Counter.call, Counter.increment, Counter.decrement,
        Counter.acquire; rewrite Hfree; simpl; eexists; done. }
    destruct (IH c1 Hfree1) as (c & Hc & Hget & Hlock).
    exists c. split; [exact Hc|]. split; [|done].
    rewrite Hget, Hget1. unfold Counter.count. rewrite !filter_cons.
    destruct op; repeat (destruct (decide _); try done); simpl; lia.
Qed.

(** X17: [Counter] counts both ways and has no floor.  After any
    sequence of [increment] and [decrement] calls on a new counter,
    every call has returned (the lock is released by each) and [get]
    is the number of increments minus the number of decrements, which
    may be negative. *)
Theorem Counter_get_is_increments_minus_decrements ops :
  ∃ c,
    Counter.calls ops Counter.__init__ = Some c ∧
    Counter.get c
    = (Z.of_nat (Counter.count Counter.Increment ops)
       - Z.of_nat (Counter.count Counter.Decrement ops))%Z.
Proof.
  destruct (Counter_calls_from ops Counter.__init__ eq_refl)
    as (c & Hc & Hget & _).
  exists c. split; [done|]. rewrite Hget. unfold Counter.get. simpl. lia.
Qed.

(** * Properties of the speaker selection *)

Lemma startswith_app literal rest :
  SpeakerSelection.startswith literal (literal +:+ rest) = Some rest.
Proof.
  induction literal as [|a literal IH]; simpl; [done|].
  by rewrite Ascii.eqb_refl.
Qed.

Lemma startswith_Some literal : ∀ s s',
  SpeakerSelection.startswith literal s = Some s' -> s = literal +:+ s'.
Proof.
  induction literal as [|a literal IH]; intros s s' H; simpl in *.
  - by injection H as ->.
  - destruct s as [|b s]; [done|].
    destruct (Ascii.eqb a b) eqn:E; [|done].
    apply Ascii.eqb_eq in E as ->.
    change (String b literal +:+ s') with (String b (literal +:+ s')).
    f_equal. by apply IH.
Qed.

Lemma lookahead_true s :
  SpeakerSelection.lookahead s = true ->
  ∃ a post, s = String a post ∧ SpeakerSelection.is_word a = false.
Proof.
  destruct s as [|a post]; simpl; [done|]. intros H.
  exists a, post. split; [done|]. by apply negb_true_iff.
Qed.

(** The group matches where one of its literals stands before a
    non-word character. *)
Lemma match_group_is_Some alternatives s :
  is_Some (SpeakerSelection.match_group alternatives s) <->
  ∃ literal a post,
    literal ∈ alternatives ∧ s = literal +:+ String a post ∧
    SpeakerSelection.is_word a = false.
Proof.
  induction alternatives as [|lit rest IH]; simpl.
  - split; [by intros [? ?]|]. intros (? & ? & ? & H & _).
    by apply not_elem_of_nil in H.
  - split.
    + intros H.
      destruct (SpeakerSelection.startswith lit s) as [s'|] eqn:E.
      * destruct (SpeakerSelection.lookahead s') eqn:L.
        -- apply lookahead_true in L as (a & post & -> & Ha).
           apply startswith_Some in E. exists lit, a, post.
           split; [apply elem_of_cons; by left|done].
        -- apply IH in H as (l & a & post & Hl & Hs & Ha).
           exists l, a, post. split; [apply elem_of_cons; by right|done].
      * apply IH in H as (l & a & post & Hl & Hs & Ha).
        exists l, a, post. split; [apply elem_of_cons; by right|done].
    + intros (l & a & post & Hl & Hs & Ha).
      apply elem_of_cons in Hl as [->|Hl].
      * subst s. rewrite startswith_app. simpl. by rewrite Ha.
      * assert (is_Some (SpeakerSelection.match_group rest s)) as Hrest
          by (apply IH; by exists l, a, post).
        destruct (SpeakerSelection.startswith lit s) as [s'|]; [|done].
        by destruct (SpeakerSelection.lookahead s').
Qed.

Lemma match_group_empty alternatives :
  SpeakerSelection.match_group alternatives "" = None.
Proof.
  destruct (SpeakerSelection.match_group alternatives "") eqn:E; [|done].
  assert (is_Some (SpeakerSelection.match_group alternatives "")) as H
    by (by rewrite E).
  apply match_group_is_Some in H as (l & a & post & _ & Hs & _).
  by destruct l.
Qed.

(** The scan finds a match where there is one. *)
Lemma findall_positive alternatives s : ∀ prev skip,
  (0 < SpeakerSelection.findall alternatives prev skip s)%nat <->
  SpeakerSelection.match_at alternatives prev skip s.
Proof.
  induction s as [|c s IH]; intros prev skip.
  - simpl. split; [lia|]. intros H. inversion H as [? ? _ Hm|]; subst.
    rewrite match_group_empty in Hm. by destruct Hm.
  - split.
    + simpl. destruct skip as [|skip].
      * destruct (SpeakerSelection.lookbehind prev) eqn:Hb.
        -- destruct (SpeakerSelection.match_group alternatives (String c s))
             eqn:Hm.
           ++ intros _. apply SpeakerSelection.match_here; [done|].
              by rewrite Hm.
           ++ intros H. apply SpeakerSelection.match_later. by apply IH.
        -- intros H. apply SpeakerSelection.match_later. by apply IH.
      * intros H. apply SpeakerSelection.match_later. by apply IH.
    + intros H. inversion H as [? ? Hb Hm|? ? ? ? Hl]; subst.
      * simpl. rewrite Hb. destruct Hm as [n ->]. lia.
      * apply IH in Hl. simpl. destruct skip as [|skip]; [|done].
        destruct (SpeakerSelection.lookbehind prev); [|done].
        destruct (SpeakerSelection.match_group alternatives (String c s));
          [lia|done].
Qed.

(** From the start of a text, a match is a delimited literal. *)
Lemma match_at_delimited alternatives text :
  SpeakerSelection.match_at alternatives None 0 text <->
  ∃ literal,
    literal ∈ alternatives ∧ SpeakerSelection.delimited literal text.
Proof.
  split.
  - assert (∀ prev skip s,
      SpeakerSelection.match_at alternatives prev skip s ->
      (∃ literal a post,
         SpeakerSelection.lookbehind prev = true ∧
         literal ∈ alternatives ∧ s = literal +:+ String a post ∧
         SpeakerSelection.is_word a = false) ∨
      ∃ literal,
        literal ∈ alternatives ∧ SpeakerSelection.delimited literal s)
      as Hgen.
    { intros prev skip s H.
      induction H as [prev s Hb Hm|prev skip c s _ IH].
      - left. apply match_group_is_Some in Hm as (l & a & post & ? & ? & ?).
        by exists l, a, post.
      - right. destruct IH as [(l & a & post & Hb & Hl & -> & Ha)
                              |(l & Hl & pre & b & a & post & -> & Hb & Ha)].
        + exists l. split; [done|]. exists "", c, a, post.
          split; [done|]. split; [|done]. simpl in Hb.
          by apply negb_true_iff.
        + exists l. split; [done|]. by exists (String c pre), b, a, post. }
    intros H. by destruct (Hgen _ _ _ H) as [(? & ? & ? & ? & _)|].
  - intros (l & Hl & pre & b & a & post & -> & Hb & Ha).
    assert (∀ prev,
      SpeakerSelection.match_at alternatives prev 0
        (pre +:+ String b (l +:+ String a post))) as Hgen; [|done].
    induction pre as [|c pre IH]; intros prev; simpl.
    + apply SpeakerSelection.match_later. simpl.
      apply SpeakerSelection.match_here; [simpl; by rewrite Hb|].
      apply match_group_is_Some. by exists l, a, post.
    + apply SpeakerSelection.match_later. simpl. apply IH.
Qed.

Lemma findall_mentioned message_content agent_name :
  (0 < SpeakerSelection.findall (SpeakerSelection.alternatives agent_name)
         None 0 (" " +:+ message_content +:+ " "))%nat <->
  SpeakerSelection.mentioned message_content agent_name.
Proof. by rewrite findall_positive, match_at_delimited. Qed.

(** ** The dictionary of mentions *)

Lemma elem_of_dict_set key value d k :
  k ∈ (SpeakerSelection.dict_set key value d).*1 <-> k = key ∨ k ∈ d.*1.
Proof.
  induction d as [|[k' v'] d IH]; simpl.
  - set_solver.
  - destruct (decide (k' = key)) as [->|Hne]; simpl; set_solver.
Qed.

Lemma NoDup_dict_set key value d :
  NoDup d.*1 -> NoDup (SpeakerSelection.dict_set key value d).*1.
Proof.
  induction d as [|[k' v'] d IH]; simpl; intros Hnd.
  - apply NoDup_singleton.
  - apply NoDup_cons in Hnd as [Hk Hnd].
    destruct (decide (k' = key)) as [->|Hne]; simpl.
    + by apply NoDup_cons.
    + apply NoDup_cons. split; [|by apply IH].
      rewrite elem_of_dict_set. intros [?|?]; done.
Qed.

Lemma positive_dict_set key value d :
  (0 < value)%nat ->
  Forall (fun kv => 0 < kv.2)%nat d ->
  Forall (fun kv => 0 < kv.2)%nat (SpeakerSelection.dict_set key value d).
Proof.
  intros Hv. induction d as [|[k' v'] d IH]; simpl; intros Hd.
  - by repeat constructor.
  - apply Forall_cons in Hd as [Hk Hd].
    destruct (decide (k' = key)); constructor; auto.
Qed.

Lemma mentions_loop_spec message_content agents : ∀ mentions,
  NoDup mentions.*1 ->
  Forall (fun kv => 0 < kv.2)%nat mentions ->
  NoDup (SpeakerSelection.mentions_loop message_content agents mentions).*1 ∧
  Forall (fun kv => 0 < kv.2)%nat
    (SpeakerSelection.mentions_loop message_content agents mentions) ∧
  ∀ k, k ∈ (SpeakerSelection.mentions_loop message_content agents mentions).*1
       <-> k ∈ mentions.*1 ∨
           ((∃ agent, agent ∈ agents ∧ SpeakerSelection.name agent = k) ∧
            SpeakerSelection.mentioned message_content k).
Proof.
  induction agents as [|agent agents IH]; intros mentions Hnd Hpos; simpl.
  - split; [done|]. split; [done|]. intros k. split; [by left|].
    intros [?|[(a & Ha & _) _]]; [done|]. by apply not_elem_of_nil in Ha.
  - destruct (decide _) as [Hc|Hc].
    + destruct (IH (SpeakerSelection.dict_set (SpeakerSelection.name agent)
                      (SpeakerSelection.findall
                         (SpeakerSelection.alternatives
                            (SpeakerSelection.name agent)) None 0
                         (" " +:+ message_content +:+ " ")) mentions))
        as (H1 & H2 & H3).
      { by apply NoDup_dict_set. }
      { by apply positive_dict_set. }
      split; [done|]. split; [done|]. intros k. rewrite H3, elem_of_dict_set.
      apply findall_mentioned in Hc. split.
      * intros [[->|?]|[(a & Ha & Hn) Hm]]; [|by left|].
        -- right. split; [|done]. exists agent. split; [|done].
           apply elem_of_cons. by left.
        -- right. split; [|done]. exists a. split; [|done].
           apply elem_of_cons. by right.
      * intros [?|[(a & Ha & Hn) Hm]]; [by left; right|].
        apply elem_of_cons in Ha as [->|Ha]; [by left; left|].
        right. split; [|done]. by exists a.
    + destruct (IH mentions Hnd Hpos) as (H1 & H2 & H3).
      split; [done|]. split; [done|]. intros k. rewrite H3. split.
      * intros [?|[(a & Ha & Hn) Hm]]; [by left|].
        right. split; [|done]. exists a. split; [|done].
        apply elem_of_cons. by right.
      * intros [?|[(a & Ha & Hn) Hm]]; [by left|].
        apply elem_of_cons in Ha as [->|Ha].
        -- subst k. by apply findall_mentioned in Hm.
        -- right. split; [|done]. by exists a.
Qed.

(** The dictionary [_mentioned_agents] returns. *)
Lemma _mentioned_agents_spec message_content agents :
  NoDup (SpeakerSelection._mentioned_agents message_content agents).*1 ∧
  ∀ k,
    k ∈ (SpeakerSelection._mentioned_agents message_content agents).*1 <->
    (∃ agent, agent ∈ agents ∧ SpeakerSelection.name agent = k) ∧
    SpeakerSelection.mentioned message_content k.
Proof.
  destruct (mentions_loop_spec message_content agents [])
    as (H1 & _ & H3); [constructor|constructor|].
  split; [done|].
  intros k. unfold SpeakerSelection._mentioned_agents. rewrite H3.
  split; [|by right]. intros [H|H]; [|done].
  by apply not_elem_of_nil in H.
Qed.

(** X18: the dictionary of [_mentioned_agents] has one entry for each
    distinct agent name that is mentioned, with a positive count.  A
    name is mentioned when the name itself, the name with its
    underscores as spaces, or the name with its underscores escaped
    stands in the message, padded with a space on both sides, between
    two characters that are neither alphanumeric nor an underscore. *)
Theorem mentions_are_the_delimited_names message_content agents :
  NoDup (SpeakerSelection._mentioned_agents message_content agents).*1 ∧
  (∀ k count,
     (k, count) ∈ SpeakerSelection._mentioned_agents message_content agents ->
     (0 < count)%nat) ∧
  ∀ k,
    k ∈ (SpeakerSelection._mentioned_agents message_content agents).*1 <->
    (∃ agent, agent ∈ agents ∧ SpeakerSelection.name agent = k) ∧
    ∃ literal pre b a post,
      literal ∈ SpeakerSelection.alternatives k ∧
      " " +:+ message_content +:+ " "
      = pre +:+ String b (literal +:+ String a post) ∧
      SpeakerSelection.is_word b = false ∧
      SpeakerSelection.is_word a = false.
Proof.
  destruct (mentions_loop_spec message_content agents [])
    as (H1 & H2 & H3); [constructor|constructor|].
  split; [done|]. split.
  - intros k count Hin. rewrite Forall_forall in H2. by apply (H2 _ Hin).
  - intros k. unfold SpeakerSelection._mentioned_agents. rewrite H3.
    unfold SpeakerSelection.mentioned, SpeakerSelection.delimited.
    split.
    + intros [H|[Ha (l & Hl & pre & b & a & post & Heq & Hb & Hx)]].
      * by apply not_elem_of_nil in H.
      * split; [done|]. by exists l, pre, b, a, post.
    + intros [Ha (l & pre & b & a & post & Hl & Heq & Hb & Hx)].
      right. split; [done|]. exists l. split; [done|].
      by exists pre, b, a, post.
Qed.

(** ** The selection *)

Lemma find_agent_Some agents agent_name agent :
  SpeakerSelection.find_agent agents agent_name = Some agent ->
  agent ∈ agents ∧ agent_name = SpeakerSelection.JStr (SpeakerSelection.name agent).
Proof.
  induction agents as [|a agents IH]; simpl; [done|].
  destruct agent_name as [| | |s| |];
    try (intros H; destruct (IH H) as [? ?]; done).
  destruct (decide (SpeakerSelection.name a = s)) as [<-|Hne].
  - intros [= ->]. split; [apply elem_of_cons; by left|done].
  - intros H. destruct (IH H) as [? ?]. split; [|done].
    apply elem_of_cons. by right.
Qed.

Lemma find_agent_is_Some agents agent :
  agent ∈ agents ->
  is_Some (SpeakerSelection.find_agent agents
             (SpeakerSelection.JStr (SpeakerSelection.name agent))).
Proof.
  induction agents as [|a agents IH]; intros Hin.
  - by apply not_elem_of_nil in Hin.
  - simpl. destruct (decide _) as [?|Hne]; [done|].
    apply elem_of_cons in Hin as [->|Hin]; [done|]. by apply IH.
Qed.

(** A dictionary all of whose keys are [k]. *)
Lemma one_key (d : list (string * nat)) k :
  NoDup d.*1 -> k ∈ d.*1 -> (∀ k', k' ∈ d.*1 -> k' = k) ->
  ∃ v, d = [(k, v)].
Proof.
  intros Hnd Hk Hall. destruct d as [|[k1 v1] [|[k2 v2] d]].
  - by apply not_elem_of_nil in Hk.
  - exists v1. rewrite (Hall k1); [done|]. simpl. apply elem_of_cons. by left.
  - exfalso. simpl in *. apply NoDup_cons in Hnd as [Hn _]. apply Hn.
    rewrite (Hall k1), (Hall k2).
    + apply elem_of_cons. by left.
    + apply elem_of_cons. right. apply elem_of_cons. by left.
    + apply elem_of_cons. by left.
Qed.

Section Selection.
Context {ChatMessage LLMMessage : Type}.
Variable SystemMessage : SpeakerSelection.Prompt -> LLMMessage.
Variable convert_messages_to_llm_messages :
  list ChatMessage -> string -> list LLMMessage.
Variable json_loads : string -> SpeakerSelection.Outcome SpeakerSelection.JSON.

Notation text_messages :=
  (SpeakerSelection.text_messages SystemMessage
     convert_messages_to_llm_messages).
Notation json_messages :=
  (SpeakerSelection.json_messages SystemMessage
     convert_messages_to_llm_messages).
Notation _select_text :=
  (SpeakerSelection._select_text SystemMessage
     convert_messages_to_llm_messages).
Notation _select_json :=
  (SpeakerSelection._select_json SystemMessage
     convert_messages_to_llm_messages json_loads).
Notation select_speaker :=
  (SpeakerSelection.select_speaker SystemMessage
     convert_messages_to_llm_messages json_loads).

(** [_select_text] on a text response. *)
Lemma _select_text_content client agents chat_history content :
  SpeakerSelection.create client (text_messages agents chat_history) false
  = SpeakerSelection.Returns (SpeakerSelection.Text content) ->
  _select_text client agents chat_history
  = let mentions := SpeakerSelection._mentioned_agents content agents in
    if decide (length mentions ≠ 1) then
      SpeakerSelection.Raises
        (SpeakerSelection.ValueError
           (SpeakerSelection.ExpectedOneMention (length mentions)))
    else
      match mentions with
      | (agent_name, _) :: _ =>
          match SpeakerSelection.find_agent agents
                  (SpeakerSelection.JStr agent_name) with
          | Some agent => SpeakerSelection.Returns (agent, None)
          | None =>
              SpeakerSelection.Raises
                (SpeakerSelection.ValueError
                   (SpeakerSelection.AgentNotFound
                      (SpeakerSelection.JStr agent_name)))
          end
      | [] => SpeakerSelection.Raises (SpeakerSelection.RuntimeError "coroutine raised StopIteration")
      end.
Proof.
  intros H. unfold SpeakerSelection._select_text.
  unfold SpeakerSelection.text_messages in H. by rewrite H.
Qed.

(** X19: with a client without JSON output that answers with the text
    [content], [select_speaker] returns an agent exactly when the
    names mentioned in [content] are all the name of that agent, and
    it is the first agent of the list with that name; the reason it
    returns is [None]. *)
Theorem text_selection_needs_one_mentioned_name
    client agents chat_history content agent reason :
  SpeakerSelection.capabilities client !! "json_output" = Some false ->
  SpeakerSelection.create client (text_messages agents chat_history) false
  = SpeakerSelection.Returns (SpeakerSelection.Text content) ->
  select_speaker client agents chat_history
  = SpeakerSelection.Returns (agent, reason) <->
  reason = None ∧
  SpeakerSelection.find_agent agents
    (SpeakerSelection.JStr (SpeakerSelection.name agent)) = Some agent ∧
  SpeakerSelection.mentioned content (SpeakerSelection.name agent) ∧
  ∀ a, a ∈ agents ->
       SpeakerSelection.mentioned content (SpeakerSelection.name a) ->
       SpeakerSelection.name a = SpeakerSelection.name agent.
Proof.
  intros Hcap Hcreate. unfold SpeakerSelection.select_speaker. rewrite Hcap.
  rewrite (_select_text_content _ _ _ _ Hcreate). cbv zeta.
  destruct (_mentioned_agents_spec content agents) as [Hnd Hkeys].
  split.
  - destruct (decide _) as [?|Hlen]; [done|].
    destruct (SpeakerSelection._mentioned_agents content agents)
      as [|[k v] [|? ?]] eqn:E; try done; [|simpl in Hlen; lia].
    destruct (SpeakerSelection.find_agent agents (SpeakerSelection.JStr k))
      as [a|] eqn:Hfind; [|done].
    intros [= -> <-].
    destruct (find_agent_Some _ _ _ Hfind) as [Hin [= ->]].
    split; [done|]. split; [done|]. split.
    + apply Hkeys. simpl. apply elem_of_cons. by left.
    + intros a Ha Hm.
      assert (SpeakerSelection.name a ∈ [(SpeakerSelection.name agent, v)].*1)
        as Hk by (apply Hkeys; split; [by exists a|done]).
      simpl in Hk. by apply list_elem_of_singleton in Hk.
  - intros (-> & Hfind & Hm & Hall).
    destruct (find_agent_Some _ _ _ Hfind) as [Hin _].
    destruct (one_key (SpeakerSelection._mentioned_agents content agents)
                (SpeakerSelection.name agent)) as [v ->].
    + done.
    + apply Hkeys. split; [by exists agent|done].
    + intros k' Hk'. apply Hkeys in Hk' as [(a & Ha & <-) Hm'].
      by apply Hall.
    + simpl. destruct (decide (1 ≠ 1)) as [?|_]; [done|]. by rewrite Hfind.
Qed.

(** X20: [_select_text] never fails to find the agent it has selected.
    When it raises, the exception is the one of the model client, the
    [AssertionError] for a response that is not a string, or the
    [ValueError] that reports a number of mentioned names other than
    one: the "not found" branch after the loop is never taken. *)
Theorem text_selection_never_misses_its_agent client agents chat_history e :
  _select_text client agents chat_history = SpeakerSelection.Raises e ->
  SpeakerSelection.create client (text_messages agents chat_history) false
  = SpeakerSelection.Raises e ∨
  (SpeakerSelection.create client (text_messages agents chat_history) false
   = SpeakerSelection.Returns SpeakerSelection.FunctionCalls ∧
   e = SpeakerSelection.AssertionError) ∨
  ∃ content,
    SpeakerSelection.create client (text_messages agents chat_history) false
    = SpeakerSelection.Returns (SpeakerSelection.Text content) ∧
    length (SpeakerSelection._mentioned_agents content agents) ≠ 1 ∧
    e = SpeakerSelection.ValueError
          (SpeakerSelection.ExpectedOneMention
             (length (SpeakerSelection._mentioned_agents content agents))).
Proof.
  destruct (SpeakerSelection.create client
              (text_messages agents chat_history) false)
    as [[content|]|e'] eqn:Hcreate.
  - rewrite (_select_text_content _ _ _ _ Hcreate). cbv zeta.
    destruct (_mentioned_agents_spec content agents) as [Hnd Hkeys].
    destruct (decide _) as [Hlen|Hlen].
    + intros [= <-]. right. right. by exists content.
    + destruct (SpeakerSelection._mentioned_agents content agents)
        as [|[k v] [|? ?]] eqn:E;
        [exfalso; apply Hlen; simpl; lia| |exfalso; apply Hlen; simpl; lia].
      assert (k ∈ [(k, v)].*1) as Hk by (simpl; apply elem_of_cons; by left).
      apply Hkeys in Hk as [(a & Ha & <-) _].
      destruct (find_agent_is_Some agents a Ha) as [a' ->]. done.
  - unfold SpeakerSelection._select_text.
    unfold SpeakerSelection.text_messages in Hcreate. rewrite Hcreate.
    intros [= <-]. right. by left.
  - unfold SpeakerSelection._select_text.
    unfold SpeakerSelection.text_messages in Hcreate. rewrite Hcreate.
    intros [= <-]. by left.
Qed.

(** X21: with a client with JSON output that answers with the text
    [content], [select_speaker] returns an agent and a reason exactly
    when [json.loads] gives a [dict] whose ["next_role"] is the name of
    the agent as a string and whose ["reason"] is a string, the agent
    is the first of the list with that name, and the reason returned
    is that string. *)
Theorem json_selection_succeeds_iff
    client agents chat_history content agent reason :
  SpeakerSelection.capabilities client !! "json_output" = Some true ->
  SpeakerSelection.create client (json_messages agents chat_history) true
  = SpeakerSelection.Returns (SpeakerSelection.Text content) ->
  select_speaker client agents chat_history
  = SpeakerSelection.Returns (agent, reason) <->
  ∃ d r,
    json_loads content = SpeakerSelection.Returns (SpeakerSelection.JDict d) ∧
    d !! "next_role"
    = Some (SpeakerSelection.JStr (SpeakerSelection.name agent)) ∧
    d !! "reason" = Some (SpeakerSelection.JStr r) ∧
    reason = Some r ∧
    SpeakerSelection.find_agent agents
      (SpeakerSelection.JStr (SpeakerSelection.name agent)) = Some agent.
Proof.
  intros Hcap Hcreate. unfold SpeakerSelection.select_speaker. rewrite Hcap.
  unfold SpeakerSelection._select_json.
  unfold SpeakerSelection.json_messages in Hcreate. rewrite Hcreate.
  split.
  - destruct (json_loads content) as [json_obj|?]; [|done].
    destruct (SpeakerSelection.not_in "next_role" json_obj) as [[]|?];
      try done.
    destruct json_obj as [| | | | |d]; try done. simpl.
    destruct (d !! "next_role") as [agent_name|] eqn:Hrole; [|done].
    destruct (d !! "reason") as [[| | |r| |]|] eqn:Hreason; try done. simpl.
    destruct (SpeakerSelection.find_agent agents agent_name) as [a|] eqn:Hfind;
      [|done].
    intros [= -> <-].
    destruct (find_agent_Some _ _ _ Hfind) as [_ ->].
    by exists d, r.
  - intros (d & r & -> & Hrole & Hreason & -> & Hfind). simpl.
    rewrite Hrole. rewrite bool_decide_eq_false_2 by done.
    by rewrite Hreason, Hfind.
Qed.

(** X22: the reason is not optional.  When the JSON response is a
    [dict] with a ["next_role"] but without a ["reason"] that is a
    string, [_select_json] raises [AssertionError], whatever the next
    role is. *)
Theorem json_selection_requires_a_reason
    client agents chat_history content d agent_name :
  SpeakerSelection.create client (json_messages agents chat_history) true
  = SpeakerSelection.Returns (SpeakerSelection.Text content) ->
  json_loads content = SpeakerSelection.Returns (SpeakerSelection.JDict d) ->
  d !! "next_role" = Some agent_name ->
  (∀ r, d !! "reason" ≠ Some (SpeakerSelection.JStr r)) ->
  _select_json client agents chat_history
  = SpeakerSelection.Raises SpeakerSelection.AssertionError.
Proof.
  intros Hcreate Hloads Hrole Hreason.
  unfold SpeakerSelection._select_json.
  unfold SpeakerSelection.json_messages in Hcreate.
  rewrite Hcreate, Hloads. simpl.
  rewrite Hrole. rewrite bool_decide_eq_false_2 by done.
  destruct (d !! "reason") as [[| | |r| |]|] eqn:E; try done.
  by destruct (Hreason r).
Qed.

End Selection.

(** ** A conversation of two *)

Lemma text_selection_needs_one_mentioned_name_witness :
  SpeakerSelection.capabilities (text_client "Next: bob 2.") !! "json_output"
  = Some false ∧
  SpeakerSelection.create (text_client "Next: bob 2.")
    (SpeakerSelection.text_messages id no_history [alice; bob_2] []) false
  = SpeakerSelection.Returns (SpeakerSelection.Text "Next: bob 2.") ∧
  SpeakerSelection.mentioned "Next: bob 2." "bob_2" ∧
  ∀ a, a ∈ [alice; bob_2] ->
       SpeakerSelection.mentioned "Next: bob 2." (SpeakerSelection.name a) ->
       SpeakerSelection.name a = "bob_2".
Proof.
  split; [reflexivity|]. split; [reflexivity|].
  apply (text_selection_needs_one_mentioned_name id no_history loads
           (text_client "Next: bob 2.") [alice; bob_2] [] "Next: bob 2."
           bob_2 None eq_refl eq_refl).
  vm_compute. reflexivity.
Defined.

Lemma text_selection_never_misses_its_agent_witness :
  SpeakerSelection._select_text id no_history (text_client "alice or bob_2")
    [alice; bob_2] []
  = SpeakerSelection.Raises
      (SpeakerSelection.ValueError (SpeakerSelection.ExpectedOneMention 2)) ∧
  ∃ content,
    SpeakerSelection.create (text_client "alice or bob_2")
      (SpeakerSelection.text_messages id no_history [alice; bob_2] []) false
    = SpeakerSelection.Returns (SpeakerSelection.Text content) ∧
    length (SpeakerSelection._mentioned_agents content [alice; bob_2]) ≠ 1.
Proof.
  split; [vm_compute; reflexivity|].
  destruct (text_selection_never_misses_its_agent id no_history
              (text_client "alice or bob_2") [alice; bob_2] []
              (SpeakerSelection.ValueError
                 (SpeakerSelection.ExpectedOneMention 2)))
    as [H|[[H _]|(content & H & Hlen & _)]].
  - vm_compute. reflexivity.
  - discriminate H.
  - discriminate H.
  - exists content. split; [exact H|exact Hlen].
Defined.

Lemma json_selection_succeeds_iff_witness :
  SpeakerSelection.capabilities (json_client "full") !! "json_output"
  = Some true ∧
  SpeakerSelection.create (json_client "full")
    (SpeakerSelection.json_messages id no_history [alice; bob_2] []) true
  = SpeakerSelection.Returns (SpeakerSelection.Text "full") ∧
  ∃ d r,
    loads "full" = SpeakerSelection.Returns (SpeakerSelection.JDict d) ∧
    d !! "next_role" = Some (SpeakerSelection.JStr "alice") ∧
    d !! "reason" = Some (SpeakerSelection.JStr r) ∧
    Some "her turn" = Some r ∧
    SpeakerSelection.find_agent [alice; bob_2] (SpeakerSelection.JStr "alice")
    = Some alice.
Proof.
  split; [reflexivity|]. split; [reflexivity|].
  apply (json_selection_succeeds_iff id no_history loads
           (json_client "full") [alice; bob_2] [] "full" alice
           (Some "her turn") eq_refl eq_refl).
  vm_compute. reflexivity.
Defined.

Lemma json_selection_requires_a_reason_witness :
  loads "short"
  = SpeakerSelection.Returns
      (SpeakerSelection.JDict
         {[ "next_role" := SpeakerSelection.JStr "alice" ]}) ∧
  SpeakerSelection._select_json id no_history loads (json_client "short")
    [alice; bob_2] []
  = SpeakerSelection.Raises SpeakerSelection.AssertionError.
Proof.
  split; [reflexivity|].
  apply (json_selection_requires_a_reason id no_history loads
           (json_client "short") [alice; bob_2] [] "short"
           {[ "next_role" := SpeakerSelection.JStr "alice" ]}
           (SpeakerSelection.JStr "alice") eq_refl eq_refl).
  - vm_compute. reflexivity.
  - intros r. vm_compute. discriminate.
Defined.
(** * Lookups that overlap *)

(** [_get_agent] is its two halves, with the factory call between
    them, run in one go. *)
Lemma _get_agent_in_one_go a st :
  _get_agent a st
  = (let* found := _get_agent_lookup a in
     match found with
     | inl agent => pure agent
     | inr agent_factory =>
         let* agent := _invoke_agent_factory agent_factory a in
         _get_agent_store a agent
     end) st.
Proof.
  unfold _get_agent, _get_agent_lookup, _get_agent_store. munfold. simpl.
  destruct (_instantiated_agents st !! a); [done|].
  by destruct (_agent_factories st !! aid_type a).
Qed.

Lemma _invoke_agent_factory_ok fac a ag st :
  invoke_product fac a = Ok ag ->
  _invoke_agent_factory fac a st
  = (Ok (mkAgentInstance (next_uid st) ag),
     set_trace (trace st ++ invoke_events fac a (next_uid st))
       (set_next_uid (S (next_uid st)) st)).
Proof.
  intros H3.
  unfold _invoke_agent_factory, invoke_product, invoke_events in *.
  destruct (decide (signature_parameters fac = 0)) as [E0|E0].
  - destruct (decide (signature_parameters fac = 2)); [congruence|].
    munfold. rewrite (call_factory_ok _ _ _ _ _ H3). simpl.
    destruct st; simpl. by rewrite <- !app_assoc.
  - destruct (decide (signature_parameters fac = 2)); [|done].
    munfold. rewrite (call_factory_ok _ _ _ _ _ H3). simpl.
    destruct st; simpl. by rewrite <- !app_assoc.
Qed.

(** X23: two lookups of a new id that overlap create two instances.
    When a second [_get_agent] for an id tests the cache while the
    factory call of the first is still awaited, both miss: each calls
    the factory, the first stores its instance, and the store of the
    second replaces it with another object.  The two callers hold
    different instances for the same id, and the cache keeps the
    later one. *)
Theorem overlapping_lookups_replace_the_instance a fac ag st :
  _instantiated_agents st !! a = None ->
  _agent_factories st !! aid_type a = Some fac ->
  invoke_product fac a = Ok ag ->
  ∃ i1 i2 st1 st2 st3 st4,
    _get_agent_lookup a st = (Ok (inr fac), st) ∧
    _invoke_agent_factory fac a st = (Ok i1, st1) ∧
    _get_agent_store a i1 st1 = (Ok i1, st2) ∧
    _invoke_agent_factory fac a st2 = (Ok i2, st3) ∧
    _get_agent_store a i2 st3 = (Ok i2, st4) ∧
    instance_agent i1 = ag ∧ instance_agent i2 = ag ∧
    instance_uid i1 ≠ instance_uid i2 ∧
    _instantiated_agents st2 !! a = Some i1 ∧
    _instantiated_agents st4 !! a = Some i2 ∧
    ∃ evs,
      trace st4 = trace st ++ evs ∧
      filter is_factory_call evs = [EvFactoryCall a; EvFactoryCall a].
Proof.
  intros H1 H2 H3.
  eexists _, _, _, _, _, _.
  split.
  { unfold _get_agent_lookup. munfold. by rewrite H1, H2. }
  split; [by apply _invoke_agent_factory_ok|].
  split; [reflexivity|].
  split; [by apply _invoke_agent_factory_ok|].
  split; [reflexivity|].
  split; [done|]. split; [done|].
  split; [simpl; lia|].
  split; [simpl; by rewrite lookup_insert_eq|].
  split; [simpl; by rewrite lookup_insert_eq|].
  eexists. split.
  - simpl. rewrite <- app_assoc. reflexivity.
  - rewrite filter_app. unfold invoke_events.
    by destruct (decide (signature_parameters fac = 2)).
Qed.

Lemma overlapping_lookups_replace_the_instance_witness :
  ∃ i1 i2 st2 st4,
    _get_agent_lookup echo_id (echo_runtime None)
    = (Ok (inr echo_factory), echo_runtime None) ∧
    _instantiated_agents st2 !! echo_id = Some i1 ∧
    _instantiated_agents st4 !! echo_id = Some i2 ∧
    instance_uid i1 ≠ instance_uid i2.
Proof.
  destruct (overlapping_lookups_replace_the_instance echo_id echo_factory
              echo_agent (echo_runtime None))
    as (i1 & i2 & st1 & st2 & st3 & st4 & H1 & _ & _ & _ & _ & _ & _ & H2
        & H3 & H4 & _).
  - reflexivity.
  - reflexivity.
  - reflexivity.
  - exists i1, i2, st2, st4.
    split; [exact H1|]. split; [exact H3|]. split; [exact H4|exact H2].
Defined.
